(** * Completion engine of the line editor: word scanner, rewrite layer,
      filename completer

    A shallow embedding of [src/completers.c].  C strings are lists of
    characters (the bytes before the terminating NUL), offsets are [Z] as
    [ssize_t] is in the source, and every [while] loop is a fuel-driven
    [Fixpoint] that answers [None] only when the fuel runs out. *)

From Stdlib Require Import ZArith Ascii String Bool Lia List.
Import ListNotations.
Local Open Scope Z_scope.

(** ** C strings *)

Module Str.

Definition NUL : ascii := Ascii.zero.

(** The characters of a string literal, as a [const char*] holds them. *)
Definition chars (s : string) : list ascii := list_ascii_of_string s.

(** [s[i]]: the list holds the bytes before the terminator, so the byte at
    offset [length s] reads as NUL. *)
Definition char_at (s : list ascii) (i : Z) : ascii :=
  if i <? 0 then NUL else nth (Z.to_nat i) s NUL.

Definition mem (c : ascii) (set : list ascii) : bool :=
  existsb (Ascii.eqb c) set.

(** [strchr(set, c) != NULL].  As in C the terminator is part of the string
    searched, so NUL is always found. *)
Definition strchr (set : list ascii) (c : ascii) : bool :=
  Ascii.eqb c NUL || mem c set.

(** A well-formed C string has no NUL among its characters. *)
Definition no_nul (s : list ascii) : Prop := Forall (fun c => c <> NUL) s.

(** The string a [char*] buffer denotes: its bytes up to the first NUL. *)
Fixpoint c_string (buf : list ascii) : list ascii :=
  match buf with
  | [] => []
  | c :: t => if Ascii.eqb c NUL then [] else c :: c_string t
  end.

(** Offset of the first occurrence of [c], as [strchr(s, c) - s]. *)
Fixpoint index_of (c : ascii) (s : list ascii) : option Z :=
  match s with
  | [] => None
  | d :: t => if Ascii.eqb d c then Some 0
              else match index_of c t with
                   | Some i => Some (i + 1)
                   | None => None
                   end
  end.

(** Offset of the last occurrence of [c], as [strrchr(s, c) - s]. *)
Fixpoint rindex_of (c : ascii) (s : list ascii) : option Z :=
  match s with
  | [] => None
  | d :: t => match rindex_of c t with
              | Some i => Some (i + 1)
              | None => if Ascii.eqb d c then Some 0 else None
              end
  end.

Fixpoint starts_with (s p : list ascii) : bool :=
  match p, s with
  | [], _ => true
  | _ :: _, [] => false
  | b :: p', a :: s' => Ascii.eqb a b && starts_with s' p'
  end.

Definition list_eqb (a b : list ascii) : bool :=
  if list_eq_dec ascii_dec a b then true else false.

(** *** The code-point cursor *)

(** Modelled from the spec: the code-point cursor of stringbuf.c (section 2,
    "given a byte buffer and a byte offset, returns the offset of the
    next/previous code point boundary"), which is not among the sources.
    Text is UTF-8: a code point is one byte followed by its continuation
    bytes, those of the form 10xxxxxx. *)
Definition is_cont (c : ascii) : bool :=
  match c with
  | Ascii _ _ _ _ _ _ b6 b7 => b7 && negb b6
  end.

Fixpoint next_ofs_loop (fuel : nat) (s : list ascii) (len pos ofs : Z) : Z :=
  match fuel with
  | O => ofs
  | S f =>
      if (pos + ofs <? len) && is_cont (char_at s (pos + ofs))
      then next_ofs_loop f s len pos (ofs + 1)
      else ofs
  end.

(** Modelled from the spec: [str_next_ofs(s, len, pos, ...)], the width in
    bytes of the code point that starts at [pos], and 0 at the end. *)
Definition str_next_ofs (s : list ascii) (len pos : Z) : Z :=
  if pos <? len then next_ofs_loop (Z.to_nat (len - pos)) s len pos 1 else 0.

Fixpoint prev_ofs_loop (fuel : nat) (s : list ascii) (pos ofs : Z) : Z :=
  match fuel with
  | O => ofs
  | S f =>
      if (ofs <? pos) && is_cont (char_at s (pos - ofs))
      then prev_ofs_loop f s pos (ofs + 1)
      else ofs
  end.

(** Modelled from the spec: [str_prev_ofs(s, pos, ...)], the width in bytes
    of the code point that ends just before [pos], and 0 at the start. *)
Definition str_prev_ofs (s : list ascii) (pos : Z) : Z :=
  if 0 <? pos then prev_ofs_loop (Z.to_nat pos) s pos 1 else 0.

End Str.

Import Str.

(** ** String buffers *)

Module Sbuf.

(** Modelled from the spec: the growable buffer of stringbuf.c (section 9,
    "an owned growable buffer type"), which is not among the sources.  A
    buffer is the list of its bytes; allocation inside a buffer operation is
    taken to succeed. *)
Definition stringbuf_t := list ascii.

(** Modelled from the spec: [sbuf_len], the number of bytes held. *)
Definition sbuf_len (sb : stringbuf_t) : Z := Z.of_nat (length sb).

(** Modelled from the spec: [sbuf_char_at], the byte at [pos], NUL outside
    the buffer. *)
Definition sbuf_char_at (sb : stringbuf_t) (pos : Z) : ascii :=
  if (pos <? 0) || (sbuf_len sb <=? pos) then NUL else char_at sb pos.

(** Modelled from the spec: [sbuf_insert_char_at], which does nothing for an
    offset outside the buffer. *)
Definition sbuf_insert_char_at (sb : stringbuf_t) (c : ascii) (pos : Z) : stringbuf_t :=
  if (pos <? 0) || (sbuf_len sb <? pos) then sb
  else firstn (Z.to_nat pos) sb ++ c :: skipn (Z.to_nat pos) sb.

(** Modelled from the spec: [sbuf_append], [sbuf_append_char] and
    [sbuf_append_n] add a string, a byte, and the first [n] bytes of a
    string at the end. *)
Definition sbuf_append (sb : stringbuf_t) (s : list ascii) : stringbuf_t := sb ++ s.

Definition sbuf_append_char (sb : stringbuf_t) (c : ascii) : stringbuf_t := sb ++ [c].

Definition sbuf_append_n (sb : stringbuf_t) (s : list ascii) (n : Z) : stringbuf_t :=
  sb ++ firstn (Z.to_nat n) s.

(** Modelled from the spec: [sbuf_delete_from], which cuts the buffer at
    [pos]. *)
Definition sbuf_delete_from (sb : stringbuf_t) (pos : Z) : stringbuf_t :=
  firstn (Z.to_nat pos) sb.

(** Modelled from the spec: [sbuf_next], the offset after the code point at
    [pos], or -1 when there is none. *)
Definition sbuf_next (sb : stringbuf_t) (pos : Z) : Z :=
  let ofs := str_next_ofs sb (sbuf_len sb) pos in
  if ofs <=? 0 then -1 else pos + ofs.

End Sbuf.

Import Sbuf.

(** ** The word-boundary scan of [rp_complete_quoted_word] *)

Definition default_non_word_chars : list ascii :=
  [" "%char; "009"%char; "013"%char; "010"%char].

Definition default_quote_chars : list ascii := ["'"%char; "034"%char].

(** Lines 77-94: the forward pass that counts quotes.  The state is
    [(pos, qpos, qcount)]. *)
Fixpoint quote_scan (fuel : nat) (prefix : list ascii) (len : Z)
    (escape_char : ascii) (quote_chars : list ascii)
    (pos qpos qcount : Z) : option (Z * Z * Z) :=
  match fuel with
  | O => None
  | S f =>
      if pos <? len then
        let '(pos1, qpos1, qcount1) :=
          if Ascii.eqb (char_at prefix pos) escape_char then
            (pos + 1, qpos, qcount)
          else if strchr quote_chars (char_at prefix pos) then
            (pos, (if Z.rem qcount 2 =? 1 then -1 else pos), qcount + 1)
          else (pos, qpos, qcount) in
        let ofs := str_next_ofs prefix len pos1 in
        if ofs <=? 0 then Some (pos1, qpos1, qcount1)
        else quote_scan f prefix len escape_char quote_chars (pos1 + ofs) qpos1 qcount1
      else Some (pos, qpos, qcount)
  end.

(** Lines 106-116: the backward scan for a separator. *)
Fixpoint back_scan (fuel : nat) (prefix : list ascii)
    (non_word_chars : list ascii) (escape_char : ascii) (pos : Z) : option Z :=
  match fuel with
  | O => None
  | S f =>
      if 0 <? pos then
        let ofs := str_prev_ofs prefix pos in
        if ofs <=? 0 then Some pos
        else if strchr non_word_chars (char_at prefix (pos - ofs))
                && ((pos <=? ofs)
                    || negb (Ascii.eqb (char_at prefix (pos - ofs - 1)) escape_char))
        then Some pos
        else back_scan f prefix non_word_chars escape_char (pos - ofs)
      else Some pos
  end.

(** Lines 71-101: the quote stage.  It leaves the offset after the open quote
    and the quote itself when the count of quotes is odd, and no quote
    ([NUL]) otherwise; with an empty quote set the pass is skipped. *)
Definition quote_stage (prefix : list ascii) (escape_char : ascii)
    (quote_chars : list ascii) : option (Z * ascii) :=
  let len := Z.of_nat (length prefix) in
  match quote_chars with
  | [] => Some (0, NUL)
  | _ :: _ =>
      match quote_scan (S (length prefix)) prefix len escape_char quote_chars 0 (-1) 0 with
      | None => None
      | Some (pos, qpos, qcount) =>
          if Z.rem qcount 2 =? 1
          then Some (qpos + 1, char_at prefix qpos)
          else Some (pos, NUL)
      end
  end.

(** Lines 67-117: the start of the word and the open quote ([NUL] when the
    word is not quoted).  [rp_strlen(prefix)] is the length of the list. *)
Definition word_boundary (prefix non_word_chars : list ascii)
    (escape_char : ascii) (quote_chars : list ascii) : option (Z * ascii) :=
  let len := Z.of_nat (length prefix) in
  match quote_stage prefix escape_char quote_chars with
  | None => None
  | Some (pos, quote) =>
      if Ascii.eqb quote NUL then
        match back_scan (S (length prefix)) prefix non_word_chars escape_char len with
        | Some p => Some (p, NUL)
        | None => None
        end
      else Some (pos, quote)
  end.

(** ** The rewrite layer: unescaping and escaping *)

(** Modelled from the spec: [mem_strdup(mem, prefix + pos)] of common.c when
    it succeeds (section 4.2, "a duplicate heap buffer"): the bytes of the
    word and their terminator. *)
Definition strdup_from (prefix : list ascii) (pos : Z) : list ascii :=
  skipn (Z.to_nat pos) prefix ++ [NUL].

(** Modelled from the spec: [rp_memmove(word + wpos, word + wpos + 1, n)] of
    common.c, the [memmove] of the C library: [n] bytes move down by one,
    the bytes after them stay. *)
Definition memmove_left (word : list ascii) (wpos n : Z) : list ascii :=
  firstn (Z.to_nat wpos) word
  ++ firstn (Z.to_nat n) (skipn (Z.to_nat (wpos + 1)) word)
  ++ skipn (Z.to_nat (wpos + n)) word.

(** Lines 130-137: the unescape loop, over the duplicated word (a buffer of
    [wlen + 1] bytes).  [wlen] is not updated when a byte is removed. *)
Fixpoint unescape_loop (fuel : nat) (word : list ascii) (wlen : Z)
    (non_word_chars : list ascii) (escape_char : ascii) (wpos : Z)
    : option (list ascii) :=
  match fuel with
  | O => None
  | S f =>
      if wpos <? wlen then
        let ofs := str_next_ofs word wlen wpos in
        if ofs <=? 0 then Some word
        else
          let word1 :=
            if Ascii.eqb (char_at word wpos) escape_char
               && strchr non_word_chars (char_at word (wpos + 1))
            then memmove_left word wpos (wlen - wpos)
            else word in
          unescape_loop f word1 wlen non_word_chars escape_char (wpos + ofs)
      else Some word
  end.

(** The unescape step on a word: duplicate, run the loop, read the result as
    a C string. *)
Definition unescape (w non_word_chars : list ascii) (escape_char : ascii)
    : option (list ascii) :=
  match unescape_loop (S (length w)) (strdup_from w 0) (Z.of_nat (length w))
          non_word_chars escape_char 0 with
  | Some buf => Some (c_string buf)
  | None => None
  end.

(** Lines 44-51: the escape loop of [word_add_completion_ex].  [len] is the
    length read before the loop and is not updated by an insertion. *)
Fixpoint escape_loop (fuel : nat) (sb : stringbuf_t) (len : Z)
    (non_word_chars : list ascii) (escape_char : ascii) (pos : Z)
    : option stringbuf_t :=
  match fuel with
  | O => None
  | S f =>
      if pos <? len then
        let '(sb1, pos1) :=
          if strchr non_word_chars (sbuf_char_at sb pos)
          then (sbuf_insert_char_at sb escape_char pos, pos + 1)
          else (sb, pos) in
        let pos2 := sbuf_next sb1 pos1 in
        if pos2 <=? 0 then Some sb1
        else escape_loop f sb1 len non_word_chars escape_char pos2
      else Some sb
  end.

(** The escape step on a replacement. *)
Definition escape (replacement non_word_chars : list ascii) (escape_char : ascii)
    : option stringbuf_t :=
  escape_loop (S (length replacement)) replacement (sbuf_len replacement)
    non_word_chars escape_char 0.

(** ** The completion environment and its sinks *)

(** A [rp_completion_fun_t*]: either a sink of the caller (the store's own,
    or any other), named by a number, or [&word_add_completion_ex]. *)
Inductive completion_fun : Type :=
| prim_complete (id : Z)
| word_add_completion_ex_fn.

(** [word_closure_t].  Its scratch buffer [sbuf] is left out: every call of
    the sink overwrites it whole before reading it. *)
Record word_closure_t : Type := mk_word_closure {
  non_word_chars : list ascii;
  escape_char : ascii;
  quote : ascii;
  delete_before_adjust : Z;
  prev_complete : completion_fun;
  prev_env : Z
}.

(** [filename_closure_t]. *)
Record filename_closure_t : Type := mk_filename_closure {
  roots : list ascii;
  dir_sep : ascii
}.

(** The [void*] values of the environment: null, the [rp_env_t*] of an
    environment, the address of a closure (with what it holds), or any other
    address. *)
Inductive ptr : Type :=
| NULL
| env_ptr (e : Z)
| word_closure_ptr (w : word_closure_t)
| filename_closure_ptr (f : filename_closure_t)
| other_ptr (a : Z).

(** The fields of [rp_completion_env_t] that completers.c reads and writes. *)
Record rp_completion_env_t : Type := mk_cenv {
  env : Z;
  arg : ptr;
  closure : ptr;
  complete : completion_fun
}.

Definition set_arg (cenv : rp_completion_env_t) (a : ptr) : rp_completion_env_t :=
  mk_cenv (env cenv) a (closure cenv) (complete cenv).

Definition set_sink (cenv : rp_completion_env_t) (f : completion_fun) (cl : ptr)
    : rp_completion_env_t :=
  mk_cenv (env cenv) (arg cenv) cl f.

(** What a sink of the caller receives. *)
Record completion : Type := mk_completion {
  c_env : Z;
  c_closure : ptr;
  c_display : option (list ascii);
  c_replacement : list ascii;
  c_delete_before : Z;
  c_delete_after : Z
}.

(** What a run does that its caller can observe, oldest first. *)
Inductive event : Type :=
| ev_add (id : Z) (c : completion) (accepted : bool)
| ev_callback (word : list ascii)
| ev_open (path : list ascii)
| ev_close (path : list ascii).

Record world : Type := mk_world {
  log : list event;
  allocs : nat
}.

Definition emit (e : event) (w : world) : world :=
  mk_world (log w ++ [e]) (allocs w).

(** The host: the file system ([opendir] with [readdir], and the [st_mode]
    that [stat] writes for a path, none when [stat] fails), the allocator
    (whether the n-th request succeeds) and the caller's sinks (whether one
    accepts a candidate, given what went before). *)
Record host : Type := mk_host {
  fs_entries : list ascii -> option (list (list ascii));
  stat_mode : list ascii -> option Z;
  mem_ok : nat -> bool;
  sink_accepts : Z -> list event -> completion -> bool
}.

(** [S_IFDIR] of <sys/stat.h>, octal 0040000 on Linux, the BSDs and macOS. *)
Definition S_IFDIR : Z := 16384.

(** [S_IFMT] of <sys/stat.h>, octal 0170000: the bits of [st_mode] that hold
    the type of the file.  The file is a directory when they equal
    [S_IFDIR]. *)
Definition S_IFMT : Z := 61440.

(** Lines 220-224: [st] starts as zeros, the result of [stat] is not looked
    at, and the test is a mask of [st_mode] with [S_IFDIR]. *)
Definition os_is_dir (h : host) (cpath : list ascii) : bool :=
  let st_mode := match stat_mode h cpath with Some m => m | None => 0 end in
  negb (Z.land st_mode S_IFDIR =? 0).

(** One request to the allocator. *)
Definition alloc (h : host) (w : world) : bool * world :=
  (mem_ok h (allocs w), mk_world (log w) (S (allocs w))).

Definition call_prim (h : host) (id : Z) (c : completion) (w : world) : bool * world :=
  let ok := sink_accepts h id (log w) c in
  (ok, emit (ev_add id c ok) w).

(** Lines 35-52: the candidate as rewritten into the scratch buffer. *)
Definition rewrite_candidate (wenv : word_closure_t) (replacement : list ascii)
    : option stringbuf_t :=
  if negb (Ascii.eqb (quote wenv) NUL)
  then Some (sbuf_append_char replacement (quote wenv))
  else escape replacement (non_word_chars wenv) (escape_char wenv).

(** A C [long] on the platforms of this branch: 64 bits, two's complement. *)
Definition LONG_MAX : Z := 9223372036854775807.
Definition LONG_MIN : Z := -9223372036854775808.

(** [a + b] on two [long]s: a sum past [LONG_MAX] comes back lowered by
    2^64, a sum below [LONG_MIN] raised by 2^64. *)
Definition long_add (a b : Z) : Z :=
  if (0 <? b) && (LONG_MAX - b <? a) then a + b - 18446744073709551616
  else if (b <? 0) && (a <? LONG_MIN - b) then a + b + 18446744073709551616
  else a + b.

(** Lines 33-55.  [closure] is cast to a [word_closure_t*]: the call has no
    result ([None]) when it is not one, and none either when the previous
    sink is this function again, which would re-enter it with the same
    closure without end. *)
Definition word_add_completion_ex (h : host) (e : Z) (cl : ptr)
    (display : option (list ascii)) (replacement : list ascii)
    (delete_before delete_after : Z) (w : world) : option (bool * world) :=
  match cl with
  | word_closure_ptr wenv =>
      match rewrite_candidate wenv replacement with
      | None => None
      | Some sb =>
          match prev_complete wenv with
          | prim_complete id =>
              Some (call_prim h id
                      (mk_completion e cl
                         (Some (match display with Some d => d | None => replacement end))
                         sb (long_add (delete_before_adjust wenv) delete_before)
                         delete_after) w)
          | word_add_completion_ex_fn => None
          end
      end
  | _ => None
  end.

(** A call through a [rp_completion_fun_t*]. *)
Definition call_complete (h : host) (f : completion_fun) (e : Z) (cl : ptr)
    (display : option (list ascii)) (replacement : list ascii)
    (delete_before delete_after : Z) (w : world) : option (bool * world) :=
  match f with
  | prim_complete id =>
      Some (call_prim h id (mk_completion e cl display replacement delete_before delete_after) w)
  | word_add_completion_ex_fn =>
      word_add_completion_ex h e cl display replacement delete_before delete_after w
  end.

(** Modelled from the spec: [rp_add_completion_ex] of completions.c, which is
    not among the sources (section 6, the sink surface
    "add(display_or_none, replacement, delete_before, delete_after) ->
    continue", reached "through the completion-environment value"). *)
Definition rp_add_completion_ex (h : host) (cenv : rp_completion_env_t)
    (display : option (list ascii)) (replacement : list ascii)
    (delete_before delete_after : Z) (w : world) : option (bool * world) :=
  call_complete h (complete cenv) (env cenv) (closure cenv)
    display replacement delete_before delete_after w.

(** Modelled from the spec: [rp_add_completion], the same with no deletion. *)
Definition rp_add_completion (h : host) (cenv : rp_completion_env_t)
    (display : option (list ascii)) (replacement : list ascii) (w : world)
    : option (bool * world) :=
  rp_add_completion_ex h cenv display replacement 0 0 w.

(** A [rp_completer_fun_t]: it is handed the environment and the word, may
    write to the environment and act on the world, and may not return. *)
Definition rp_completer_fun_t : Type :=
  rp_completion_env_t -> list ascii -> world -> option (rp_completion_env_t * world).

(** ** [rp_complete_quoted_word] *)

(** Lines 126-138: the word handed to the completer. *)
Definition unescaped_word (prefix : list ascii) (pos : Z) (q : ascii)
    (nwc : list ascii) (esc : ascii) : option (list ascii) :=
  let len := Z.of_nat (length prefix) in
  if Ascii.eqb q NUL then
    match unescape_loop (S (Z.to_nat (len - pos))) (strdup_from prefix pos)
            (len - pos) nwc esc 0 with
    | Some buf => Some (c_string buf)
    | None => None
    end
  else Some (c_string (strdup_from prefix pos)).

(** Lines 63-162. *)
Definition rp_complete_quoted_word (h : host) (cenv : rp_completion_env_t)
    (prefix : list ascii) (fn : rp_completer_fun_t)
    (non_word_chars_arg : option (list ascii)) (esc : ascii)
    (quote_chars_arg : option (list ascii)) (w : world)
    : option (rp_completion_env_t * world) :=
  let nwc := match non_word_chars_arg with Some s => s | None => default_non_word_chars end in
  let qs := match quote_chars_arg with Some s => s | None => default_quote_chars end in
  let len := Z.of_nat (length prefix) in
  match word_boundary prefix nwc esc qs with
  | None => None
  | Some (pos, q) =>
      if len =? pos then Some (cenv, w)
      else
        let '(word_ok, w1) := alloc h w in
        if negb word_ok then Some (cenv, w1)
        else
          match unescaped_word prefix pos q nwc esc with
          | None => None
          | Some word =>
              let wenv := mk_word_closure nwc esc q (len - pos) (complete cenv) (env cenv) in
              let '(sbuf_ok, w2) := alloc h w1 in
              if negb sbuf_ok then Some (cenv, w2)
              else
                let cenv1 := set_sink cenv word_add_completion_ex_fn (word_closure_ptr wenv) in
                match fn cenv1 word (emit (ev_callback word) w2) with
                | None => None
                | Some (cenv2, w3) =>
                    Some (set_sink cenv2 (prev_complete wenv) (env_ptr (prev_env wenv)), w3)
                end
          end
  end.

(** Lines 58-60. *)
Definition rp_complete_word (h : host) (cenv : rp_completion_env_t)
    (prefix : list ascii) (fn : rp_completer_fun_t) (w : world)
    : option (rp_completion_env_t * world) :=
  rp_complete_quoted_word h cenv prefix fn None "\"%char None w.

(** ** File name completion *)

(** Lines 253-255, the branch that is compiled when [WIN32] is not defined. *)
Definition os_path_is_absolute (path : option (list ascii)) : bool :=
  match path with
  | None => false
  | Some p => Ascii.eqb (char_at p 0) "/"%char
  end.

(** Modelled from the spec: [rp_starts_with] of common.c, which is not among
    the sources (section 4.4, "whose name starts with base_prefix
    (byte-prefix match)"). *)
Definition rp_starts_with (s p : list ascii) : bool := starts_with s p.

(** Line 271: the entries that are proposed. *)
Definition entry_matches (name base_prefix : list ascii) : bool :=
  negb (list_eqb name (chars "."))
  && negb (list_eqb name (chars ".."))
  && rp_starts_with name base_prefix.

(** Lines 270-285: the body of the enumeration, for one entry.  It hands
    back [cont] and the two buffers [dir] and [dir_prefix]. *)
Definition indir_entry (h : host) (cenv : rp_completion_env_t)
    (base_prefix : list ascii) (sep : ascii) (name : list ascii)
    (cont : bool) (dir dir_prefix : stringbuf_t) (w : world)
    : option (bool * (stringbuf_t * stringbuf_t) * world) :=
  if entry_matches name base_prefix then
    let plen := sbuf_len dir_prefix in
    let dp1 := sbuf_append dir_prefix name in
    let '(dir1, dp2) :=
      if negb (Ascii.eqb sep NUL) then
        let dlen := sbuf_len dir in
        let probe := sbuf_append (sbuf_append_char dir sep) name in
        let dp := if os_is_dir h probe then sbuf_append_char dp1 sep else dp1 in
        (sbuf_delete_from probe dlen, dp)
      else (dir, dp1) in
    match rp_add_completion h cenv None dp2 w with
    | None => None
    | Some (cont1, w1) => Some (cont1, (dir1, sbuf_delete_from dp2 plen), w1)
    end
  else Some (cont, (dir, dir_prefix), w).

(** Lines 269-286: the [do ... while (cont && os_findnext(d, &entry))] loop,
    at the entry [name] with [rest] still to be read. *)
Fixpoint indir_loop (h : host) (cenv : rp_completion_env_t)
    (base_prefix : list ascii) (sep : ascii) (name : list ascii)
    (rest : list (list ascii)) (cont : bool) (dir dir_prefix : stringbuf_t)
    (w : world) : option (bool * (stringbuf_t * stringbuf_t) * world) :=
  match indir_entry h cenv base_prefix sep name cont dir dir_prefix w with
  | None => None
  | Some (cont1, (dir1, dp1), w1) =>
      if cont1 then
        match rest with
        | [] => Some (cont1, (dir1, dp1), w1)
        | name' :: rest' => indir_loop h cenv base_prefix sep name' rest' cont1 dir1 dp1 w1
        end
      else Some (cont1, (dir1, dp1), w1)
  end.

(** Lines 264-290.  [os_findfirst] fails when the directory cannot be opened
    and also when it opens and has no entry to read; only in the second case
    was a handle opened. *)
Definition filename_complete_indir (h : host) (cenv : rp_completion_env_t)
    (dir dir_prefix : stringbuf_t) (base_prefix : list ascii) (sep : ascii)
    (w : world) : option (bool * (stringbuf_t * stringbuf_t) * world) :=
  match fs_entries h dir with
  | None => Some (true, (dir, dir_prefix), w)
  | Some [] => Some (true, (dir, dir_prefix), emit (ev_open dir) w)
  | Some (name :: rest) =>
      match indir_loop h cenv base_prefix sep name rest true dir dir_prefix
              (emit (ev_open dir) w) with
      | None => None
      | Some (cont, bufs, w1) => Some (cont, bufs, emit (ev_close dir) w1)
      end
  end.

(** Lines 327-348: the loop over the roots; [root] is the rest of the list
    still to be split, [None] once the last root was taken. *)
Fixpoint roots_loop (fuel : nat) (h : host) (cenv : rp_completion_env_t)
    (prefix : list ascii) (base : option Z) (base_prefix : list ascii)
    (sep : ascii) (root : option (list ascii)) (dir_prefix : stringbuf_t)
    (w : world) : option world :=
  match fuel with
  | O => None
  | S f =>
      match root with
      | None => Some w
      | Some r =>
          let '(root_dir0, root') :=
            match index_of ";"%char r with
            | None => (sbuf_append [] r, None)
            | Some k => (sbuf_append_n [] r k, Some (skipn (Z.to_nat (k + 1)) r))
            end in
          let root_dir1 := sbuf_append_char root_dir0 "/"%char in
          let root_dir2 :=
            match base with
            | Some b => sbuf_append_n root_dir1 prefix (b - 1)
            | None => root_dir1
            end in
          match filename_complete_indir h cenv root_dir2 dir_prefix base_prefix sep w with
          | None => None
          | Some (_, (_, dp), w1) =>
              roots_loop f h cenv prefix base base_prefix sep root' dp w1
          end
      end
  end.

(** Lines 297-353.  [cenv->arg] is cast to a [filename_closure_t*] and read
    once both buffers are allocated: the call has no result when it is not
    one. *)
Definition filename_completer (h : host) (cenv : rp_completion_env_t)
    (prefix : option (list ascii)) (w : world)
    : option (rp_completion_env_t * world) :=
  match prefix with
  | None => Some (cenv, w)
  | Some p =>
      let '(root_ok, w1) := alloc h w in
      let '(prefix_ok, w2) := alloc h w1 in
      if root_ok && prefix_ok then
        match arg cenv with
        | filename_closure_ptr fclosure =>
            let base :=
              match rindex_of "/"%char p with
              | Some i => Some (i + 1)
              | None => None
              end in
            let dir_prefix :=
              match base with
              | Some b => sbuf_append_n [] p b
              | None => []
              end in
            let base_prefix :=
              match base with
              | Some b => skipn (Z.to_nat b) p
              | None => p
              end in
            if os_path_is_absolute prefix then
              let root_dir :=
                match base with
                | Some b => sbuf_append_n [] p b
                | None => []
                end in
              match filename_complete_indir h cenv root_dir dir_prefix base_prefix
                      (dir_sep fclosure) w2 with
              | None => None
              | Some (_, _, w3) => Some (cenv, w3)
              end
            else
              match roots_loop (S (S (length (roots fclosure)))) h cenv p base base_prefix
                      (dir_sep fclosure) (Some (roots fclosure)) dir_prefix w2 with
              | None => None
              | Some w3 => Some (cenv, w3)
              end
        | _ => None
        end
      else Some (cenv, w2)
  end.

Definition filename_non_word_chars : list ascii :=
  default_non_word_chars ++ chars "`@$><=;|&{(".

(** Lines 355-362. *)
Definition rp_complete_filename (h : host) (cenv : rp_completion_env_t)
    (prefix : list ascii) (sep : ascii) (roots_arg : option (list ascii))
    (w : world) : option (rp_completion_env_t * world) :=
  let roots1 := match roots_arg with Some r => r | None => chars "." end in
  let fclosure := mk_filename_closure roots1 sep in
  let cenv1 := set_arg cenv (filename_closure_ptr fclosure) in
  rp_complete_quoted_word h cenv1 prefix
    (fun c word => filename_completer h c (Some word))
    (Some filename_non_word_chars) "\"%char (Some default_quote_chars) w.

(** ** Hosts for the scenarios *)

Module Scenario.

(** A path as the host resolves it: repeated separators count once and a
    trailing one is dropped. *)
Fixpoint squeeze (p : list ascii) : list ascii :=
  match p with
  | [] => []
  | c :: t =>
      if Ascii.eqb c "/"%char then
        match t with
        | [] => []
        | d :: _ => if Ascii.eqb d "/"%char then squeeze t else c :: squeeze t
        end
      else c :: squeeze t
  end.

Definition resolve (p : list ascii) : list ascii :=
  match squeeze p with
  | [] => chars "/"
  | q => q
  end.

(** A file system as a table: a directory with its entries in the order
    [readdir] yields them, or a plain file. *)
Definition fs_table : Type := list (string * option (list string)).

Fixpoint lookup (t : fs_table) (p : list ascii) : option (option (list string)) :=
  match t with
  | [] => None
  | (q, n) :: t' => if list_eqb (chars q) p then Some n else lookup t' p
  end.

Definition table_entries (t : fs_table) (p : list ascii) : option (list (list ascii)) :=
  match lookup t (resolve p) with
  | Some (Some es) => Some (map chars es)
  | _ => None
  end.

Definition table_is_dir (t : fs_table) (p : list ascii) : bool :=
  match lookup t (resolve p) with
  | Some (Some _) => true
  | _ => false
  end.

(** The mode [stat] reports: octal 0040755 for a directory, 0100644 for a
    plain file. *)
Definition table_mode (t : fs_table) (p : list ascii) : option Z :=
  match lookup t (resolve p) with
  | Some (Some _) => Some 16877
  | Some None => Some 33188
  | None => None
  end.

(** A host over a table whose allocator never fails and whose sinks answer
    [accepts]. *)
Definition table_host (t : fs_table) (accepts : list event -> completion -> bool) : host :=
  mk_host (table_entries t) (table_mode t) (fun _ => true) (fun _ => accepts).

Definition accept_all : list event -> completion -> bool := fun _ _ => true.
Definition reject_all : list event -> completion -> bool := fun _ _ => false.

(** The directory of section 8: [src] and [test] are directories,
    [README.md] is a file. *)
Definition project_fs : fs_table :=
  [ ("."%string, Some ["."; ".."; "src"; "test"; "README.md"]%string);
    ("./src"%string, Some ["."; ".."; "completers.c"]%string);
    ("./test"%string, Some ["."; ".."; "example.c"]%string);
    ("./README.md"%string, None) ].

(** Two roots that both hold an entry starting with [li]. *)
Definition two_roots_fs : fs_table :=
  [ ("."%string, Some ["."; ".."; "lib"; "license"]%string);
    ("./lib"%string, Some ["."; ".."]%string);
    ("./license"%string, None);
    ("/usr/local"%string, Some ["."; ".."; "lib"; "bin"]%string);
    ("/usr/local/lib"%string, Some ["."; ".."]%string);
    ("/usr/local/bin"%string, Some ["."; ".."]%string) ].

(** A directory with a space in its name, and a directory [docs] under the
    current one. *)
Definition docs_fs : fs_table :=
  [ ("."%string, Some ["."; ".."; "docs"]%string);
    ("./docs"%string, Some ["."; ".."; "readme"]%string);
    ("./docs/readme"%string, None);
    ("/my docs"%string, Some ["."; ".."; "report"]%string);
    ("/my docs/report"%string, None) ].

(** A system directory, besides the roots. *)
Definition etc_fs : fs_table :=
  [ ("."%string, Some ["."; ".."; "passwords"]%string);
    ("/usr"%string, Some ["."; ".."; "pass"]%string);
    ("/etc"%string, Some ["."; ".."; "passwd"; "hosts"]%string);
    ("/etc/passwd"%string, None);
    ("/etc/hosts"%string, None) ].

(** The environment a top-level completer is handed: the sink of the store,
    here number 0. *)
Definition top_cenv : rp_completion_env_t := mk_cenv 1 NULL NULL (prim_complete 0).

Definition start : world := mk_world [] 0.

End Scenario.

(** * Specifications *)

(** The number of continuation bytes a list starts with. *)
Fixpoint cont_run (l : list ascii) : nat :=
  match l with
  | [] => O
  | c :: t => if is_cont c then S (cont_run t) else O
  end.

(** ** Un-escaped quotes, read off the bytes in one pass *)

(** Where a reader of the bytes stands: before the first byte, inside a code
    point (its continuation bytes are passed over), or just after an escape
    character (the next byte is passed over whatever it is). *)
Inductive scan_mode : Type := at_start | in_code_point | after_escape.

Definition classify (esc : ascii) (qs : list ascii) (c : ascii) : scan_mode * bool :=
  if Ascii.eqb c esc then (after_escape, false)
  else (in_code_point, mem c qs).

(** The offsets of the quote characters that are not escaped, in order;
    [i] is the offset of the head of [s]. *)
Fixpoint unescaped_quotes_from (esc : ascii) (qs : list ascii)
    (m : scan_mode) (i : Z) (s : list ascii) : list Z :=
  match s with
  | [] => []
  | c :: t =>
      let skip := unescaped_quotes_from esc qs in_code_point (i + 1) t in
      let read :=
        let '(m', is_quote) := classify esc qs c in
        let rest := unescaped_quotes_from esc qs m' (i + 1) t in
        if is_quote then i :: rest else rest in
      match m with
      | after_escape => skip
      | in_code_point => if is_cont c then skip else read
      | at_start => read
      end
  end.

Definition unescaped_quotes (esc : ascii) (qs prefix : list ascii) : list Z :=
  unescaped_quotes_from esc qs at_start 0 prefix.

(** Line 83-89 on one quote: the state [(qpos, qcount)] after seeing a
    quote at [p]. *)
Definition note_quote (st : Z * Z) (p : Z) : Z * Z :=
  ((if Z.rem (snd st) 2 =? 1 then -1 else p), snd st + 1).

(** ** Code point boundaries and separators *)

(** An offset that does not fall inside a code point. *)
Definition boundary (s : list ascii) (q : Z) : Prop :=
  0 <= q <= Z.of_nat (length s)
  /\ (0 < q < Z.of_nat (length s) -> is_cont (char_at s q) = false).

(** A separator at [j] that no escape character precedes. *)
Definition separator_at (s nwc : list ascii) (esc : ascii) (j : Z) : bool :=
  mem (char_at s j) nwc
  && ((j <=? 0) || negb (Ascii.eqb (char_at s (j - 1)) esc)).

(** ** Reading the log *)

(** The directories opened, in order. *)
Fixpoint opened (l : list event) : list (list ascii) :=
  match l with
  | [] => []
  | ev_open p :: t => p :: opened t
  | _ :: t => opened t
  end.

(** The candidates that reached a sink of the caller, each with the sink's
    answer, in order. *)
Fixpoint proposed (l : list event) : list (list ascii * bool) :=
  match l with
  | [] => []
  | ev_add _ c ok :: t => (c_replacement c, ok) :: proposed t
  | _ :: t => proposed t
  end.

(** The words handed to a user completion routine, in order. *)
Fixpoint callbacks (l : list event) : list (list ascii) :=
  match l with
  | [] => []
  | ev_callback word :: t => word :: callbacks t
  | _ :: t => callbacks t
  end.

(** ** Words and candidates *)

(** The word has an escape character directly followed by a separator. *)
Fixpoint ambiguous (nwc : list ascii) (esc : ascii) (w : list ascii) : bool :=
  match w with
  | [] => false
  | c :: t =>
      match t with
      | [] => false
      | d :: _ => (Ascii.eqb c esc && mem d nwc) || ambiguous nwc esc t
      end
  end.

(** A completer that proposes one candidate through the active sink. *)
Definition propose_one (h : host) (display : option (list ascii))
    (replacement : list ascii) (delete_before delete_after : Z)
    : rp_completer_fun_t :=
  fun cenv _ w =>
    match rp_add_completion_ex h cenv display replacement delete_before delete_after w with
    | Some (_, w') => Some (cenv, w')
    | None => None
    end.

(** A completer that proposes nothing. *)
Definition propose_nothing : rp_completer_fun_t := fun cenv _ w => Some (cenv, w).

(** The active sink is one of the caller's, or the rewrite layer over one. *)
Definition sink_ok (cenv : rp_completion_env_t) : Prop :=
  match complete cenv with
  | prim_complete _ => True
  | word_add_completion_ex_fn =>
      match closure cenv with
      | word_closure_ptr wenv =>
          match prev_complete wenv with
          | prim_complete _ => True
          | word_add_completion_ex_fn => False
          end
      | _ => False
      end
  end.

(** ** Paths *)

(** The part of a path up to and with its last separator. *)
Definition dir_portion (p : list ascii) : list ascii :=
  match rindex_of "/"%char p with
  | Some i => firstn (Z.to_nat (i + 1)) p
  | None => []
  end.

(** No character of the prefix is a separator, a quote, the escape character
    or NUL, for the sets [rp_complete_filename] passes on. *)
Definition plain (prefix : list ascii) : bool :=
  forallb (fun c => negb (mem c filename_non_word_chars)
                    && negb (mem c default_quote_chars)
                    && negb (Ascii.eqb c "\"%char)
                    && negb (Ascii.eqb c NUL)) prefix.

(** The candidate line 271-283 builds for an entry. *)
Definition candidate_for (h : host) (dir dir_prefix : list ascii) (sep : ascii)
    (name : list ascii) : list ascii :=
  dir_prefix ++ name
  ++ (if negb (Ascii.eqb sep NUL) && os_is_dir h (dir ++ [sep] ++ name)
      then [sep] else []).

(** The candidates of a directory listing, in the order of the listing. *)
Definition candidates (h : host) (dir dir_prefix base_prefix : list ascii)
    (sep : ascii) (entries : list (list ascii)) : list (list ascii) :=
  map (candidate_for h dir dir_prefix sep)
      (filter (fun name => entry_matches name base_prefix) entries).

(** Propose the candidates in order until the sink declines one. *)
Fixpoint propose_until_stop (h : host) (cenv : rp_completion_env_t)
    (cands : list (list ascii)) (w : world) : option (bool * world) :=
  match cands with
  | [] => Some (true, w)
  | c :: rest =>
      match rp_add_completion h cenv None c w with
      | None => None
      | Some (true, w1) => propose_until_stop h cenv rest w1
      | Some (false, w1) => Some (false, w1)
      end
  end.

(** What each candidate that reached a sink of the caller carried: display,
    replacement, delete-before and delete-after. *)
Fixpoint forwarded (l : list event) : list (option (list ascii) * list ascii * Z * Z) :=
  match l with
  | [] => []
  | ev_add _ c _ :: t =>
      (c_display c, c_replacement c, c_delete_before c, c_delete_after c) :: forwarded t
  | _ :: t => forwarded t
  end.

(** The log a run leaves, when it returns. *)
Definition log_of (r : option (rp_completion_env_t * world)) : option (list event) :=
  match r with
  | Some (_, w) => Some (log w)
  | None => None
  end.

(** A completer that completes the word once more through [rp_complete_word]
    (with a routine that proposes nothing) and then proposes [replacement]. *)
Definition complete_again_then_propose (h : host) (replacement : list ascii)
    : rp_completer_fun_t :=
  fun cenv word w =>
    match rp_complete_word h cenv word propose_nothing w with
    | Some (cenv1, w1) => propose_one h None replacement 0 0 cenv1 word w1
    | None => None
    end.

(** An event without the environment it came through. *)
Inductive action : Type :=
| proposes (replacement : list ascii) (accepted : bool)
| calls (word : list ascii)
| opens (path : list ascii)
| closes (path : list ascii).

Definition action_of (e : event) : action :=
  match e with
  | ev_add _ c ok => proposes (c_replacement c) ok
  | ev_callback word => calls word
  | ev_open p => opens p
  | ev_close p => closes p
  end.

(** What a run did, when it returns. *)
Definition actions_of (r : option (rp_completion_env_t * world)) : option (list action) :=
  option_map (map action_of) (log_of r).

(** The run opened no directory but the one the path names. *)
Definition enumerates_only_directory_of (path : list ascii)
    (r : option (rp_completion_env_t * world)) : Prop :=
  forall l, log_of r = Some l -> forall p, In p (opened l) -> p = dir_portion path.

(** A host that has no memory left. *)
Definition out_of_memory (h : host) : host :=
  mk_host (fs_entries h) (stat_mode h) (fun _ => false) (sink_accepts h).

(** ** Escaping, read off the bytes *)

(** [e] is [w] with the escape character put before some of its separators. *)
Inductive escaped_of (nwc : list ascii) (esc : ascii) : list ascii -> list ascii -> Prop :=
| escaped_nil : escaped_of nwc esc [] []
| escaped_keep (c : ascii) (t t' : list ascii) :
    escaped_of nwc esc t t' -> escaped_of nwc esc (c :: t) (c :: t')
| escaped_insert (c : ascii) (t t' : list ascii) :
    mem c nwc = true ->
    escaped_of nwc esc t t' -> escaped_of nwc esc (c :: t) (esc :: c :: t').

(** What lines 130-137 make of a word, byte by byte: an escape character
    goes when a separator follows it, and also when nothing follows it. *)
Fixpoint unescaped (nwc : list ascii) (esc : ascii) (e : list ascii) : list ascii :=
  match e with
  | [] => []
  | c :: t =>
      match t with
      | [] => if Ascii.eqb c esc then [] else [c]
      | d :: t' =>
          if Ascii.eqb c esc && mem d nwc then d :: unescaped nwc esc t'
          else c :: unescaped nwc esc t
      end
  end.

(** The bytes after the word in its buffer: all NUL. *)
Definition all_nul (pad : list ascii) : Prop := Forall (fun c => c = NUL) pad.

(** ** What the escape loop does, read off the bytes *)

(** The replacement with the escape character put before a separator when
    the offset [p] it has reached in the growing buffer is below [len]: an
    escaped separator takes two bytes of the buffer, any other byte one. *)
Fixpoint escape_within (nwc : list ascii) (esc : ascii) (len p : Z)
    (r : list ascii) : list ascii :=
  match r with
  | [] => []
  | c :: t =>
      if mem c nwc && (p <? len)
      then esc :: c :: escape_within nwc esc len (p + 2) t
      else c :: escape_within nwc esc len (p + 1) t
  end.

(** The replacement with the escape character before every separator. *)
Fixpoint escape_every (nwc : list ascii) (esc : ascii) (r : list ascii) : list ascii :=
  match r with
  | [] => []
  | c :: t =>
      if mem c nwc then esc :: c :: escape_every nwc esc t
      else c :: escape_every nwc esc t
  end.

(** The number of separators in a string. *)
Definition separators (nwc r : list ascii) : nat :=
  length (filter (fun c => mem c nwc) r).

(** The number of bytes from the last separator of a string to its end, the
    separator counted; 0 when there is none. *)
Fixpoint from_last_separator (nwc r : list ascii) : nat :=
  match r with
  | [] => O
  | c :: t =>
      match from_last_separator nwc t with
      | O => if mem c nwc then S (length t) else O
      | S n => S n
      end
  end.

(** ** The directories searched for a word *)

(** The items of a list written with [c] between them: one more item than
    there are [c], and an item may be empty. *)
Fixpoint split_on (c : ascii) (s : list ascii) : list (list ascii) :=
  match s with
  | [] => [[]]
  | d :: t =>
      if Ascii.eqb d c then [] :: split_on c t
      else match split_on c t with
           | item :: items => (d :: item) :: items
           | [] => [[d]]
           end
  end.

(** The word after its last ['/'], the whole word when it has none. *)
Definition base_name (word : list ascii) : list ascii :=
  match rindex_of "/"%char word with
  | Some i => skipn (Z.to_nat (i + 1)) word
  | None => word
  end.

(** The directory searched below a root for a relative word: the root, a
    ['/'], and the directory portion of the word without its last ['/']. *)
Definition directory_below (word root : list ascii) : list ascii :=
  match rindex_of "/"%char word with
  | Some i => (root ++ ["/"%char]) ++ firstn (Z.to_nat i) word
  | None => root ++ ["/"%char]
  end.

(** The directories searched for a word, in order. *)
Definition directories_for (word roots : list ascii) : list (list ascii) :=
  if os_path_is_absolute (Some word) then [dir_portion word]
  else map (directory_below word) (split_on ";"%char roots).

(** Completion in each directory of a list in turn, whatever the sink
    answered in the directory before. *)
Fixpoint complete_in_each (h : host) (cenv : rp_completion_env_t)
    (dirs : list (list ascii)) (dir_prefix base_prefix : list ascii) (sep : ascii)
    (w : world) : option world :=
  match dirs with
  | [] => Some w
  | d :: ds =>
      match filename_complete_indir h cenv d dir_prefix base_prefix sep w with
      | None => None
      | Some (_, _, w1) => complete_in_each h cenv ds dir_prefix base_prefix sep w1
      end
  end.

(** The directories of a list that can be opened. *)
Definition openable (h : host) (dirs : list (list ascii)) : list (list ascii) :=
  filter (fun d => match fs_entries h d with Some _ => true | None => false end) dirs.

(** The directories of a list that can be opened and hold an entry to
    read. *)
Definition listable (h : host) (dirs : list (list ascii)) : list (list ascii) :=
  filter (fun d => match fs_entries h d with Some (_ :: _) => true | _ => false end) dirs.

(** The directories closed, in order. *)
Fixpoint closed (l : list event) : list (list ascii) :=
  match l with
  | [] => []
  | ev_close p :: t => p :: closed t
  | _ :: t => closed t
  end.

(** The word cut out of a prefix at [pos]: as it stands after an open quote
    [q], and without the escape characters that lines 130-137 remove when
    there is none ([q] is NUL). *)
Definition word_of (prefix nwc : list ascii) (esc : ascii) (pos : Z) (q : ascii)
    : list ascii :=
  if Ascii.eqb q NUL then unescaped nwc esc (skipn (Z.to_nat pos) prefix)
  else skipn (Z.to_nat pos) prefix.

(** The closure [rp_complete_filename] leaves in [cenv->arg]. *)
Definition filename_closure_of (roots_arg : option (list ascii)) (sep : ascii) : ptr :=
  filename_closure_ptr
    (mk_filename_closure (match roots_arg with Some r => r | None => chars "." end) sep).

(** The candidates of the directories searched for a word, directory by
    directory in the order searched, each directory's in the order of its
    listing. *)
Definition all_candidates (h : host) (word roots : list ascii) (sep : ascii)
    : list (list ascii) :=
  flat_map
    (fun d =>
       match fs_entries h d with
       | Some entries => candidates h d (dir_portion word) (base_name word) sep entries
       | None => []
       end)
    (directories_for word roots).

(** What the rewrite layer makes of a candidate: the closing quote after it
    inside quotes, separators escaped outside. *)
Definition rewritten (nwc : list ascii) (esc q : ascii) (c : list ascii) : list ascii :=
  if Ascii.eqb q NUL then escape_within nwc esc (Z.of_nat (length c)) 0 c
  else c ++ [q].

(** The last code point of a string is a separator that no escape character
    precedes. *)
Definition ends_with_separator (s nwc : list ascii) (esc : ascii) : Prop :=
  exists j,
    0 <= j < Z.of_nat (length s)
    /\ boundary s j
    /\ separator_at s nwc esc j = true
    /\ forall k, j < k < Z.of_nat (length s) -> is_cont (char_at s k) = true.

(** No entry name of a table holds a NUL. *)
Definition names_checked (t : Scenario.fs_table) : bool :=
  forallb
    (fun row =>
       match snd row with
       | Some es =>
           forallb (fun e => forallb (fun c => negb (Ascii.eqb c NUL)) (chars e)) es
       | None => true
       end) t.

(** The word closure of an unquoted word at the top level, with the default
    separators. *)
Definition unquoted_closure : word_closure_t :=
  mk_word_closure default_non_word_chars "\"%char NUL 0 (prim_complete 0) 1.

(** The first candidate of each directory searched for a word that has
    one, in the order the directories are searched. *)
Definition first_candidates (h : host) (word roots : list ascii) (sep : ascii)
    : list (list ascii) :=
  flat_map
    (fun d =>
       match fs_entries h d with
       | Some entries =>
           firstn 1 (candidates h d (dir_portion word) (base_name word) sep entries)
       | None => []
       end)
    (directories_for word roots).

(** A current directory that holds a socket [sock] (mode octal 0140755) and
    a directory [src]; paths are resolved as in the scenarios. *)
Definition socket_host : host :=
  mk_host
    (fun p =>
       if list_eqb (Scenario.resolve p) (chars ".")
       then Some (map chars ["."; ".."; "sock"; "src"]%string)
       else None)
    (fun p =>
       if list_eqb (Scenario.resolve p) (chars "./sock") then Some 49645
       else if list_eqb (Scenario.resolve p) (chars "./src") then Some 16877
       else if list_eqb (Scenario.resolve p) (chars ".") then Some 16877
       else None)
    (fun _ => true)
    (fun _ => Scenario.accept_all).

(** * Properties *)

(** Bring nested appends into the form [a ++ b ++ c]. *)
Ltac flatten_app := repeat first [rewrite <- app_assoc | progress (cbn [app])].

(** ** Reading characters *)

Lemma char_at_cons_0 (c : ascii) (t : list ascii) : char_at (c :: t) 0 = c.
Proof. reflexivity. Qed.

Lemma char_at_cons_succ (c : ascii) (t : list ascii) (i : Z) :
  0 <= i -> char_at (c :: t) (i + 1) = char_at t i.
Proof.
  intros Hi. unfold char_at.
  destruct (Z.ltb_spec (i + 1) 0); [lia|].
  destruct (Z.ltb_spec i 0); [lia|].
  replace (Z.to_nat (i + 1)) with (S (Z.to_nat i)) by lia. reflexivity.
Qed.

Lemma char_at_app_r (pre rest : list ascii) (i : Z) :
  0 <= i -> char_at (pre ++ rest) (Z.of_nat (length pre) + i) = char_at rest i.
Proof.
  intros Hi. unfold char_at.
  destruct (Z.ltb_spec (Z.of_nat (length pre) + i) 0); [lia|].
  destruct (Z.ltb_spec i 0); [lia|].
  rewrite app_nth2 by lia. f_equal. lia.
Qed.

Lemma char_at_app_l (pre rest : list ascii) (i : Z) :
  0 <= i < Z.of_nat (length pre) -> char_at (pre ++ rest) i = char_at pre i.
Proof.
  intros Hi. unfold char_at.
  destruct (Z.ltb_spec i 0); [lia|].
  apply app_nth1. lia.
Qed.

Lemma char_at_split (pre : list ascii) (c : ascii) (rest : list ascii) :
  char_at (pre ++ c :: rest) (Z.of_nat (length pre)) = c.
Proof.
  replace (Z.of_nat (length pre)) with (Z.of_nat (length pre) + 0) by lia.
  rewrite char_at_app_r by lia. reflexivity.
Qed.

Lemma char_at_In (s : list ascii) (i : Z) :
  0 <= i < Z.of_nat (length s) -> In (char_at s i) s.
Proof.
  intros Hi. unfold char_at.
  destruct (Z.ltb_spec i 0); [lia|].
  apply nth_In. lia.
Qed.

Lemma char_at_no_nul (s : list ascii) (i : Z) :
  no_nul s -> 0 <= i < Z.of_nat (length s) -> char_at s i <> NUL.
Proof.
  intros Hs Hi. unfold no_nul in Hs. rewrite Forall_forall in Hs.
  apply Hs, char_at_In, Hi.
Qed.

Lemma strchr_no_nul (set : list ascii) (c : ascii) :
  c <> NUL -> strchr set c = mem c set.
Proof.
  intros Hc. unfold strchr.
  destruct (Ascii.eqb_spec c NUL); [contradiction | reflexivity].
Qed.

(** ** The cursor steps by whole code points *)

Lemma cont_run_le (l : list ascii) : (cont_run l <= length l)%nat.
Proof. induction l as [|c t IH]; simpl; [lia|]. destruct (is_cont c); lia. Qed.

Lemma next_ofs_loop_run (mid : list ascii) :
  forall (fuel : nat) (pre post : list ascii) (len pos ofs : Z),
    (length mid <= fuel)%nat ->
    pos + ofs = Z.of_nat (length pre) ->
    len = Z.of_nat (length pre) + Z.of_nat (length mid) ->
    next_ofs_loop fuel (pre ++ mid ++ post) len pos ofs
    = ofs + Z.of_nat (cont_run mid).
Proof.
  induction mid as [|c mid IH]; intros fuel pre post len pos ofs Hfuel Hpos Hlen.
  - destruct fuel as [|f]; simpl; [lia|].
    destruct (Z.ltb_spec (pos + ofs) len); [simpl in Hlen; lia|].
    simpl. lia.
  - destruct fuel as [|f]; [simpl in Hfuel; lia|].
    cbn [next_ofs_loop cont_run].
    rewrite Hpos.
    change ((c :: mid) ++ post) with (c :: (mid ++ post)).
    rewrite char_at_split.
    destruct (Z.ltb_spec (Z.of_nat (length pre)) len);
      [| simpl in Hlen; lia].
    destruct (is_cont c); simpl andb; cbv iota; [|lia].
    specialize (IH f (pre ++ [c]) post len pos (ofs + 1)).
    rewrite <- app_assoc in IH. simpl app in IH.
    rewrite IH.
    + lia.
    + simpl in Hfuel; lia.
    + rewrite length_app. simpl. lia.
    + rewrite length_app. simpl in *. lia.
Qed.

Lemma str_next_ofs_split (pre : list ascii) (c : ascii) (mid post : list ascii) (len : Z) :
  len = Z.of_nat (length pre) + 1 + Z.of_nat (length mid) ->
  str_next_ofs (pre ++ c :: mid ++ post) len (Z.of_nat (length pre))
  = 1 + Z.of_nat (cont_run mid).
Proof.
  intros Hlen. unfold str_next_ofs.
  destruct (Z.ltb_spec (Z.of_nat (length pre)) len); [|lia].
  pose proof (next_ofs_loop_run mid (Z.to_nat (len - Z.of_nat (length pre)))
    (pre ++ [c]) post len (Z.of_nat (length pre)) 1) as E.
  rewrite <- app_assoc in E. simpl app in E.
  apply E.
  - lia.
  - rewrite length_app. simpl. lia.
  - rewrite length_app. simpl. lia.
Qed.

Lemma str_next_ofs_end (s : list ascii) (len pos : Z) :
  len <= pos -> str_next_ofs s len pos = 0.
Proof.
  intros H. unfold str_next_ofs. destruct (Z.ltb_spec pos len); [lia | reflexivity].
Qed.

Lemma prev_ofs_loop_spec (s : list ascii) (pos : Z) :
  forall (fuel : nat) (ofs : Z),
    1 <= ofs <= pos ->
    (Z.to_nat (pos - ofs) <= fuel)%nat ->
    (forall k, 1 <= k < ofs -> is_cont (char_at s (pos - k)) = true) ->
    ofs <= prev_ofs_loop fuel s pos ofs <= pos
    /\ (prev_ofs_loop fuel s pos ofs = pos
        \/ is_cont (char_at s (pos - prev_ofs_loop fuel s pos ofs)) = false)
    /\ (forall k, 1 <= k < prev_ofs_loop fuel s pos ofs ->
                  is_cont (char_at s (pos - k)) = true).
Proof.
  induction fuel as [|f IH]; intros ofs Hofs Hfuel Hrun; cbn [prev_ofs_loop].
  - split; [lia | split; [left; lia | exact Hrun]].
  - destruct (Z.ltb_spec ofs pos) as [Hlt|Hge]; simpl andb.
    + destruct (is_cont (char_at s (pos - ofs))) eqn:Hc.
      * destruct (IH (ofs + 1)) as (Hr & Hstop & Hall); try lia.
        { intros k Hk. destruct (Z.eq_dec k ofs) as [->|]; [exact Hc|].
          apply Hrun. lia. }
        split; [lia | split; assumption].
      * split; [lia | split; [right; exact Hc | exact Hrun]].
    + split; [lia | split; [left; lia | exact Hrun]].
Qed.

Lemma str_prev_ofs_spec (s : list ascii) (pos : Z) :
  0 < pos ->
  1 <= str_prev_ofs s pos <= pos
  /\ (str_prev_ofs s pos = pos
      \/ is_cont (char_at s (pos - str_prev_ofs s pos)) = false)
  /\ (forall k, 1 <= k < str_prev_ofs s pos ->
                is_cont (char_at s (pos - k)) = true).
Proof.
  intros Hpos. unfold str_prev_ofs.
  destruct (Z.ltb_spec 0 pos); [|lia].
  apply prev_ofs_loop_spec; try lia.
Qed.

(** ** The forward pass counts the un-escaped quotes *)

Lemma unescaped_quotes_skip_conts (esc : ascii) (qs t : list ascii) :
  forall i : Z,
    unescaped_quotes_from esc qs in_code_point i t
    = unescaped_quotes_from esc qs at_start
        (i + Z.of_nat (cont_run t)) (skipn (cont_run t) t).
Proof.
  induction t as [|c t IH]; intros i.
  - reflexivity.
  - cbn [cont_run]. destruct (is_cont c) eqn:Hc.
    + cbn [skipn unescaped_quotes_from]. rewrite Hc, IH. f_equal. lia.
    + cbn [skipn]. replace (i + Z.of_nat 0) with i by lia.
      cbn [unescaped_quotes_from]. rewrite Hc. reflexivity.
Qed.

Lemma quote_scan_run (esc : ascii) (qs : list ascii) :
  forall (n : nat) (rest pre s : list ascii) (len : Z) (fuel : nat) (qpos qcount : Z),
    (length rest <= n)%nat -> (n < fuel)%nat ->
    s = pre ++ rest -> len = Z.of_nat (length s) -> no_nul s ->
    exists pos',
      quote_scan fuel s len esc qs (Z.of_nat (length pre)) qpos qcount
      = Some (pos',
              fst (fold_left note_quote
                     (unescaped_quotes_from esc qs at_start (Z.of_nat (length pre)) rest)
                     (qpos, qcount)),
              snd (fold_left note_quote
                     (unescaped_quotes_from esc qs at_start (Z.of_nat (length pre)) rest)
                     (qpos, qcount))).
Proof.
  induction n as [|n IH]; intros rest pre s len fuel qpos qcount Hn Hfuel Hs Hlen Hnul;
    (destruct fuel as [|f]; [lia|]); destruct rest as [|c t]; try (simpl in Hn; lia).
  - subst. rewrite app_nil_r. cbn [quote_scan].
    destruct (Z.ltb_spec (Z.of_nat (length pre)) (Z.of_nat (length pre))); [lia|].
    eexists; reflexivity.
  - subst. rewrite app_nil_r. cbn [quote_scan].
    destruct (Z.ltb_spec (Z.of_nat (length pre)) (Z.of_nat (length pre))); [lia|].
    eexists; reflexivity.
  - assert (Hc : c <> NUL).
    { subst s. unfold no_nul in Hnul. rewrite Forall_forall in Hnul.
      apply Hnul, in_or_app. right. left. reflexivity. }
    assert (Hl : len = Z.of_nat (length pre) + 1 + Z.of_nat (length t)).
    { subst. rewrite length_app. simpl. lia. }
    cbn [quote_scan].
    destruct (Z.ltb_spec (Z.of_nat (length pre)) len); [|lia].
    replace (char_at s (Z.of_nat (length pre))) with c
      by (subst s; symmetry; apply char_at_split).
    cbn [unescaped_quotes_from]. unfold classify.
    destruct (Ascii.eqb c esc) eqn:Hesc.
    + (* an escape character: the next code point is passed over *)
      destruct t as [|d t'].
      * rewrite str_next_ofs_end by (simpl in Hl; lia).
        simpl. eexists; reflexivity.
      * assert (Hs' : s = (pre ++ [c]) ++ d :: t' ++ []).
        { subst s. rewrite <- app_assoc, app_nil_r. reflexivity. }
        assert (Hofs : str_next_ofs s len (Z.of_nat (length pre) + 1)
                       = 1 + Z.of_nat (cont_run t')).
        { rewrite Hs'.
          replace (Z.of_nat (length pre) + 1) with (Z.of_nat (length (pre ++ [c])))
            by (rewrite length_app; simpl; lia).
          apply str_next_ofs_split. rewrite length_app. simpl in *. lia. }
        rewrite Hofs.
        destruct (Z.leb_spec (1 + Z.of_nat (cont_run t')) 0); [lia|].
        cbn [unescaped_quotes_from].
        rewrite unescaped_quotes_skip_conts.
        pose proof (cont_run_le t') as Hr.
        destruct (IH (skipn (cont_run t') t')
                    (pre ++ c :: d :: firstn (cont_run t') t') s len f qpos qcount)
          as [pos' E].
        { rewrite length_skipn. simpl in Hn. lia. }
        { lia. }
        { subst s. rewrite <- app_assoc. simpl. rewrite firstn_skipn. reflexivity. }
        { exact Hlen. }
        { exact Hnul. }
        rewrite length_app in E. simpl length in E.
        rewrite length_firstn in E.
        replace (Z.of_nat (length pre + S (S (Nat.min (cont_run t') (length t')))))
          with (Z.of_nat (length pre) + 1 + (1 + Z.of_nat (cont_run t'))) in E by lia.
        replace (Z.of_nat (length pre) + 1 + 1 + Z.of_nat (cont_run t'))
          with (Z.of_nat (length pre) + 1 + (1 + Z.of_nat (cont_run t'))) by lia.
        exists pos'. exact E.
    + (* any other character, a quote or not *)
      rewrite (strchr_no_nul qs c Hc).
      assert (Hs' : s = pre ++ c :: t ++ []).
      { subst s. rewrite app_nil_r. reflexivity. }
      assert (Hofs : str_next_ofs s len (Z.of_nat (length pre))
                     = 1 + Z.of_nat (cont_run t)).
      { rewrite Hs'. apply str_next_ofs_split. exact Hl. }
      pose proof (cont_run_le t) as Hr.
      assert (Hrec : forall qpos1 qcount1, exists pos',
                 quote_scan f s len esc qs
                   (Z.of_nat (length pre) + (1 + Z.of_nat (cont_run t))) qpos1 qcount1
                 = Some (pos',
                     fst (fold_left note_quote
                            (unescaped_quotes_from esc qs in_code_point
                               (Z.of_nat (length pre) + 1) t) (qpos1, qcount1)),
                     snd (fold_left note_quote
                            (unescaped_quotes_from esc qs in_code_point
                               (Z.of_nat (length pre) + 1) t) (qpos1, qcount1)))).
      { intros qpos1 qcount1.
        rewrite unescaped_quotes_skip_conts.
        destruct (IH (skipn (cont_run t) t) (pre ++ c :: firstn (cont_run t) t)
                    s len f qpos1 qcount1) as [pos' E].
        { rewrite length_skipn. simpl in Hn. lia. }
        { lia. }
        { subst s. rewrite <- app_assoc. simpl. rewrite firstn_skipn. reflexivity. }
        { exact Hlen. }
        { exact Hnul. }
        rewrite length_app in E. simpl length in E. rewrite length_firstn in E.
        replace (Z.of_nat (length pre + S (Nat.min (cont_run t) (length t))))
          with (Z.of_nat (length pre) + (1 + Z.of_nat (cont_run t))) in E by lia.
        replace (Z.of_nat (length pre) + 1 + Z.of_nat (cont_run t))
          with (Z.of_nat (length pre) + (1 + Z.of_nat (cont_run t))) by lia.
        exists pos'. exact E. }
      destruct (mem c qs); rewrite Hofs;
        (destruct (Z.leb_spec (1 + Z.of_nat (cont_run t)) 0); [lia|]).
      * cbn [fold_left]. unfold note_quote at 2 4. cbn [fst snd]. apply Hrec.
      * apply Hrec.
Qed.

Lemma rem2_odd (x : Z) : 0 <= x -> (Z.rem x 2 =? 1) = Z.odd x.
Proof.
  intros Hx. rewrite Z.rem_mod_nonneg by lia. rewrite Zmod_odd.
  destruct (Z.odd x); reflexivity.
Qed.

Lemma odd_succ_negb (x : Z) : Z.odd (x + 1) = negb (Z.odd x).
Proof.
  replace (x + 1) with (Z.succ x) by lia.
  rewrite Z.odd_succ, <- Z.negb_odd. reflexivity.
Qed.

Lemma note_quotes_fold (Q : list Z) :
  forall qpos qcount : Z,
    0 <= qcount ->
    fold_left note_quote Q (qpos, qcount)
    = (match Q with
       | [] => qpos
       | _ :: _ => if Z.odd (qcount + Z.of_nat (length Q)) then last Q 0 else -1
       end,
       qcount + Z.of_nat (length Q)).
Proof.
  induction Q as [|p Q IH] using rev_ind; intros qpos qcount Hq.
  - simpl. f_equal. lia.
  - rewrite fold_left_app, IH by lia. cbn [fold_left].
    unfold note_quote. cbn [fst snd].
    rewrite rem2_odd by lia.
    rewrite length_app, last_last. simpl length.
    replace (qcount + Z.of_nat (length Q + 1))
      with (qcount + Z.of_nat (length Q) + 1) by lia.
    rewrite odd_succ_negb.
    destruct (Q ++ [p]) eqn:E; [destruct Q; discriminate|].
    destruct (Z.odd (qcount + Z.of_nat (length Q))); reflexivity.
Qed.

Lemma unescaped_quotes_in (esc : ascii) (qs s : list ascii) :
  forall (m : scan_mode) (i q : Z),
    0 <= i ->
    In q (unescaped_quotes_from esc qs m i s) ->
    i <= q < i + Z.of_nat (length s) /\ mem (char_at s (q - i)) qs = true.
Proof.
  induction s as [|c t IH]; intros m i q Hi Hin; [contradiction|].
  assert (Hskip : forall m', In q (unescaped_quotes_from esc qs m' (i + 1) t) ->
            i <= q < i + Z.of_nat (length (c :: t))
            /\ mem (char_at (c :: t) (q - i)) qs = true).
  { intros m' H. apply IH in H; [|lia]. destruct H as [Hr Hm].
    split; [simpl length; lia|].
    replace (q - i) with (q - (i + 1) + 1) by lia.
    rewrite char_at_cons_succ by lia. exact Hm. }
  assert (Hread : In q (let '(m', is_quote) := classify esc qs c in
                       let rest := unescaped_quotes_from esc qs m' (i + 1) t in
                       if is_quote then i :: rest else rest) ->
            i <= q < i + Z.of_nat (length (c :: t))
            /\ mem (char_at (c :: t) (q - i)) qs = true).
  { unfold classify. destruct (Ascii.eqb c esc).
    - apply Hskip.
    - destruct (mem c qs) eqn:Hm.
      + intros [<-|H]; [|apply (Hskip _ H)].
        split; [simpl length; lia|].
        replace (i - i) with 0 by lia. exact Hm.
      + apply Hskip. }
  cbn [unescaped_quotes_from] in Hin.
  destruct m; [apply Hread, Hin | | apply (Hskip _ Hin)].
  destruct (is_cont c); [apply (Hskip _ Hin) | apply Hread, Hin].
Qed.

Lemma last_In (Q : list Z) (d : Z) : Q <> [] -> In (last Q d) Q.
Proof.
  induction Q as [|a Q IH]; intros H; [contradiction|].
  destruct Q as [|b Q']; [left; reflexivity|].
  right. apply IH. discriminate.
Qed.

(** The forward pass ends with the number of un-escaped quotes as its count
    and, when that is odd, the offset of the last of them. *)
Lemma quote_scan_counts (prefix : list ascii) (esc : ascii) (qs : list ascii) :
  no_nul prefix ->
  exists pos,
    quote_scan (S (length prefix)) prefix (Z.of_nat (length prefix)) esc qs 0 (-1) 0
    = Some (pos,
            (if Z.odd (Z.of_nat (length (unescaped_quotes esc qs prefix)))
             then last (unescaped_quotes esc qs prefix) 0 else -1),
            Z.of_nat (length (unescaped_quotes esc qs prefix))).
Proof.
  intros Hnul.
  destruct (quote_scan_run esc qs (length prefix) prefix [] prefix
              (Z.of_nat (length prefix)) (S (length prefix)) (-1) 0)
    as [pos' E]; try reflexivity; try lia; try assumption.
  simpl length in E. change (Z.of_nat 0) with 0 in E.
  fold (unescaped_quotes esc qs prefix) in E.
  rewrite note_quotes_fold in E by lia. cbn [fst snd] in E. rewrite Z.add_0_l in E.
  exists pos'. rewrite E.
  destruct (unescaped_quotes esc qs prefix); reflexivity.
Qed.

(** The quote stage, in terms of the un-escaped quotes of the prefix. *)
Lemma quote_stage_spec (prefix : list ascii) (esc : ascii) (qs : list ascii) :
  no_nul prefix ->
  (Z.odd (Z.of_nat (length (unescaped_quotes esc qs prefix))) = true ->
     quote_stage prefix esc qs
     = Some (last (unescaped_quotes esc qs prefix) 0 + 1,
             char_at prefix (last (unescaped_quotes esc qs prefix) 0)))
  /\ (Z.odd (Z.of_nat (length (unescaped_quotes esc qs prefix))) = false ->
     exists pos, quote_stage prefix esc qs = Some (pos, NUL)).
Proof.
  intros Hnul. unfold quote_stage.
  destruct qs as [|q0 qs'].
  - assert (E : unescaped_quotes esc [] prefix = []).
    { destruct (unescaped_quotes esc [] prefix) as [|q Q] eqn:E; [reflexivity|].
      assert (Hin : In q (unescaped_quotes esc [] prefix)) by (rewrite E; left; reflexivity).
      apply unescaped_quotes_in in Hin; [|lia]. destruct Hin as [_ Hm]. discriminate. }
    rewrite E. simpl. split; [discriminate | intros _; eexists; reflexivity].
  - destruct (quote_scan_run esc (q0 :: qs') (length prefix) prefix [] prefix
                (Z.of_nat (length prefix)) (S (length prefix)) (-1) 0)
      as [pos' E]; try reflexivity; try lia; try assumption.
    simpl length in E. change (Z.of_nat 0) with 0 in E.
    fold (unescaped_quotes esc (q0 :: qs') prefix) in E.
    rewrite E. rewrite note_quotes_fold by lia. cbn [fst snd].
    rewrite rem2_odd by lia. rewrite Z.add_0_l.
    destruct (Z.odd (Z.of_nat (length (unescaped_quotes esc (q0 :: qs') prefix)))) eqn:Hodd.
    + split; [intros _ | discriminate].
      destruct (unescaped_quotes esc (q0 :: qs') prefix); [discriminate | reflexivity].
    + split; [discriminate | intros _; eexists; reflexivity].
Qed.

(** ** The backward scan *)

Lemma boundary_end (s : list ascii) : boundary s (Z.of_nat (length s)).
Proof. split; lia. Qed.

Lemma back_scan_spec (prefix nwc : list ascii) (esc : ascii) :
  no_nul prefix ->
  forall (fuel : nat) (pos : Z),
    (Z.to_nat pos < fuel)%nat ->
    boundary prefix pos ->
    (forall j, pos <= j < Z.of_nat (length prefix) -> boundary prefix j ->
               separator_at prefix nwc esc j = false) ->
    exists p,
      back_scan fuel prefix nwc esc pos = Some p
      /\ boundary prefix p
      /\ (forall j, p <= j < Z.of_nat (length prefix) -> boundary prefix j ->
                    separator_at prefix nwc esc j = false)
      /\ (p = 0
          \/ exists j, 0 <= j < p /\ boundary prefix j
                       /\ separator_at prefix nwc esc j = true
                       /\ forall k, j < k < p -> is_cont (char_at prefix k) = true).
Proof.
  intros Hnul. induction fuel as [|f IH]; intros pos Hfuel Hb Hnone; [lia|].
  cbn [back_scan].
  destruct (Z.ltb_spec 0 pos) as [Hpos|Hpos].
  - destruct (str_prev_ofs_spec prefix pos Hpos) as (Hofs & Hstop & Hrun).
    set (ofs := str_prev_ofs prefix pos) in *.
    destruct (Z.leb_spec ofs 0); [lia|].
    destruct Hb as [Hrange Hcont].
    assert (Hj : boundary prefix (pos - ofs)).
    { split; [lia|]. intros Hin. destruct Hstop as [Hstop|Hstop]; [lia | exact Hstop]. }
    assert (Hsep : strchr nwc (char_at prefix (pos - ofs))
                   && ((pos <=? ofs)
                       || negb (Ascii.eqb (char_at prefix (pos - ofs - 1)) esc))
                   = separator_at prefix nwc esc (pos - ofs)).
    { unfold separator_at.
      rewrite strchr_no_nul by (apply char_at_no_nul; [exact Hnul | lia]).
      f_equal. f_equal.
      destruct (Z.leb_spec pos ofs), (Z.leb_spec (pos - ofs) 0); reflexivity || lia. }
    rewrite Hsep.
    destruct (separator_at prefix nwc esc (pos - ofs)) eqn:Hs.
    + exists pos. split; [reflexivity|]. split; [split; assumption|].
      split; [exact Hnone|]. right. exists (pos - ofs).
      split; [lia|]. split; [exact Hj|]. split; [exact Hs|].
      intros k Hk. replace k with (pos - (pos - k)) by lia. apply Hrun. lia.
    + apply IH; [lia | exact Hj |].
      intros j Hjr Hjb.
      destruct (Z.eq_dec j (pos - ofs)) as [->|Hne]; [exact Hs|].
      destruct (Z.lt_ge_cases j pos) as [Hlt|Hge]; [|apply Hnone; [lia | exact Hjb]].
      exfalso. destruct Hjb as [_ Hjc].
      assert (E : is_cont (char_at prefix j) = true).
      { replace j with (pos - (pos - j)) by lia. apply Hrun. lia. }
      rewrite Hjc in E by lia. discriminate.
  - exists pos. split; [reflexivity|]. split; [exact Hb|]. split; [exact Hnone|].
    left. destruct Hb. lia.
Qed.

Lemma back_scan_from_end (prefix nwc : list ascii) (esc : ascii) :
  no_nul prefix ->
  exists p,
    back_scan (S (length prefix)) prefix nwc esc (Z.of_nat (length prefix)) = Some p
    /\ boundary prefix p
    /\ (forall j, p <= j < Z.of_nat (length prefix) -> boundary prefix j ->
                  separator_at prefix nwc esc j = false)
    /\ (p = 0
        \/ exists j, 0 <= j < p /\ boundary prefix j
                     /\ separator_at prefix nwc esc j = true
                     /\ forall k, j < k < p -> is_cont (char_at prefix k) = true).
Proof.
  intros Hnul. apply back_scan_spec; [exact Hnul | lia | apply boundary_end |].
  intros j Hj. lia.
Qed.

(** ** C1 and C6: the word boundary *)

(** C1.  The forward pass counts the quote characters that are not escaped
    (a character right after the escape character is passed over, so that
    of two escape characters in a row the second escapes nothing).  When the
    count is odd the word is quoted: the quote is the character at the last
    of them, the one of even zero-based index, and the word starts at the
    offset just after it.  When the count is even the scan reports no
    quote. *)
Theorem quote_parity (prefix nwc : list ascii) (esc : ascii) (qs : list ascii) :
  no_nul prefix ->
  (exists pos,
      quote_scan (S (length prefix)) prefix (Z.of_nat (length prefix)) esc qs 0 (-1) 0
      = Some (pos,
              (if Z.odd (Z.of_nat (length (unescaped_quotes esc qs prefix)))
               then last (unescaped_quotes esc qs prefix) 0 else -1),
              Z.of_nat (length (unescaped_quotes esc qs prefix))))
  /\ (Z.odd (Z.of_nat (length (unescaped_quotes esc qs prefix))) = true ->
     exists k : nat,
       length (unescaped_quotes esc qs prefix) = (2 * k + 1)%nat
       /\ nth_error (unescaped_quotes esc qs prefix) (2 * k)
          = Some (last (unescaped_quotes esc qs prefix) 0)
       /\ mem (char_at prefix (last (unescaped_quotes esc qs prefix) 0)) qs = true
       /\ word_boundary prefix nwc esc qs
          = Some (last (unescaped_quotes esc qs prefix) 0 + 1,
                  char_at prefix (last (unescaped_quotes esc qs prefix) 0))
       /\ char_at prefix (last (unescaped_quotes esc qs prefix) 0) <> NUL)
  /\ (Z.odd (Z.of_nat (length (unescaped_quotes esc qs prefix))) = false ->
     exists pos : Z, word_boundary prefix nwc esc qs = Some (pos, NUL)).
Proof.
  intros Hnul.
  destruct (quote_stage_spec prefix esc qs Hnul) as [Hodd Heven].
  split; [apply quote_scan_counts, Hnul|].
  split.
  - intros Ho. specialize (Hodd Ho).
    set (Q := unescaped_quotes esc qs prefix) in *.
    assert (Hne : Q <> []) by (intros E; rewrite E in Ho; discriminate).
    pose proof (last_In Q 0 Hne) as Hin.
    apply unescaped_quotes_in in Hin; [|lia]. destruct Hin as [Hr Hm].
    rewrite Z.sub_0_r in Hm.
    assert (Hq : char_at prefix (last Q 0) <> NUL)
      by (apply char_at_no_nul; [exact Hnul | lia]).
    assert (Hlen : exists k : nat, length Q = (2 * k + 1)%nat).
    { rewrite <- Z.negb_even, Bool.negb_true_iff in Ho.
      exists (Nat.div2 (length Q)).
      pose proof (Nat.div2_odd (length Q)) as E.
      assert (Nat.odd (length Q) = true).
      { rewrite <- Nat.negb_even, Bool.negb_true_iff.
        destruct (Nat.even (length Q)) eqn:Ev; [|reflexivity].
        apply Nat.even_spec in Ev. destruct Ev as [m Ev].
        rewrite Ev, Nat2Z.inj_mul, Z.even_mul in Ho. discriminate. }
      rewrite H in E. simpl Nat.b2n in E. lia. }
    destruct Hlen as [k Hk]. exists k.
    split; [exact Hk|]. split.
    { destruct (exists_last Hne) as (Q' & p & E).
      rewrite E, last_last. rewrite E, length_app in Hk. simpl in Hk.
      rewrite nth_error_app2 by lia.
      replace (2 * k - length Q')%nat with O by lia. reflexivity. }
    split; [exact Hm|]. split; [|exact Hq].
    unfold word_boundary. rewrite Hodd.
    destruct (Ascii.eqb_spec (char_at prefix (last Q 0)) NUL); [contradiction|].
    reflexivity.
  - intros He. destruct (Heven He) as [pos E].
    destruct (back_scan_from_end prefix nwc esc Hnul) as (p & Hp & _).
    exists p. unfold word_boundary. rewrite E. cbv beta iota zeta.
    rewrite Ascii.eqb_refl, Hp. reflexivity.
Qed.

(** C6.  With an even count of quotes the word start is found by the
    backward scan: it is a code point boundary, no separator that is free of
    a preceding escape character begins at a boundary from there to the end,
    and it is either 0 or the offset just after such a separator (the
    separator's bytes reach up to the word start). *)
Theorem backward_scan_first_separator (prefix nwc : list ascii) (esc : ascii)
    (qs : list ascii) :
  no_nul prefix ->
  Z.odd (Z.of_nat (length (unescaped_quotes esc qs prefix))) = false ->
  exists pos : Z,
    word_boundary prefix nwc esc qs = Some (pos, NUL)
    /\ boundary prefix pos
    /\ (forall j, pos <= j < Z.of_nat (length prefix) -> boundary prefix j ->
                  separator_at prefix nwc esc j = false)
    /\ (pos = 0
        \/ exists j, 0 <= j < pos /\ boundary prefix j
                     /\ separator_at prefix nwc esc j = true
                     /\ forall k, j < k < pos -> is_cont (char_at prefix k) = true).
Proof.
  intros Hnul He.
  destruct (quote_stage_spec prefix esc qs Hnul) as [_ Heven].
  destruct (Heven He) as [pos0 E].
  destruct (back_scan_from_end prefix nwc esc Hnul) as (p & Hp & Hrest).
  exists p. split; [|exact Hrest].
  unfold word_boundary. rewrite E. cbv beta iota zeta.
  rewrite Ascii.eqb_refl, Hp. reflexivity.
Qed.

(** ** Every loop ends within its fuel *)

Lemma quote_scan_total (prefix : list ascii) (len : Z) (esc : ascii) (qs : list ascii) :
  forall (fuel : nat) (pos qpos qcount : Z),
    (Z.to_nat (len - pos) < fuel)%nat ->
    exists r, quote_scan fuel prefix len esc qs pos qpos qcount = Some r.
Proof.
  induction fuel as [|f IH]; intros pos qpos qcount Hfuel; [lia|].
  cbn [quote_scan].
  destruct (Z.ltb_spec pos len); [|eexists; reflexivity].
  destruct (if Ascii.eqb (char_at prefix pos) esc then (pos + 1, qpos, qcount)
            else if strchr qs (char_at prefix pos)
                 then (pos, (if Z.rem qcount 2 =? 1 then -1 else pos), qcount + 1)
                 else (pos, qpos, qcount)) as [[pos1 qpos1] qcount1] eqn:E.
  assert (Hp : pos <= pos1).
  { destruct (Ascii.eqb (char_at prefix pos) esc); [inversion E; lia|].
    destruct (strchr qs (char_at prefix pos)); inversion E; lia. }
  destruct (Z.leb_spec (str_next_ofs prefix len pos1) 0); [eexists; reflexivity|].
  apply IH. lia.
Qed.

Lemma back_scan_total (prefix nwc : list ascii) (esc : ascii) :
  forall (fuel : nat) (pos : Z),
    (Z.to_nat pos < fuel)%nat ->
    exists p, back_scan fuel prefix nwc esc pos = Some p.
Proof.
  induction fuel as [|f IH]; intros pos Hfuel; [lia|].
  cbn [back_scan].
  destruct (Z.ltb_spec 0 pos); [|eexists; reflexivity].
  destruct (Z.leb_spec (str_prev_ofs prefix pos) 0); [eexists; reflexivity|].
  destruct (strchr nwc (char_at prefix (pos - str_prev_ofs prefix pos))
            && ((pos <=? str_prev_ofs prefix pos)
                || negb (Ascii.eqb (char_at prefix (pos - str_prev_ofs prefix pos - 1)) esc)));
    [eexists; reflexivity|].
  apply IH. lia.
Qed.

Lemma word_boundary_total (prefix nwc : list ascii) (esc : ascii) (qs : list ascii) :
  exists pos q, word_boundary prefix nwc esc qs = Some (pos, q).
Proof.
  unfold word_boundary.
  assert (Hq : exists pos q, quote_stage prefix esc qs = Some (pos, q)).
  { unfold quote_stage. destruct qs as [|q0 qs']; [do 2 eexists; reflexivity|].
    destruct (quote_scan_total prefix (Z.of_nat (length prefix)) esc (q0 :: qs')
                (S (length prefix)) 0 (-1) 0) as [[[p qp] qc] E]; [lia|].
    rewrite E. destruct (Z.rem qc 2 =? 1); do 2 eexists; reflexivity. }
  destruct Hq as (pos & q & E). rewrite E.
  destruct (Ascii.eqb q NUL); [|do 2 eexists; reflexivity].
  destruct (back_scan_total prefix nwc esc (S (length prefix)) (Z.of_nat (length prefix)))
    as [p Hp]; [lia|].
  rewrite Hp. do 2 eexists; reflexivity.
Qed.

Lemma unescape_loop_total (nwc : list ascii) (esc : ascii) (wlen : Z) :
  forall (fuel : nat) (word : list ascii) (wpos : Z),
    (Z.to_nat (wlen - wpos) < fuel)%nat ->
    exists buf, unescape_loop fuel word wlen nwc esc wpos = Some buf.
Proof.
  induction fuel as [|f IH]; intros word wpos Hfuel; [lia|].
  cbn [unescape_loop].
  destruct (Z.ltb_spec wpos wlen); [|eexists; reflexivity].
  destruct (Z.leb_spec (str_next_ofs word wlen wpos) 0); [eexists; reflexivity|].
  apply IH. lia.
Qed.

Lemma unescaped_word_total (prefix : list ascii) (pos : Z) (q : ascii)
    (nwc : list ascii) (esc : ascii) :
  exists word, unescaped_word prefix pos q nwc esc = Some word.
Proof.
  unfold unescaped_word. destruct (Ascii.eqb q NUL); [|eexists; reflexivity].
  destruct (unescape_loop_total nwc esc (Z.of_nat (length prefix) - pos)
              (S (Z.to_nat (Z.of_nat (length prefix) - pos)))
              (strdup_from prefix pos) 0) as [buf E]; [lia|].
  rewrite E. eexists; reflexivity.
Qed.

Lemma escape_loop_total (nwc : list ascii) (esc : ascii) (len : Z) :
  forall (fuel : nat) (sb : stringbuf_t) (pos : Z),
    (Z.to_nat (len - pos) < fuel)%nat ->
    exists sb', escape_loop fuel sb len nwc esc pos = Some sb'.
Proof.
  induction fuel as [|f IH]; intros sb pos Hfuel; [lia|].
  cbn [escape_loop].
  destruct (Z.ltb_spec pos len); [|eexists; reflexivity].
  destruct (if strchr nwc (sbuf_char_at sb pos)
            then (sbuf_insert_char_at sb esc pos, pos + 1)
            else (sb, pos)) as [sb1 pos1] eqn:E.
  assert (Hp : pos <= pos1).
  { destruct (strchr nwc (sbuf_char_at sb pos)); inversion E; lia. }
  destruct (Z.leb_spec (sbuf_next sb1 pos1) 0); [eexists; reflexivity|].
  apply IH.
  unfold sbuf_next in *.
  destruct (Z.leb_spec (str_next_ofs sb1 (sbuf_len sb1) pos1) 0); lia.
Qed.

Lemma rewrite_candidate_total (wenv : word_closure_t) (replacement : list ascii) :
  exists sb, rewrite_candidate wenv replacement = Some sb.
Proof.
  unfold rewrite_candidate. destruct (negb (Ascii.eqb (quote wenv) NUL));
    [eexists; reflexivity|].
  unfold escape. apply escape_loop_total. unfold sbuf_len. lia.
Qed.

(** ** C3: what the rewrite layer forwards *)

(** The sum of two [long]s is their sum as numbers when that is a [long]. *)
Lemma long_add_in_range (a b : Z) :
  LONG_MIN <= a + b <= LONG_MAX -> long_add a b = a + b.
Proof.
  intros H. unfold long_add.
  destruct (Z.ltb_spec 0 b); destruct (Z.ltb_spec (LONG_MAX - b) a);
    destruct (Z.ltb_spec b 0); destruct (Z.ltb_spec a (LONG_MIN - b));
    cbn [andb]; lia.
Qed.

Lemma long_add_0_r (a : Z) : long_add a 0 = a.
Proof. unfold long_add. cbn [Z.ltb Z.compare andb]. apply Z.add_0_r. Qed.

(** On two [long]s [long_add] is addition modulo 2^64, read as a signed
    number. *)
Lemma long_add_wraps (a b : Z) :
  LONG_MIN <= a <= LONG_MAX -> LONG_MIN <= b <= LONG_MAX ->
  long_add a b
  = (a + b + 9223372036854775808) mod 18446744073709551616 - 9223372036854775808
  /\ LONG_MIN <= long_add a b <= LONG_MAX.
Proof.
  unfold long_add, LONG_MIN, LONG_MAX. intros Ha Hb.
  destruct (Z.ltb_spec 0 b); destruct (Z.ltb_spec (9223372036854775807 - b) a);
    destruct (Z.ltb_spec b 0);
    destruct (Z.ltb_spec a (-9223372036854775808 - b)); cbn [andb]; try lia.
  all: split; [|lia].
  all: match goal with
       | |- ?x = (?y) mod ?m - ?c =>
           symmetry; apply Z.sub_move_r; symmetry
       end.
  all: first
         [ apply (Z.mod_unique _ _ 0); lia
         | apply (Z.mod_unique _ _ 1); lia
         | apply (Z.mod_unique _ _ (-1)); lia ].
Qed.

Lemma word_add_completion_ex_forwards (h : host) (e : Z) (wenv : word_closure_t)
    (id : Z) (display : option (list ascii)) (replacement : list ascii)
    (db da : Z) (w : world) :
  prev_complete wenv = prim_complete id ->
  exists sb,
    rewrite_candidate wenv replacement = Some sb
    /\ word_add_completion_ex h e (word_closure_ptr wenv) display replacement db da w
       = Some (call_prim h id
                 (mk_completion e (word_closure_ptr wenv)
                    (Some (match display with Some d => d | None => replacement end))
                    sb (long_add (delete_before_adjust wenv) db) da) w).
Proof.
  intros Hprev. destruct (rewrite_candidate_total wenv replacement) as [sb E].
  exists sb. split; [exact E|].
  unfold word_add_completion_ex. rewrite E, Hprev. reflexivity.
Qed.

(** C3.  Every candidate the sink of the rewrite layer intercepts goes on to
    the previous sink with the display given, or the replacement given when
    there is none, with delete-before raised by the adjustment of the
    closure, when that sum is a [long] (line 54 adds two of them), and with
    delete-after as given; the adjustment that [rp_complete_quoted_word]
    installs is the byte length of the word span, [len - pos].  For the
    prefix [he\ wor] the completer is handed [he wor], and its candidate
    [he world] is forwarded as [he\ world] with delete-before 7. *)
Theorem rewrite_layer_forwards :
  (forall (h : host) (e : Z) (wenv : word_closure_t) (id : Z)
          (display : option (list ascii)) (replacement : list ascii)
          (db da : Z) (w : world),
      prev_complete wenv = prim_complete id ->
      LONG_MIN <= delete_before_adjust wenv + db <= LONG_MAX ->
      exists sb,
        rewrite_candidate wenv replacement = Some sb
        /\ word_add_completion_ex h e (word_closure_ptr wenv) display replacement db da w
           = Some (call_prim h id
                     (mk_completion e (word_closure_ptr wenv)
                        (Some (match display with Some d => d | None => replacement end))
                        sb (delete_before_adjust wenv + db) da) w))
  /\ (forall (h : host) (cenv : rp_completion_env_t) (prefix nwc : list ascii)
             (esc : ascii) (qs : list ascii) (w : world) (id : Z)
             (display : option (list ascii)) (replacement : list ascii)
             (db da pos : Z) (q : ascii),
        complete cenv = prim_complete id ->
        word_boundary prefix nwc esc qs = Some (pos, q) ->
        pos <> Z.of_nat (length prefix) ->
        mem_ok h (allocs w) = true ->
        mem_ok h (S (allocs w)) = true ->
        LONG_MIN <= Z.of_nat (length prefix) - pos + db <= LONG_MAX ->
        exists word sb cl ok,
          rewrite_candidate
            (mk_word_closure nwc esc q (Z.of_nat (length prefix) - pos)
               (complete cenv) (env cenv)) replacement = Some sb
          /\ log_of (rp_complete_quoted_word h cenv prefix
                       (propose_one h display replacement db da)
                       (Some nwc) esc (Some qs) w)
             = Some (log w
                     ++ [ev_callback word;
                         ev_add id
                           (mk_completion (env cenv) cl
                              (Some (match display with Some d => d | None => replacement end))
                              sb (Z.of_nat (length prefix) - pos + db) da) ok]))
  /\ (let h := Scenario.table_host [] Scenario.accept_all in
      let r := rp_complete_quoted_word h Scenario.top_cenv (chars "he\ wor")
                 (propose_one h None (chars "he world") 0 0)
                 (Some default_non_word_chars) "\"%char None Scenario.start in
      word_boundary (chars "he\ wor") default_non_word_chars "\"%char default_quote_chars
      = Some (0, NUL)
      /\ option_map callbacks (log_of r) = Some [chars "he wor"]
      /\ option_map forwarded (log_of r)
         = Some [(Some (chars "he world"), chars "he\ world", 7, 0)]).
Proof.
  split; [|split].
  - intros h e wenv id display replacement db da w Hprev Hrange.
    rewrite <- (long_add_in_range _ _ Hrange).
    apply word_add_completion_ex_forwards. exact Hprev.
  - intros h cenv prefix nwc esc qs w id display replacement db da pos q
           Hc Hwb Hpos Hm1 Hm2 Hrange.
    rewrite <- (long_add_in_range _ _ Hrange).
    destruct (unescaped_word_total prefix pos q nwc esc) as [word Hword].
    set (wenv := mk_word_closure nwc esc q (Z.of_nat (length prefix) - pos)
                   (complete cenv) (env cenv)).
    destruct (word_add_completion_ex_forwards h (env cenv) wenv id display replacement
                db da (emit (ev_callback word) (mk_world (log w) (S (S (allocs w))))))
      as [sb [Hsb Hfw]]; [exact Hc|].
    exists word, sb, (word_closure_ptr wenv).
    eexists. split; [exact Hsb|].
    unfold rp_complete_quoted_word. rewrite Hwb.
    destruct (Z.eqb_spec (Z.of_nat (length prefix)) pos); [congruence|].
    unfold alloc. rewrite Hm1. cbn [negb allocs log]. rewrite Hword.
    rewrite Hm2. cbn [negb].
    unfold propose_one, rp_add_completion_ex, call_complete, set_sink.
    cbn [complete env closure]. fold wenv. rewrite Hfw.
    unfold call_prim, emit, log_of. cbn [log allocs].
    rewrite <- app_assoc. reflexivity.
  - vm_compute. repeat split; reflexivity.
Qed.

(** ** C5 and C9: the environment around the call of the completer *)

(** X3.  What [rp_complete_quoted_word] leaves in the environment.  When
    the completer is not called (the word is empty, or the copy of the word
    or the scratch buffer cannot be allocated) the environment comes back as
    it was, closure argument included.  When the completer is called, the
    environment it leaves comes back with the sink function found before the
    call and, as closure argument, the [rp_env_t*] found before the call
    (lines 147 and 158), whatever the closure argument was. *)
Lemma rp_complete_quoted_word_sink_after (h : host) (cenv : rp_completion_env_t)
    (prefix : list ascii) (fn : rp_completer_fun_t)
    (nwc : option (list ascii)) (esc : ascii) (qs : option (list ascii))
    (w : world) (cenv' : rp_completion_env_t) (w' : world) :
  rp_complete_quoted_word h cenv prefix fn nwc esc qs w = Some (cenv', w') ->
  exists pos q,
    word_boundary prefix
      (match nwc with Some s => s | None => default_non_word_chars end) esc
      (match qs with Some s => s | None => default_quote_chars end)
    = Some (pos, q)
    /\ if (Z.of_nat (length prefix) =? pos)
          || negb (mem_ok h (allocs w)) || negb (mem_ok h (S (allocs w)))
       then cenv' = cenv /\ log w' = log w
       else
         exists word cenv2,
           fn (set_sink cenv word_add_completion_ex_fn
                 (word_closure_ptr
                    (mk_word_closure
                       (match nwc with Some s => s | None => default_non_word_chars end)
                       esc q (Z.of_nat (length prefix) - pos)
                       (complete cenv) (env cenv))))
              word (emit (ev_callback word) (mk_world (log w) (S (S (allocs w)))))
           = Some (cenv2, w')
           /\ cenv' = set_sink cenv2 (complete cenv) (env_ptr (env cenv))
           /\ complete cenv' = complete cenv
           /\ closure cenv' = env_ptr (env cenv).
Proof.
  unfold rp_complete_quoted_word.
  destruct (word_boundary _ _ _ _) as [[pos q]|]; [|discriminate].
  intros E. exists pos, q. split; [reflexivity|].
  destruct (Z.of_nat (length prefix) =? pos); cbn [orb].
  { inversion E; subst. split; reflexivity. }
  unfold alloc in E. cbn [allocs log] in E.
  destruct (mem_ok h (allocs w)); cbn [negb orb] in *.
  2:{ inversion E; subst. split; reflexivity. }
  destruct (unescaped_word _ _ _ _ _) as [word|]; [|discriminate].
  destruct (mem_ok h (S (allocs w))); cbn [negb] in *.
  2:{ inversion E; subst. split; reflexivity. }
  destruct (fn _ _ _) as [[cenv2 w3]|] eqn:Ef; [|discriminate].
  inversion E; subst. exists word, cenv2.
  split; [exact Ef|]. repeat split.
Qed.

(** C5, at the inputs where the code departs from it.  A top-level
    environment whose closure argument is null comes back with the address
    of the environment in it.  Inside a completer the closure argument is
    the address of the word closure; a further call of [rp_complete_word]
    from there leaves the address of the environment instead, and the next
    candidate then reaches [word_add_completion_ex] with a closure that is
    no word closure, while the same candidate proposed without the further
    call goes through. *)
Theorem closure_not_restored :
  let h := Scenario.table_host [] Scenario.accept_all in
  let outer := mk_word_closure default_non_word_chars "\"%char NUL 2 (prim_complete 0) 1 in
  let inside := set_sink Scenario.top_cenv word_add_completion_ex_fn (word_closure_ptr outer) in
  (exists c w,
      rp_complete_word h Scenario.top_cenv (chars "pr") propose_nothing Scenario.start
      = Some (c, w)
      /\ complete c = complete Scenario.top_cenv
      /\ closure Scenario.top_cenv = NULL
      /\ closure c = env_ptr 1)
  /\ (exists c w,
      rp_complete_word h inside (chars "pr") propose_nothing Scenario.start = Some (c, w)
      /\ complete c = complete inside
      /\ closure inside = word_closure_ptr outer
      /\ closure c = env_ptr 1)
  /\ rp_complete_word h Scenario.top_cenv (chars "pr")
       (complete_again_then_propose h (chars "print")) Scenario.start = None
  /\ option_map forwarded
       (log_of (rp_complete_word h Scenario.top_cenv (chars "pr")
                  (propose_one h None (chars "print") 0 0) Scenario.start))
     = Some [(Some (chars "print"), chars "print", 2, 0)].
Proof.
  cbv zeta. split; [|split; [|split]].
  - do 2 eexists. split; [vm_compute; reflexivity|]. repeat split.
  - do 2 eexists. split; [vm_compute; reflexivity|]. repeat split.
  - vm_compute. reflexivity.
  - vm_compute. reflexivity.
Qed.

(** C9.  A call either returns the environment as it was and the log as it
    was, the completer not called, or it is one call of the completer on the
    word, noted in the log, and whatever that call leaves; the first is what
    happens when the word is empty and when the duplicate of the word or the
    scratch buffer cannot be allocated. *)
Theorem completer_called_at_most_once (h : host) (cenv : rp_completion_env_t)
    (prefix : list ascii) (fn : rp_completer_fun_t)
    (nwc : option (list ascii)) (esc : ascii) (qs : option (list ascii))
    (w : world) :
  ((exists w',
       rp_complete_quoted_word h cenv prefix fn nwc esc qs w = Some (cenv, w')
       /\ log w' = log w)
   \/ (exists wenv word w1,
       log w1 = log w ++ [ev_callback word]
       /\ rp_complete_quoted_word h cenv prefix fn nwc esc qs w
          = match fn (set_sink cenv word_add_completion_ex_fn (word_closure_ptr wenv))
                    word w1 with
            | Some (cenv2, w3) =>
                Some (set_sink cenv2 (complete cenv) (env_ptr (env cenv)), w3)
            | None => None
            end))
  /\ (((exists q,
          word_boundary prefix
            (match nwc with Some s => s | None => default_non_word_chars end) esc
            (match qs with Some s => s | None => default_quote_chars end)
          = Some (Z.of_nat (length prefix), q))
       \/ mem_ok h (allocs w) = false
       \/ mem_ok h (S (allocs w)) = false) ->
      exists w',
        rp_complete_quoted_word h cenv prefix fn nwc esc qs w = Some (cenv, w')
        /\ log w' = log w
        /\ callbacks (log w') = callbacks (log w)
        /\ proposed (log w') = proposed (log w)).
Proof.
  unfold rp_complete_quoted_word.
  destruct (word_boundary_total prefix
              (match nwc with Some s => s | None => default_non_word_chars end) esc
              (match qs with Some s => s | None => default_quote_chars end))
    as (pos & q & Hwb).
  rewrite Hwb.
  destruct (Z.eqb_spec (Z.of_nat (length prefix)) pos) as [Hlen|Hlen].
  { split; [left|intros _]; exists w; repeat split; reflexivity. }
  unfold alloc. destruct (mem_ok h (allocs w)) eqn:Hm1; cbn [negb].
  2:{ split; [left|intros _]; eexists; repeat split; reflexivity. }
  destruct (unescaped_word_total prefix pos q
              (match nwc with Some s => s | None => default_non_word_chars end) esc)
    as [word Hword].
  rewrite Hword. cbn [allocs log].
  destruct (mem_ok h (S (allocs w))) eqn:Hm2; cbn [negb].
  2:{ split; [left|intros _]; eexists; repeat split; reflexivity. }
  split.
  - right. do 3 eexists. split; [|reflexivity]. reflexivity.
  - intros [[q' Hq']|[H|H]]; [|discriminate|discriminate].
    inversion Hq'. lia.
Qed.

(** ** C2: escaping and unescaping *)

(** C2, at the input where the code departs from it.  The word [src\] has no
    escape character before a separator; escaping leaves it as it is, and
    unescaping then drops its last character: the test of line 133 finds the
    terminator that follows the escape character in the separator set. *)
Theorem unescape_drops_trailing_escape :
  let nwc := default_non_word_chars in
  let esc := "\"%char in
  let w := chars "src\" in
  ambiguous nwc esc w = false
  /\ escape w nwc esc = Some w
  /\ strchr nwc (char_at w (Z.of_nat (length w))) = true
  /\ unescape w nwc esc = Some (chars "src")
  /\ unescape w nwc esc <> Some w.
Proof.
  cbv zeta. repeat split; try (vm_compute; reflexivity).
  vm_compute. discriminate.
Qed.

(** The escape loop reads the length once (line 42) and stops there, so the
    separators in the last bytes of a replacement that grew go without an
    escape character; unescaping still gives the replacement back. *)
Lemma escape_misses_last_separators :
  escape (chars "a b c d") default_non_word_chars "\"%char = Some (chars "a\ b\ c d")
  /\ unescape (chars "a\ b\ c d") default_non_word_chars "\"%char
     = Some (chars "a b c d").
Proof. split; vm_compute; reflexivity. Qed.

(** ** C4: what follows a sink that declines *)

(** C4, at the input where the code departs from it.  With the roots [.] and
    [/usr/local], each holding an entry [lib], and a sink that declines
    every candidate: the first candidate is declined and its directory
    closed, and the next root is opened all the same and a second candidate
    proposed (the result of [filename_complete_indir] is dropped at line
    347). *)
Theorem roots_tried_after_stop :
  let h := Scenario.table_host Scenario.two_roots_fs Scenario.reject_all in
  actions_of (rp_complete_filename h Scenario.top_cenv (chars "li") "/"%char
                (Some (chars ".;/usr/local")) Scenario.start)
  = Some [calls (chars "li");
          opens (chars "./"); proposes (chars "lib/") false; closes (chars "./");
          opens (chars "/usr/local/"); proposes (chars "lib/") false;
          closes (chars "/usr/local/")].
Proof. vm_compute. reflexivity. Qed.

(** ** C10: no roots given *)

(** C10.  A null [roots] is the single root [.]: the two calls are the same
    call, and a relative word is completed in the current directory. *)
Theorem null_roots_is_current_directory :
  (forall (h : host) (cenv : rp_completion_env_t) (prefix : list ascii)
          (sep : ascii) (w : world),
      rp_complete_filename h cenv prefix sep None w
      = rp_complete_filename h cenv prefix sep (Some (chars ".")) w)
  /\ (let h := Scenario.table_host Scenario.project_fs Scenario.accept_all in
      actions_of (rp_complete_filename h Scenario.top_cenv (chars "cat RE") NUL
                    None Scenario.start)
      = Some [calls (chars "RE"); opens (chars "./");
              proposes (chars "README.md") true; closes (chars "./")]).
Proof.
  split; [reflexivity | vm_compute; reflexivity].
Qed.

(** ** C8 and X17: the candidates of one directory *)

Lemma sbuf_delete_from_app (a b : stringbuf_t) :
  sbuf_delete_from (a ++ b) (sbuf_len a) = a.
Proof.
  unfold sbuf_delete_from, sbuf_len. rewrite Nat2Z.id.
  rewrite firstn_app, firstn_all, Nat.sub_diag. simpl. apply app_nil_r.
Qed.

(** One entry: both buffers come back as they were, and a candidate is
    proposed if and only if the entry matches. *)
Lemma indir_entry_spec (h : host) (cenv : rp_completion_env_t)
    (base_prefix : list ascii) (sep : ascii) (name : list ascii) (cont : bool)
    (dir dir_prefix : stringbuf_t) (w : world) :
  indir_entry h cenv base_prefix sep name cont dir dir_prefix w
  = if entry_matches name base_prefix then
      match rp_add_completion h cenv None (candidate_for h dir dir_prefix sep name) w with
      | Some (cont1, w1) => Some (cont1, (dir, dir_prefix), w1)
      | None => None
      end
    else Some (cont, (dir, dir_prefix), w).
Proof.
  unfold indir_entry, candidate_for.
  destruct (entry_matches name base_prefix); [|reflexivity].
  unfold sbuf_append, sbuf_append_char.
  destruct (negb (Ascii.eqb sep NUL)); cbn [andb].
  - rewrite <- (app_assoc dir [sep] name), sbuf_delete_from_app.
    destruct (os_is_dir h (dir ++ [sep] ++ name)).
    + rewrite <- (app_assoc dir_prefix name [sep]).
      destruct (rp_add_completion h cenv None (dir_prefix ++ name ++ [sep]) w)
        as [[c w1]|]; [|reflexivity].
      rewrite sbuf_delete_from_app. reflexivity.
    + rewrite app_nil_r.
      destruct (rp_add_completion h cenv None (dir_prefix ++ name) w)
        as [[c w1]|]; [|reflexivity].
      rewrite sbuf_delete_from_app. reflexivity.
  - rewrite app_nil_r.
    destruct (rp_add_completion h cenv None (dir_prefix ++ name) w)
      as [[c w1]|]; [|reflexivity].
    rewrite sbuf_delete_from_app. reflexivity.
Qed.

Lemma indir_loop_spec (h : host) (cenv : rp_completion_env_t)
    (base_prefix : list ascii) (sep : ascii) (dir dir_prefix : stringbuf_t) :
  forall (rest : list (list ascii)) (name : list ascii) (w : world),
    indir_loop h cenv base_prefix sep name rest true dir dir_prefix w
    = match propose_until_stop h cenv
              (candidates h dir dir_prefix base_prefix sep (name :: rest)) w with
      | Some (cont, w1) => Some (cont, (dir, dir_prefix), w1)
      | None => None
      end.
Proof.
  induction rest as [|name' rest IH]; intros name w;
    cbn [indir_loop]; rewrite indir_entry_spec;
    unfold candidates; cbn [filter];
    destruct (entry_matches name base_prefix); cbn [map propose_until_stop].
  - destruct (rp_add_completion h cenv None _ w) as [[[|] w1]|]; reflexivity.
  - reflexivity.
  - destruct (rp_add_completion h cenv None _ w) as [[[|] w1]|]; try reflexivity.
    rewrite IH. reflexivity.
  - rewrite IH. reflexivity.
Qed.

Lemma filename_complete_indir_spec (h : host) (cenv : rp_completion_env_t)
    (dir dir_prefix : stringbuf_t) (base_prefix : list ascii) (sep : ascii)
    (w : world) :
  filename_complete_indir h cenv dir dir_prefix base_prefix sep w
  = match fs_entries h dir with
    | None => Some (true, (dir, dir_prefix), w)
    | Some [] => Some (true, (dir, dir_prefix), emit (ev_open dir) w)
    | Some (name :: rest) =>
        match propose_until_stop h cenv
                (candidates h dir dir_prefix base_prefix sep (name :: rest))
                (emit (ev_open dir) w) with
        | Some (cont, w1) => Some (cont, (dir, dir_prefix), emit (ev_close dir) w1)
        | None => None
        end
    end.
Proof.
  unfold filename_complete_indir.
  destruct (fs_entries h dir) as [[|name rest]|]; try reflexivity.
  rewrite indir_loop_spec.
  destruct (propose_until_stop _ _ _ _) as [[c w1]|]; reflexivity.
Qed.

(** With a sink of the caller that accepts everything, every candidate is
    proposed, as it is. *)
Lemma propose_until_stop_accepting (h : host) (cenv : rp_completion_env_t) (id : Z) :
  complete cenv = prim_complete id ->
  (forall l c, sink_accepts h id l c = true) ->
  forall (cands : list (list ascii)) (w : world),
  exists w',
    propose_until_stop h cenv cands w = Some (true, w')
    /\ map action_of (log w')
       = map action_of (log w) ++ map (fun c => proposes c true) cands.
Proof.
  intros Hc Hacc. induction cands as [|c cands IH]; intros w.
  - exists w. split; [reflexivity|]. simpl. rewrite app_nil_r. reflexivity.
  - cbn [propose_until_stop].
    unfold rp_add_completion, rp_add_completion_ex, call_complete. rewrite Hc.
    unfold call_prim. rewrite Hacc.
    destruct (IH (emit (ev_add id (mk_completion (env cenv) (closure cenv) None c 0 0) true) w))
      as (w' & E & Hlog).
    exists w'. split; [exact E|]. rewrite Hlog.
    unfold emit. cbn [log]. rewrite map_app, <- app_assoc. reflexivity.
Qed.

Lemma starts_with_iff (s p : list ascii) :
  starts_with s p = true <-> exists suffix, s = p ++ suffix.
Proof.
  revert s. induction p as [|b p IH]; intros s.
  - split; [intros _; exists s; reflexivity | intros _; destruct s; reflexivity].
  - destruct s as [|a s]; cbn [starts_with].
    + split; [discriminate | intros [x E]; discriminate].
    + rewrite Bool.andb_true_iff, IH. split.
      * intros [Hab [x E]]. apply Ascii.eqb_eq in Hab. subst. exists x. reflexivity.
      * intros [x E]. inversion E; subst. split; [apply Ascii.eqb_refl|].
        exists x. reflexivity.
Qed.

Lemma entry_matches_iff (name base_prefix : list ascii) :
  entry_matches name base_prefix = true
  <-> name <> chars "." /\ name <> chars ".."
      /\ exists suffix, name = base_prefix ++ suffix.
Proof.
  unfold entry_matches, rp_starts_with, list_eqb.
  rewrite !Bool.andb_true_iff, starts_with_iff.
  destruct (list_eq_dec ascii_dec name (chars ".")) as [E1|N1];
    destruct (list_eq_dec ascii_dec name (chars "..")) as [E2|N2]; cbn [negb];
    intuition congruence.
Qed.

(** C8, at the inputs where the code departs from it.  [os_is_dir] masks
    [st_mode] with [S_IFDIR], a bit that the type of a socket has as well: a
    socket [sock] in the directory is proposed as [sock/].  And the path it
    is asked about is built with [dir_sep]: with the separator [\] the
    directory [src] is asked about as [./\src], which names nothing, and is
    proposed as [src]. *)
Theorem dir_sep_without_directory :
  let h := socket_host in
  (stat_mode h (chars ".//sock") = Some 49645
   /\ Z.land 49645 S_IFMT <> S_IFDIR
   /\ os_is_dir h (chars ".//sock") = true
   /\ candidates h (chars "./") [] (chars "so") "/"%char
        (map chars ["."; ".."; "sock"; "src"]%string)
      = [chars "sock/"]
   /\ actions_of (rp_complete_filename h Scenario.top_cenv (chars "so") "/"%char
                    (Some (chars ".")) Scenario.start)
      = Some [calls (chars "so"); opens (chars "./");
              proposes (chars "sock/") true; closes (chars "./")])
  /\ (stat_mode h (chars "./src") = Some 16877
      /\ Z.land 16877 S_IFMT = S_IFDIR
      /\ stat_mode h (chars "./\src") = None
      /\ os_is_dir h (chars "./\src") = false
      /\ candidates h (chars "./") [] (chars "sr") "\"%char
           (map chars ["."; ".."; "sock"; "src"]%string)
         = [chars "src"]
      /\ actions_of (rp_complete_filename h Scenario.top_cenv (chars "sr") "\"%char
                       (Some (chars ".")) Scenario.start)
         = Some [calls (chars "sr"); opens (chars "./");
                 proposes (chars "src") true; closes (chars "./")]).
Proof.
  cbv zeta. split.
  - split; [reflexivity|]. split; [discriminate|].
    repeat split; vm_compute; reflexivity.
  - repeat split; vm_compute; reflexivity.
Qed.

(** X17.  For each entry read, both buffers come back as they were and a
    candidate is proposed if and only if the entry matches: its name is
    neither [.] nor [..] and starts with the base prefix.  The candidate is
    the directory prefix, the name, and the separator when it is not NUL and
    [os_is_dir] holds of the probe path, the directory, the separator and
    the name.  Over a whole directory the candidates of
    the matching entries are proposed in order until the sink declines one;
    a sink that accepts them all receives each of them.  In the directory of
    [src], [test] and [README.md] the prefix [sr] yields the one candidate
    [src/]. *)
Theorem directory_candidates :
  (forall (h : host) (cenv : rp_completion_env_t) (base_prefix : list ascii)
          (sep : ascii) (name : list ascii) (cont : bool)
          (dir dir_prefix : stringbuf_t) (w : world),
      indir_entry h cenv base_prefix sep name cont dir dir_prefix w
      = if entry_matches name base_prefix then
          match rp_add_completion h cenv None
                  (dir_prefix ++ name
                   ++ (if negb (Ascii.eqb sep NUL) && os_is_dir h (dir ++ [sep] ++ name)
                       then [sep] else [])) w with
          | Some (cont1, w1) => Some (cont1, (dir, dir_prefix), w1)
          | None => None
          end
        else Some (cont, (dir, dir_prefix), w))
  /\ (forall name base_prefix : list ascii,
        entry_matches name base_prefix = true
        <-> name <> chars "." /\ name <> chars ".."
            /\ exists suffix, name = base_prefix ++ suffix)
  /\ (forall (h : host) (cenv : rp_completion_env_t) (dir dir_prefix : stringbuf_t)
             (base_prefix : list ascii) (sep : ascii) (w : world),
        filename_complete_indir h cenv dir dir_prefix base_prefix sep w
        = match fs_entries h dir with
          | None => Some (true, (dir, dir_prefix), w)
          | Some [] => Some (true, (dir, dir_prefix), emit (ev_open dir) w)
          | Some (name :: rest) =>
              match propose_until_stop h cenv
                      (candidates h dir dir_prefix base_prefix sep (name :: rest))
                      (emit (ev_open dir) w) with
              | Some (cont, w1) => Some (cont, (dir, dir_prefix), emit (ev_close dir) w1)
              | None => None
              end
          end)
  /\ (forall (h : host) (cenv : rp_completion_env_t) (id : Z)
             (dir dir_prefix : stringbuf_t) (base_prefix : list ascii) (sep : ascii)
             (w : world) (name : list ascii) (rest : list (list ascii)),
        complete cenv = prim_complete id ->
        (forall l c, sink_accepts h id l c = true) ->
        fs_entries h dir = Some (name :: rest) ->
        exists w',
          filename_complete_indir h cenv dir dir_prefix base_prefix sep w
          = Some (true, (dir, dir_prefix), w')
          /\ map action_of (log w')
             = map action_of (log w)
               ++ [opens dir]
               ++ map (fun c => proposes c true)
                      (candidates h dir dir_prefix base_prefix sep (name :: rest))
               ++ [closes dir])
  /\ (let h := Scenario.table_host Scenario.project_fs Scenario.accept_all in
      candidates h (chars "./") [] (chars "sr") "/"%char
        (map chars ["."; ".."; "src"; "test"; "README.md"]%string)
      = [chars "src/"]
      /\ actions_of (rp_complete_filename h Scenario.top_cenv (chars "sr") "/"%char
                       (Some (chars ".")) Scenario.start)
         = Some [calls (chars "sr"); opens (chars "./");
                 proposes (chars "src/") true; closes (chars "./")]).
Proof.
  split; [|split; [|split; [|split]]].
  - intros. apply indir_entry_spec.
  - intros. apply entry_matches_iff.
  - intros. apply filename_complete_indir_spec.
  - intros h cenv id dir dir_prefix base_prefix sep w name rest Hc Hacc Hfs.
    rewrite filename_complete_indir_spec, Hfs.
    destruct (propose_until_stop_accepting h cenv id Hc Hacc
                (candidates h dir dir_prefix base_prefix sep (name :: rest))
                (emit (ev_open dir) w)) as (w1 & E & Hlog).
    rewrite E. eexists. split; [reflexivity|].
    unfold emit in *. cbn [log] in *. rewrite map_app, Hlog, map_app.
    cbn [map action_of]. rewrite <- !app_assoc. reflexivity.
  - vm_compute. split; reflexivity.
Qed.

(** ** File name completion always returns *)

Lemma rp_add_completion_returns (h : host) (cenv : rp_completion_env_t)
    (d : option (list ascii)) (c : list ascii) (w : world) :
  sink_ok cenv -> exists r, rp_add_completion h cenv d c w = Some r.
Proof.
  unfold sink_ok, rp_add_completion, rp_add_completion_ex, call_complete.
  destruct (complete cenv) as [id|]; [intros _; eexists; reflexivity|].
  destruct (closure cenv) as [| |wenv| |]; try contradiction.
  destruct (prev_complete wenv) as [id|] eqn:Hp; [intros _|contradiction].
  destruct (word_add_completion_ex_forwards h (env cenv) wenv id d c 0 0 w Hp)
    as (sb & _ & E).
  rewrite E. eexists; reflexivity.
Qed.

Lemma propose_until_stop_returns (h : host) (cenv : rp_completion_env_t) :
  sink_ok cenv ->
  forall (cands : list (list ascii)) (w : world),
    exists r, propose_until_stop h cenv cands w = Some r.
Proof.
  intros Hok. induction cands as [|c cands IH]; intros w; cbn [propose_until_stop].
  - eexists; reflexivity.
  - destruct (rp_add_completion_returns h cenv None c w Hok) as [[b w1] E].
    rewrite E. destruct b; [apply IH | eexists; reflexivity].
Qed.

Lemma filename_complete_indir_returns (h : host) (cenv : rp_completion_env_t)
    (dir dir_prefix : stringbuf_t) (base_prefix : list ascii) (sep : ascii) (w : world) :
  sink_ok cenv ->
  exists cont w',
    filename_complete_indir h cenv dir dir_prefix base_prefix sep w
    = Some (cont, (dir, dir_prefix), w').
Proof.
  intros Hok. rewrite filename_complete_indir_spec.
  destruct (fs_entries h dir) as [[|name rest]|]; try (do 2 eexists; reflexivity).
  destruct (propose_until_stop_returns h cenv Hok
              (candidates h dir dir_prefix base_prefix sep (name :: rest))
              (emit (ev_open dir) w)) as [[b w1] E].
  rewrite E. do 2 eexists; reflexivity.
Qed.

Lemma index_of_range (c : ascii) (s : list ascii) (k : Z) :
  index_of c s = Some k -> 0 <= k < Z.of_nat (length s).
Proof.
  revert k. induction s as [|d t IH]; intros k; cbn [index_of]; [discriminate|].
  destruct (Ascii.eqb d c).
  - intros E; inversion E; subst. cbn [length]. lia.
  - destruct (index_of c t) as [i|]; [|discriminate].
    intros E; inversion E; subst. specialize (IH i eq_refl). cbn [length]. lia.
Qed.

Lemma roots_loop_returns (h : host) (cenv : rp_completion_env_t)
    (prefix : list ascii) (base : option Z) (base_prefix : list ascii) (sep : ascii) :
  sink_ok cenv ->
  forall (fuel : nat) (root : option (list ascii)) (dir_prefix : stringbuf_t) (w : world),
    (match root with Some r => length r + 2 | None => 1 end <= fuel)%nat ->
    exists w', roots_loop fuel h cenv prefix base base_prefix sep root dir_prefix w = Some w'.
Proof.
  intros Hok. induction fuel as [|f IH]; intros root dir_prefix w Hfuel.
  - destruct root; lia.
  - cbn [roots_loop]. destruct root as [r|]; [|eexists; reflexivity].
    destruct (index_of ";"%char r) as [k|] eqn:Hk.
    + destruct (filename_complete_indir_returns h cenv
                  (match base with
                   | Some b => sbuf_append_n (sbuf_append_char (sbuf_append_n [] r k) "/"%char)
                                 prefix (b - 1)
                   | None => sbuf_append_char (sbuf_append_n [] r k) "/"%char
                   end) dir_prefix base_prefix sep w Hok) as (cont & w1 & E).
      rewrite E. apply IH.
      apply index_of_range in Hk. rewrite length_skipn. lia.
    + destruct (filename_complete_indir_returns h cenv
                  (match base with
                   | Some b => sbuf_append_n (sbuf_append_char (sbuf_append [] r) "/"%char)
                                 prefix (b - 1)
                   | None => sbuf_append_char (sbuf_append [] r) "/"%char
                   end) dir_prefix base_prefix sep w Hok) as (cont & w1 & E).
      rewrite E. apply IH. lia.
Qed.

Lemma filename_completer_returns (h : host) (cenv : rp_completion_env_t)
    (fclosure : filename_closure_t) (prefix : option (list ascii)) (w : world) :
  sink_ok cenv -> arg cenv = filename_closure_ptr fclosure ->
  exists w', filename_completer h cenv prefix w = Some (cenv, w').
Proof.
  intros Hok Harg. unfold filename_completer.
  destruct prefix as [p|]; [|eexists; reflexivity].
  unfold alloc. cbn [allocs log].
  destruct (mem_ok h (allocs w) && mem_ok h (S (allocs w))); [|eexists; reflexivity].
  rewrite Harg.
  destruct (os_path_is_absolute (Some p)).
  - destruct (filename_complete_indir_returns h cenv
                (match match rindex_of "/"%char p with
                       | Some i => Some (i + 1)
                       | None => None
                       end with
                 | Some b => sbuf_append_n [] p b
                 | None => []
                 end)
                (match match rindex_of "/"%char p with
                       | Some i => Some (i + 1)
                       | None => None
                       end with
                 | Some b => sbuf_append_n [] p b
                 | None => []
                 end)
                (match match rindex_of "/"%char p with
                       | Some i => Some (i + 1)
                       | None => None
                       end with
                 | Some b => skipn (Z.to_nat b) p
                 | None => p
                 end) (dir_sep fclosure)
                (mk_world (log w) (S (S (allocs w)))) Hok) as (cont & w1 & E).
    rewrite E. eexists; reflexivity.
  - match goal with
    | |- context [roots_loop ?f ?h ?c ?p ?b ?bp ?s ?r ?dp ?w0] =>
        destruct (roots_loop_returns h c p b bp s Hok f r dp w0) as [w1 E];
          [cbn; lia | rewrite E; eexists; reflexivity]
    end.
Qed.

(** File name completion returns, whatever the prefix, the roots and the
    file system, when the active sink is one of the caller's. *)
Lemma rp_complete_filename_returns (h : host) (cenv : rp_completion_env_t)
    (id : Z) (prefix : list ascii) (sep : ascii) (roots_arg : option (list ascii))
    (w : world) :
  complete cenv = prim_complete id ->
  exists c' w', rp_complete_filename h cenv prefix sep roots_arg w = Some (c', w').
Proof.
  intros Hc. unfold rp_complete_filename, rp_complete_quoted_word.
  destruct (word_boundary_total prefix filename_non_word_chars "\"%char default_quote_chars)
    as (pos & q & Hwb).
  rewrite Hwb.
  destruct (Z.of_nat (length prefix) =? pos); [do 2 eexists; reflexivity|].
  unfold alloc. cbn [allocs log].
  destruct (mem_ok h (allocs w)); cbn [negb]; [|do 2 eexists; reflexivity].
  destruct (unescaped_word_total prefix pos q filename_non_word_chars "\"%char)
    as [word Hword].
  rewrite Hword.
  destruct (mem_ok h (S (allocs w))); cbn [negb]; [|do 2 eexists; reflexivity].
  match goal with
  | |- context [filename_completer h ?c (Some word) ?w0] =>
      destruct (filename_completer_returns h c
                  (mk_filename_closure
                     (match roots_arg with Some r => r | None => chars "." end) sep)
                  (Some word) w0) as [w1 E]
  end.
  - unfold sink_ok, set_sink, set_arg. cbn [complete closure prev_complete]. rewrite Hc.
    exact I.
  - reflexivity.
  - rewrite E. do 2 eexists; reflexivity.
Qed.


(** ** C7: absolute paths *)

Lemma opened_app (l1 l2 : list event) : opened (l1 ++ l2) = opened l1 ++ opened l2.
Proof.
  induction l1 as [|e l1 IH]; [reflexivity|].
  destruct e; simpl; rewrite IH; reflexivity.
Qed.

Lemma call_complete_opened (h : host) (f : completion_fun) (e : Z) (cl : ptr)
    (d : option (list ascii)) (r : list ascii) (db da : Z) (w : world)
    (b : bool) (w' : world) :
  call_complete h f e cl d r db da w = Some (b, w') ->
  opened (log w') = opened (log w).
Proof.
  assert (Hprim : forall id c, opened (log (snd (call_prim h id c w))) = opened (log w)).
  { intros id c. unfold call_prim, emit. cbn [snd log].
    rewrite opened_app. simpl. apply app_nil_r. }
  destruct f as [id|]; cbn [call_complete].
  - intros E. inversion E as [[Hb Hw]]. apply (Hprim id).
  - unfold word_add_completion_ex.
    destruct cl as [| |wenv| |]; try discriminate.
    destruct (rewrite_candidate wenv r) as [sb|]; [|discriminate].
    destruct (prev_complete wenv) as [id|]; [|discriminate].
    intros E. inversion E as [[Hb Hw]]. apply (Hprim id).
Qed.

Lemma propose_until_stop_opened (h : host) (cenv : rp_completion_env_t) :
  forall (cands : list (list ascii)) (w : world) (b : bool) (w' : world),
    propose_until_stop h cenv cands w = Some (b, w') ->
    opened (log w') = opened (log w).
Proof.
  induction cands as [|c cands IH]; intros w b w'; cbn [propose_until_stop].
  - intros E; inversion E; reflexivity.
  - destruct (rp_add_completion h cenv None c w) as [[b1 w1]|] eqn:E1; [|discriminate].
    apply call_complete_opened in E1.
    destruct b1.
    + intros E. apply IH in E. congruence.
    + intros E. inversion E; subst. exact E1.
Qed.

Lemma filename_complete_indir_opened (h : host) (cenv : rp_completion_env_t)
    (dir dir_prefix : stringbuf_t) (base_prefix : list ascii) (sep : ascii)
    (w : world) (b : bool) (bufs : stringbuf_t * stringbuf_t) (w' : world) :
  filename_complete_indir h cenv dir dir_prefix base_prefix sep w = Some (b, bufs, w') ->
  forall p, In p (opened (log w')) -> In p (opened (log w)) \/ p = dir.
Proof.
  rewrite filename_complete_indir_spec.
  destruct (fs_entries h dir) as [[|name rest]|].
  - intros E; inversion E; subst. intros p. unfold emit. cbn [log].
    rewrite opened_app. simpl. rewrite in_app_iff. simpl. intuition.
  - destruct (propose_until_stop _ _ _ _) as [[c w1]|] eqn:E1; [|discriminate].
    apply propose_until_stop_opened in E1.
    intros E; inversion E; subst. intros p. unfold emit in *. cbn [log] in *.
    rewrite opened_app, E1, opened_app. simpl. rewrite app_nil_r, in_app_iff.
    simpl. intuition.
  - intros E; inversion E; subst. intros p Hp. left. exact Hp.
Qed.

Lemma absolute_has_separator (p : list ascii) :
  os_path_is_absolute (Some p) = true -> exists i, rindex_of "/"%char p = Some i.
Proof.
  unfold os_path_is_absolute. destruct p as [|c t]; [discriminate|].
  rewrite char_at_cons_0. intros Hc. cbn [rindex_of].
  destruct (rindex_of "/"%char t) as [i|]; [eexists; reflexivity|].
  rewrite Hc. eexists; reflexivity.
Qed.

(** The completer on an absolute word: one directory, the one the word
    names, and nothing of the roots. *)
Lemma filename_completer_absolute (h : host) (cenv : rp_completion_env_t)
    (word : list ascii) (w : world) :
  os_path_is_absolute (Some word) = true ->
  (forall c' w',
      filename_completer h cenv (Some word) w = Some (c', w') ->
      forall p, In p (opened (log w')) -> In p (opened (log w)) \/ p = dir_portion word)
  /\ (forall sep roots1 roots2,
      log_of (filename_completer h
                (set_arg cenv (filename_closure_ptr (mk_filename_closure roots1 sep)))
                (Some word) w)
      = log_of (filename_completer h
                  (set_arg cenv (filename_closure_ptr (mk_filename_closure roots2 sep)))
                  (Some word) w)).
Proof.
  intros Habs. destruct (absolute_has_separator word Habs) as [i Hi].
  split.
  - intros c' w'. unfold filename_completer, alloc. cbn [allocs log].
    destruct (mem_ok h (allocs w) && mem_ok h (S (allocs w))).
    + destruct (arg cenv) as [| | |fclosure|]; try discriminate.
      rewrite Habs, Hi.
      destruct (filename_complete_indir _ _ _ _ _ _ _) as [[[b bufs] w3]|] eqn:E;
        [|discriminate].
      intros E'; inversion E'; subst.
      intros p Hp. apply (filename_complete_indir_opened _ _ _ _ _ _ _ _ _ _ E) in Hp.
      cbn [log] in Hp. unfold dir_portion. rewrite Hi. exact Hp.
    + intros E; inversion E; subst. intros p Hp. left. exact Hp.
  - intros sep roots1 roots2. unfold filename_completer, alloc. cbn [allocs log].
    destruct (mem_ok h (allocs w) && mem_ok h (S (allocs w))); [|reflexivity].
    unfold set_arg. cbn [arg dir_sep]. rewrite Habs, Hi.
    set (c1 := mk_cenv _ (filename_closure_ptr (mk_filename_closure roots1 sep)) _ _).
    set (c2 := mk_cenv _ (filename_closure_ptr (mk_filename_closure roots2 sep)) _ _).
    rewrite !filename_complete_indir_spec.
    destruct (fs_entries h _) as [[|name rest]|]; try reflexivity.
    assert (Hsame : forall cands w0,
               propose_until_stop h c1 cands w0 = propose_until_stop h c2 cands w0).
    { induction cands as [|c cands IH]; intros w0; [reflexivity|].
      cbn [propose_until_stop]. unfold rp_add_completion, rp_add_completion_ex.
      subst c1 c2. cbn [complete env closure].
      destruct (call_complete _ _ _ _ _ _ _ _ _) as [[[|] w1]|]; try reflexivity.
      apply IH. }
    rewrite Hsame.
    destruct (propose_until_stop _ _ _ _) as [[b w1]|]; reflexivity.
Qed.

Lemma plain_chars (prefix : list ascii) :
  plain prefix = true ->
  forall c, In c prefix ->
    mem c filename_non_word_chars = false
    /\ mem c default_quote_chars = false
    /\ c <> "\"%char /\ c <> NUL.
Proof.
  unfold plain. rewrite forallb_forall. intros H c Hc. specialize (H c Hc).
  rewrite !Bool.andb_true_iff, !Bool.negb_true_iff in H.
  destruct H as [[[H1 H2] H3] H4].
  repeat split; try assumption.
  - intros ->. discriminate.
  - intros ->. discriminate.
Qed.

Lemma plain_no_nul (prefix : list ascii) : plain prefix = true -> no_nul prefix.
Proof.
  intros H. unfold no_nul. rewrite Forall_forall. intros c Hc.
  apply (plain_chars prefix H c Hc).
Qed.

Lemma plain_word_boundary (prefix : list ascii) :
  plain prefix = true ->
  word_boundary prefix filename_non_word_chars "\"%char default_quote_chars
  = Some (0, NUL).
Proof.
  intros Hp. pose proof (plain_no_nul prefix Hp) as Hnul.
  assert (HQ : unescaped_quotes "\"%char default_quote_chars prefix = []).
  { destruct (unescaped_quotes "\"%char default_quote_chars prefix) as [|q Q] eqn:E;
      [reflexivity|].
    assert (Hin : In q (unescaped_quotes "\"%char default_quote_chars prefix))
      by (rewrite E; left; reflexivity).
    apply unescaped_quotes_in in Hin; [|lia]. destruct Hin as [Hr Hm].
    rewrite Z.sub_0_r in Hm.
    assert (Hc : In (char_at prefix q) prefix) by (apply char_at_In; lia).
    destruct (plain_chars prefix Hp _ Hc) as (_ & Hq & _). congruence. }
  destruct (quote_stage_spec prefix "\"%char default_quote_chars Hnul) as [_ Heven].
  rewrite HQ in Heven. destruct (Heven eq_refl) as [pos0 E].
  destruct (back_scan_from_end prefix filename_non_word_chars "\"%char Hnul)
    as (p & Hscan & Hbp & _ & Hsep).
  unfold word_boundary. rewrite E. cbv beta iota zeta.
  rewrite Ascii.eqb_refl, Hscan.
  destruct Hsep as [->|(j & Hj & Hb & Hs & _)]; [reflexivity|].
  exfalso. unfold separator_at in Hs. apply Bool.andb_true_iff in Hs.
  destruct Hs as [Hm _].
  assert (Hc : In (char_at prefix j) prefix).
  { apply char_at_In. destruct Hbp as [Hr _]. lia. }
  destruct (plain_chars prefix Hp _ Hc) as (Hn & _). congruence.
Qed.

Lemma unescape_loop_no_escape (nwc : list ascii) (esc : ascii) (word : list ascii)
    (wlen p0 : Z) :
  (forall i, p0 <= i < wlen -> char_at word i <> esc) ->
  forall (fuel : nat) (wpos : Z),
    p0 <= wpos ->
    (Z.to_nat (wlen - wpos) < fuel)%nat ->
    unescape_loop fuel word wlen nwc esc wpos = Some word.
Proof.
  intros Hesc. induction fuel as [|f IH]; intros wpos Hpos Hfuel; [lia|].
  cbn [unescape_loop].
  destruct (Z.ltb_spec wpos wlen); [|reflexivity].
  destruct (Z.leb_spec (str_next_ofs word wlen wpos) 0); [reflexivity|].
  destruct (Ascii.eqb_spec (char_at word wpos) esc) as [E|_].
  - exfalso. apply (Hesc wpos); [lia | exact E].
  - cbn [andb]. apply IH; lia.
Qed.

Lemma c_string_terminated (s : list ascii) : no_nul s -> c_string (s ++ [NUL]) = s.
Proof.
  intros H. induction H as [|c t Hc Ht IH]; simpl.
  - reflexivity.
  - destruct (Ascii.eqb_spec c NUL); [contradiction|]. rewrite IH. reflexivity.
Qed.

Lemma plain_unescaped_word (prefix nwc : list ascii) :
  plain prefix = true ->
  unescaped_word prefix 0 NUL nwc "\"%char = Some prefix.
Proof.
  intros Hp. unfold unescaped_word. rewrite Ascii.eqb_refl.
  unfold strdup_from. cbn [Z.to_nat skipn].
  rewrite (unescape_loop_no_escape _ _ _ _ 0); try lia.
  - rewrite c_string_terminated; [reflexivity | apply plain_no_nul, Hp].
  - intros i Hi. rewrite char_at_app_l by lia.
    apply (plain_chars prefix Hp). apply char_at_In. lia.
Qed.

(** On a plain prefix the completer is handed the prefix itself. *)
Lemma rp_complete_filename_plain (h : host) (cenv : rp_completion_env_t)
    (prefix : list ascii) (sep : ascii) (roots_arg : option (list ascii)) (w : world) :
  plain prefix = true -> prefix <> [] ->
  mem_ok h (allocs w) = true -> mem_ok h (S (allocs w)) = true ->
  rp_complete_filename h cenv prefix sep roots_arg w
  = match filename_completer h
            (set_arg
               (set_sink cenv word_add_completion_ex_fn
                  (word_closure_ptr
                     (mk_word_closure filename_non_word_chars "\"%char NUL
                        (Z.of_nat (length prefix)) (complete cenv) (env cenv))))
               (filename_closure_ptr
                  (mk_filename_closure
                     (match roots_arg with Some r => r | None => chars "." end) sep)))
            (Some prefix)
            (emit (ev_callback prefix) (mk_world (log w) (S (S (allocs w))))) with
    | Some (cenv2, w3) => Some (set_sink cenv2 (complete cenv) (env_ptr (env cenv)), w3)
    | None => None
    end.
Proof.
  intros Hp Hne Hm1 Hm2.
  unfold rp_complete_filename, rp_complete_quoted_word.
  rewrite (plain_word_boundary prefix Hp).
  destruct (Z.eqb_spec (Z.of_nat (length prefix)) 0) as [E|_].
  { destruct prefix; [contradiction | simpl in E; lia]. }
  unfold alloc. cbn [allocs log set_arg]. rewrite Hm1. cbn [negb].
  rewrite (plain_unescaped_word prefix filename_non_word_chars Hp).
  rewrite Hm2. cbn [negb]. rewrite Z.sub_0_r. reflexivity.
Qed.

Lemma rp_complete_quoted_word_alloc_fails (h : host) (cenv : rp_completion_env_t)
    (prefix : list ascii) (fn : rp_completer_fun_t)
    (nwc : option (list ascii)) (esc : ascii) (qs : option (list ascii)) (w : world) :
  mem_ok h (allocs w) = false \/ mem_ok h (S (allocs w)) = false ->
  exists w',
    rp_complete_quoted_word h cenv prefix fn nwc esc qs w = Some (cenv, w')
    /\ log w' = log w.
Proof.
  intros Hfail. unfold rp_complete_quoted_word.
  destruct (word_boundary_total prefix
              (match nwc with Some s => s | None => default_non_word_chars end) esc
              (match qs with Some s => s | None => default_quote_chars end))
    as (pos & q & Hwb).
  rewrite Hwb.
  destruct (Z.of_nat (length prefix) =? pos); [exists w; split; reflexivity|].
  unfold alloc. destruct (mem_ok h (allocs w)) eqn:Hm1; cbn [negb];
    [|eexists; split; reflexivity].
  destruct (unescaped_word_total prefix pos q
              (match nwc with Some s => s | None => default_non_word_chars end) esc)
    as [word Hword].
  rewrite Hword. cbn [allocs log].
  destruct (mem_ok h (S (allocs w))) eqn:Hm2; cbn [negb];
    [|eexists; split; reflexivity].
  destruct Hfail; discriminate.
Qed.

(** C7, as the code has it.  The completer, handed a word that is an
    absolute path, opens no directory but the one the word names, and what
    it does is the same whatever the roots.  [rp_complete_filename] hands it
    the prefix itself when the prefix is plain (no separator, quote or
    escape character in it), so that an absolute plain prefix is completed
    in the directory it names, with any roots as with none.  The prefix
    [/etc/pas] with the roots [.] and [/usr] opens [/etc/] alone. *)
Theorem absolute_word_ignores_roots :
  (forall (h : host) (cenv : rp_completion_env_t) (word : list ascii) (w : world),
      os_path_is_absolute (Some word) = true ->
      (forall c' w',
          filename_completer h cenv (Some word) w = Some (c', w') ->
          forall p, In p (opened (log w')) ->
                    In p (opened (log w)) \/ p = dir_portion word)
      /\ (forall sep roots1 roots2,
          log_of (filename_completer h
                    (set_arg cenv (filename_closure_ptr (mk_filename_closure roots1 sep)))
                    (Some word) w)
          = log_of (filename_completer h
                      (set_arg cenv (filename_closure_ptr (mk_filename_closure roots2 sep)))
                      (Some word) w)))
  /\ (forall (h : host) (cenv : rp_completion_env_t) (prefix : list ascii)
             (sep : ascii) (roots_arg : option (list ascii)) (w : world),
        plain prefix = true ->
        os_path_is_absolute (Some prefix) = true ->
        (forall c' w',
            rp_complete_filename h cenv prefix sep roots_arg w = Some (c', w') ->
            forall p, In p (opened (log w')) ->
                      In p (opened (log w)) \/ p = dir_portion prefix)
        /\ log_of (rp_complete_filename h cenv prefix sep roots_arg w)
           = log_of (rp_complete_filename h cenv prefix sep None w))
  /\ (forall (h : host) (cenv : rp_completion_env_t) (id : Z) (prefix : list ascii)
             (sep : ascii) (roots_arg : option (list ascii)) (w : world),
        complete cenv = prim_complete id ->
        exists c' w', rp_complete_filename h cenv prefix sep roots_arg w = Some (c', w'))
  /\ (let h := Scenario.table_host Scenario.etc_fs Scenario.accept_all in
      actions_of (rp_complete_filename h Scenario.top_cenv (chars "/etc/pas") NUL
                    (Some (chars ".;/usr")) Scenario.start)
      = Some [calls (chars "/etc/pas"); opens (chars "/etc/");
              proposes (chars "/etc/passwd") true; closes (chars "/etc/")]).
Proof.
  split; [|split; [|split]].
  - intros. apply filename_completer_absolute. assumption.
  - intros h cenv prefix sep roots_arg w Hp Habs.
    assert (Hne : prefix <> []) by (intros ->; discriminate).
    destruct (mem_ok h (allocs w)) eqn:Hm1;
      [destruct (mem_ok h (S (allocs w))) eqn:Hm2|].
    + rewrite !(rp_complete_filename_plain h cenv prefix sep _ w Hp Hne Hm1 Hm2).
      set (c0 := set_sink cenv word_add_completion_ex_fn _).
      set (w0 := emit (ev_callback prefix) _).
      destruct (filename_completer_absolute h c0 prefix w0 Habs) as [_ Hroots].
      split.
      * intros c' w'.
        destruct (filename_completer_absolute h
                    (set_arg c0 (filename_closure_ptr
                       (mk_filename_closure
                          (match roots_arg with Some r => r | None => chars "." end) sep)))
                    prefix w0 Habs) as [Hopen _].
        destruct (filename_completer h _ (Some prefix) w0) as [[c2 w3]|] eqn:E;
          [|discriminate].
        intros E'; inversion E'; subst.
        intros p Hin. destruct (Hopen c2 w' eq_refl p Hin) as [Hold|Hnew];
          [left | right; exact Hnew].
        subst w0. unfold emit in Hold. cbn [log] in Hold.
        rewrite opened_app in Hold. simpl in Hold. rewrite app_nil_r in Hold.
        exact Hold.
      * specialize (Hroots sep
                      (match roots_arg with Some r => r | None => chars "." end)
                      (chars ".")).
        unfold log_of in *.
        destruct (filename_completer h (set_arg c0 _) (Some prefix) w0) as [[c2 w3]|];
          destruct (filename_completer h (set_arg c0 _) (Some prefix) w0) as [[c4 w5]|];
          cbn in Hroots |- *; congruence.
    + unfold rp_complete_filename.
      destruct (rp_complete_quoted_word_alloc_fails h
                  (set_arg cenv (filename_closure_ptr
                     (mk_filename_closure
                        (match roots_arg with Some r => r | None => chars "." end) sep)))
                  prefix (fun c word => filename_completer h c (Some word))
                  (Some filename_non_word_chars) "\"%char (Some default_quote_chars) w
                  (or_intror Hm2)) as (w1 & E1 & L1).
      destruct (rp_complete_quoted_word_alloc_fails h
                  (set_arg cenv (filename_closure_ptr
                     (mk_filename_closure (chars ".") sep)))
                  prefix (fun c word => filename_completer h c (Some word))
                  (Some filename_non_word_chars) "\"%char (Some default_quote_chars) w
                  (or_intror Hm2)) as (w2 & E2 & L2).
      rewrite E1, E2. split.
      * intros c' w' E; inversion E; subst. intros p Hin. left. congruence.
      * unfold log_of. congruence.
    + unfold rp_complete_filename.
      destruct (rp_complete_quoted_word_alloc_fails h
                  (set_arg cenv (filename_closure_ptr
                     (mk_filename_closure
                        (match roots_arg with Some r => r | None => chars "." end) sep)))
                  prefix (fun c word => filename_completer h c (Some word))
                  (Some filename_non_word_chars) "\"%char (Some default_quote_chars) w
                  (or_introl Hm1)) as (w1 & E1 & L1).
      destruct (rp_complete_quoted_word_alloc_fails h
                  (set_arg cenv (filename_closure_ptr
                     (mk_filename_closure (chars ".") sep)))
                  prefix (fun c word => filename_completer h c (Some word))
                  (Some filename_non_word_chars) "\"%char (Some default_quote_chars) w
                  (or_introl Hm1)) as (w2 & E2 & L2).
      rewrite E1, E2. split.
      * intros c' w' E; inversion E; subst. intros p Hin. left. congruence.
      * unfold log_of. congruence.
  - intros h cenv id prefix sep roots_arg w Hc.
    apply (rp_complete_filename_returns h cenv id prefix sep roots_arg w Hc).
  - vm_compute. reflexivity.
Qed.

(** C7 as stated fails: the prefix [/my docs/re] is an absolute path, and
    the word completed is [docs/re], a relative one; with the root [.] the
    directory opened is [./docs], not the directory [/my docs/] of the
    prefix. *)
Lemma absolute_prefix_with_separator_uses_roots :
  let h := Scenario.table_host Scenario.docs_fs Scenario.accept_all in
  let prefix := chars "/my docs/re" in
  let r := rp_complete_filename h Scenario.top_cenv prefix "/"%char
             (Some (chars ".")) Scenario.start in
  os_path_is_absolute (Some prefix) = true
  /\ dir_portion prefix = chars "/my docs/"
  /\ actions_of r
     = Some [calls (chars "docs/re"); opens (chars "./docs");
             proposes (chars "docs/readme") true; closes (chars "./docs")]
  /\ ~ enumerates_only_directory_of prefix r.
Proof.
  cbv zeta.
  remember (rp_complete_filename _ _ _ _ _ _) as r eqn:Hr.
  vm_compute in Hr. subst r.
  split; [reflexivity|]. split; [reflexivity|].
  split; [reflexivity|].
  intros H. unfold enumerates_only_directory_of in H.
  specialize (H _ eq_refl (chars "./docs")).
  assert (Hd : chars "./docs" = dir_portion (chars "/my docs/re")).
  { apply H. cbn. left. reflexivity. }
  vm_compute in Hd. discriminate.
Qed.

(** ** The theorems at concrete inputs *)

Lemma no_nul_check (s : list ascii) :
  forallb (fun c => negb (Ascii.eqb c NUL)) s = true -> no_nul s.
Proof.
  rewrite forallb_forall. intros H. unfold no_nul. rewrite Forall_forall.
  intros c Hc. specialize (H c Hc). intros ->. discriminate.
Qed.

(** [quote_parity] on [say 'hel lo] (one quote: a quoted word from offset 5)
    and on [say 'hel' lo] (two quotes: no quote).  An escaped quote does not
    count, a quote after two escape characters does. *)
Lemma quote_parity_witness :
  unescaped_quotes "\"%char default_quote_chars (chars "say \'hel lo") = []
  /\ unescaped_quotes "\"%char default_quote_chars (chars "say \\'hel lo") = [6]
  /\ no_nul (chars "say 'hel lo")
  /\ unescaped_quotes "\"%char default_quote_chars (chars "say 'hel lo") = [4]
  /\ word_boundary (chars "say 'hel lo") default_non_word_chars "\"%char
       default_quote_chars = Some (5, "'"%char)
  /\ no_nul (chars "say 'hel' lo")
  /\ unescaped_quotes "\"%char default_quote_chars (chars "say 'hel' lo") = [4; 8]
  /\ exists pos, word_boundary (chars "say 'hel' lo") default_non_word_chars "\"%char
                   default_quote_chars = Some (pos, NUL).
Proof.
  assert (H1 : no_nul (chars "say 'hel lo")) by (apply no_nul_check; reflexivity).
  assert (H2 : no_nul (chars "say 'hel' lo")) by (apply no_nul_check; reflexivity).
  split; [reflexivity|]. split; [reflexivity|].
  split; [exact H1|]. split; [reflexivity|]. split.
  - destruct (quote_parity (chars "say 'hel lo") default_non_word_chars "\"%char
                default_quote_chars H1) as [_ [Hodd _]].
    destruct (Hodd eq_refl) as (k & _ & _ & _ & E & _). exact E.
  - split; [exact H2|]. split; [reflexivity|].
    destruct (quote_parity (chars "say 'hel' lo") default_non_word_chars "\"%char
                default_quote_chars H2) as [_ [_ Heven]].
    exact (Heven eq_refl).
Defined.

(** [backward_scan_first_separator] on [cat he\ wor]: the escaped space is
    passed and the scan stops after the space at offset 3. *)
Lemma backward_scan_first_separator_witness :
  no_nul (chars "cat he\ wor")
  /\ Z.odd (Z.of_nat (length (unescaped_quotes "\"%char default_quote_chars
                                (chars "cat he\ wor")))) = false
  /\ word_boundary (chars "cat he\ wor") default_non_word_chars "\"%char
       default_quote_chars = Some (4, NUL)
  /\ exists pos : Z,
      word_boundary (chars "cat he\ wor") default_non_word_chars "\"%char
        default_quote_chars = Some (pos, NUL)
      /\ boundary (chars "cat he\ wor") pos
      /\ (forall j, pos <= j < Z.of_nat (length (chars "cat he\ wor")) ->
                    boundary (chars "cat he\ wor") j ->
                    separator_at (chars "cat he\ wor") default_non_word_chars
                      "\"%char j = false)
      /\ (pos = 0
          \/ exists j, 0 <= j < pos /\ boundary (chars "cat he\ wor") j
                       /\ separator_at (chars "cat he\ wor") default_non_word_chars
                            "\"%char j = true
                       /\ forall k, j < k < pos ->
                                    is_cont (char_at (chars "cat he\ wor") k) = true).
Proof.
  assert (H1 : no_nul (chars "cat he\ wor")) by (apply no_nul_check; reflexivity).
  split; [exact H1|]. split; [reflexivity|]. split; [reflexivity|].
  apply (backward_scan_first_separator (chars "cat he\ wor") default_non_word_chars
           "\"%char default_quote_chars H1). reflexivity.
Defined.

(** [rewrite_layer_forwards] on the word [wor] of [say wor], with a display
    and deletions given. *)
Lemma rewrite_layer_forwards_witness :
  let h := Scenario.table_host [] Scenario.accept_all in
  complete Scenario.top_cenv = prim_complete 0
  /\ word_boundary (chars "say wor") default_non_word_chars "\"%char default_quote_chars
     = Some (4, NUL)
  /\ 4 <> Z.of_nat (length (chars "say wor"))
  /\ mem_ok h (allocs Scenario.start) = true
  /\ mem_ok h (S (allocs Scenario.start)) = true
  /\ LONG_MIN <= Z.of_nat (length (chars "say wor")) - 4 + 1 <= LONG_MAX
  /\ exists word sb cl ok,
      rewrite_candidate
        (mk_word_closure default_non_word_chars "\"%char NUL
           (Z.of_nat (length (chars "say wor")) - 4)
           (complete Scenario.top_cenv) (env Scenario.top_cenv)) (chars "wor ld")
      = Some sb
      /\ log_of (rp_complete_quoted_word h Scenario.top_cenv (chars "say wor")
                   (propose_one h (Some (chars "World")) (chars "wor ld") 1 2)
                   (Some default_non_word_chars) "\"%char (Some default_quote_chars)
                   Scenario.start)
         = Some (log Scenario.start
                 ++ [ev_callback word;
                     ev_add 0
                       (mk_completion (env Scenario.top_cenv) cl
                          (Some (chars "World")) sb
                          (Z.of_nat (length (chars "say wor")) - 4 + 1) 2) ok]).
Proof.
  cbv zeta. split; [reflexivity|]. split; [reflexivity|].
  split; [discriminate|]. split; [reflexivity|]. split; [reflexivity|].
  assert (Hrange : LONG_MIN <= Z.of_nat (length (chars "say wor")) - 4 + 1 <= LONG_MAX)
    by (unfold LONG_MIN, LONG_MAX; simpl; lia).
  split; [exact Hrange|].
  apply (proj1 (proj2 rewrite_layer_forwards)
           (Scenario.table_host [] Scenario.accept_all) Scenario.top_cenv
           (chars "say wor") default_non_word_chars "\"%char default_quote_chars
           Scenario.start 0 (Some (chars "World")) (chars "wor ld") 1 2 4 NUL);
    try reflexivity; try exact Hrange.
  discriminate.
Defined.

(** [completer_called_at_most_once] on a host with no memory left, and on an
    empty word. *)
Lemma completer_called_at_most_once_witness :
  let h := out_of_memory (Scenario.table_host [] Scenario.accept_all) in
  mem_ok h (allocs Scenario.start) = false
  /\ (exists w',
       rp_complete_quoted_word h Scenario.top_cenv (chars "pr")
         (propose_one h None (chars "print") 0 0) None "\"%char None Scenario.start
       = Some (Scenario.top_cenv, w')
       /\ log w' = log Scenario.start
       /\ callbacks (log w') = callbacks (log Scenario.start)
       /\ proposed (log w') = proposed (log Scenario.start))
  /\ word_boundary (chars "ls ") default_non_word_chars "\"%char default_quote_chars
     = Some (Z.of_nat (length (chars "ls ")), NUL)
  /\ (exists w',
       rp_complete_quoted_word (Scenario.table_host [] Scenario.accept_all)
         Scenario.top_cenv (chars "ls ")
         (propose_one h None (chars "print") 0 0) None "\"%char None Scenario.start
       = Some (Scenario.top_cenv, w')
       /\ log w' = log Scenario.start
       /\ callbacks (log w') = callbacks (log Scenario.start)
       /\ proposed (log w') = proposed (log Scenario.start)).
Proof.
  cbv zeta. split; [reflexivity|]. split.
  - apply (proj2 (completer_called_at_most_once
                    (out_of_memory (Scenario.table_host [] Scenario.accept_all))
                    Scenario.top_cenv (chars "pr") _ None "\"%char None Scenario.start)).
    right. left. reflexivity.
  - split; [reflexivity|].
    apply (proj2 (completer_called_at_most_once
                    (Scenario.table_host [] Scenario.accept_all)
                    Scenario.top_cenv (chars "ls ") _ None "\"%char None Scenario.start)).
    left. exists NUL. reflexivity.
Defined.

(** [absolute_word_ignores_roots] on the plain prefix [/etc/pas]. *)
Lemma absolute_word_ignores_roots_witness :
  let h := Scenario.table_host Scenario.etc_fs Scenario.accept_all in
  plain (chars "/etc/pas") = true
  /\ os_path_is_absolute (Some (chars "/etc/pas")) = true
  /\ dir_portion (chars "/etc/pas") = chars "/etc/"
  /\ (forall c' w',
        rp_complete_filename h Scenario.top_cenv (chars "/etc/pas") NUL
          (Some (chars ".;/usr")) Scenario.start = Some (c', w') ->
        forall p, In p (opened (log w')) ->
                  In p (opened (log Scenario.start)) \/ p = dir_portion (chars "/etc/pas"))
  /\ log_of (rp_complete_filename h Scenario.top_cenv (chars "/etc/pas") NUL
               (Some (chars ".;/usr")) Scenario.start)
     = log_of (rp_complete_filename h Scenario.top_cenv (chars "/etc/pas") NUL
                 None Scenario.start).
Proof.
  cbv zeta. split; [reflexivity|]. split; [reflexivity|]. split; [reflexivity|].
  apply (proj1 (proj2 absolute_word_ignores_roots)); reflexivity.
Defined.

(** [directory_candidates] on the directory of section 8, with a sink that
    accepts everything. *)
Lemma directory_candidates_witness :
  let h := Scenario.table_host Scenario.project_fs Scenario.accept_all in
  complete Scenario.top_cenv = prim_complete 0
  /\ (forall l c, sink_accepts h 0 l c = true)
  /\ fs_entries h (chars "./")
     = Some (chars "." :: map chars [".."; "src"; "test"; "README.md"]%string)
  /\ exists w',
      filename_complete_indir h Scenario.top_cenv (chars "./") [] (chars "sr")
        "/"%char Scenario.start
      = Some (true, (chars "./", []), w')
      /\ map action_of (log w')
         = map action_of (log Scenario.start)
           ++ [opens (chars "./")]
           ++ map (fun c => proposes c true)
                  (candidates h (chars "./") [] (chars "sr") "/"%char
                     (chars "." :: map chars [".."; "src"; "test"; "README.md"]%string))
           ++ [closes (chars "./")].
Proof.
  cbv zeta. split; [reflexivity|]. split; [intros; reflexivity|].
  split; [reflexivity|].
  apply (proj1 (proj2 (proj2 (proj2 directory_candidates)))
           (Scenario.table_host Scenario.project_fs Scenario.accept_all)
           Scenario.top_cenv 0).
  - reflexivity.
  - intros; reflexivity.
  - reflexivity.
Defined.

(** ** The round trip of escaping and unescaping *)

Lemma escaped_of_refl (nwc : list ascii) (esc : ascii) (s : list ascii) :
  escaped_of nwc esc s s.
Proof. induction s; constructor; assumption. Qed.

Lemma escaped_of_app (nwc : list ascii) (esc : ascii) (a a' b b' : list ascii) :
  escaped_of nwc esc a a' -> escaped_of nwc esc b b' ->
  escaped_of nwc esc (a ++ b) (a' ++ b').
Proof.
  intros Ha Hb. induction Ha; simpl; [assumption | |]; constructor; assumption.
Qed.

Lemma no_nul_app (a b : list ascii) : no_nul (a ++ b) <-> no_nul a /\ no_nul b.
Proof. unfold no_nul. apply Forall_app. Qed.

Lemma no_nul_cons (c : ascii) (t : list ascii) : no_nul (c :: t) <-> c <> NUL /\ no_nul t.
Proof. unfold no_nul. apply Forall_cons_iff. Qed.

Lemma sbuf_next_split (pre : list ascii) (c : ascii) (rest : list ascii) :
  sbuf_next (pre ++ c :: rest) (Z.of_nat (length pre))
  = Z.of_nat (length pre) + 1 + Z.of_nat (cont_run rest).
Proof.
  unfold sbuf_next, sbuf_len.
  replace (pre ++ c :: rest) with (pre ++ c :: rest ++ []) by (rewrite app_nil_r; reflexivity).
  rewrite str_next_ofs_split.
  - destruct (Z.leb_spec (1 + Z.of_nat (cont_run rest)) 0); lia.
  - rewrite length_app. simpl. rewrite length_app. simpl. lia.
Qed.

(** The escape loop puts escape characters before separators and changes
    nothing else. *)
Lemma escape_loop_escaped (nwc : list ascii) (esc : ascii) (len0 : Z) :
  forall (fuel : nat) (rest w_done e_done e : list ascii),
    no_nul rest ->
    len0 <= Z.of_nat (length e_done) + Z.of_nat (length rest) ->
    escaped_of nwc esc w_done e_done ->
    escape_loop fuel (e_done ++ rest) len0 nwc esc (Z.of_nat (length e_done)) = Some e ->
    escaped_of nwc esc (w_done ++ rest) e.
Proof.
  induction fuel as [|f IH]; intros rest w_done e_done e Hnul Hlen Hdone; [discriminate|].
  cbn [escape_loop].
  destruct (Z.ltb_spec (Z.of_nat (length e_done)) len0) as [Hlt|Hge].
  2:{ intros E; inversion E; subst. apply escaped_of_app; [exact Hdone | apply escaped_of_refl]. }
  destruct rest as [|c rest']; [simpl in Hlen; lia|].
  cbn [length] in Hlen.
  apply no_nul_cons in Hnul. destruct Hnul as [Hc Hnul].
  assert (Hchar : sbuf_char_at (e_done ++ c :: rest') (Z.of_nat (length e_done)) = c).
  { unfold sbuf_char_at, sbuf_len. rewrite length_app. simpl length.
    destruct (Z.ltb_spec (Z.of_nat (length e_done)) 0); [lia|].
    destruct (Z.leb_spec (Z.of_nat (length e_done + S (length rest')))
                (Z.of_nat (length e_done))); [lia|].
    apply char_at_split. }
  rewrite Hchar, (strchr_no_nul nwc c Hc).
  pose proof (cont_run_le rest') as Hr.
  destruct (mem c nwc) eqn:Hm.
  - assert (Hins : sbuf_insert_char_at (e_done ++ c :: rest') esc (Z.of_nat (length e_done))
                   = (e_done ++ [esc]) ++ c :: rest').
    { unfold sbuf_insert_char_at, sbuf_len. rewrite length_app. simpl length.
      destruct (Z.ltb_spec (Z.of_nat (length e_done)) 0); [lia|].
      destruct (Z.ltb_spec (Z.of_nat (length e_done + S (length rest')))
                  (Z.of_nat (length e_done))); [lia|].
      cbn [orb]. rewrite Nat2Z.id.
      rewrite firstn_app, firstn_all, Nat.sub_diag. cbn [firstn].
      rewrite skipn_app, skipn_all, Nat.sub_diag. cbn [skipn].
      rewrite app_nil_r, <- app_assoc. reflexivity. }
    rewrite Hins.
    replace (Z.of_nat (length e_done) + 1) with (Z.of_nat (length (e_done ++ [esc])))
      by (rewrite length_app; simpl; lia).
    rewrite sbuf_next_split.
    destruct (Z.leb_spec (Z.of_nat (length (e_done ++ [esc])) + 1
                          + Z.of_nat (cont_run rest')) 0); [lia|].
    intros E.
    replace (w_done ++ c :: rest')
      with ((w_done ++ c :: firstn (cont_run rest') rest') ++ skipn (cont_run rest') rest')
      by (rewrite <- app_assoc; simpl; rewrite firstn_skipn; reflexivity).
    apply (IH _ _ (e_done ++ esc :: c :: firstn (cont_run rest') rest')).
    + unfold no_nul in *. rewrite <- (firstn_skipn (cont_run rest') rest') in Hnul.
      apply Forall_app in Hnul. apply Hnul.
    + rewrite length_app, length_skipn. simpl length. rewrite length_firstn. lia.
    + apply escaped_of_app; [exact Hdone|].
      apply escaped_insert; [exact Hm | apply escaped_of_refl].
    + rewrite <- app_assoc. simpl app. rewrite firstn_skipn.
      rewrite <- E. f_equal.
      * rewrite <- app_assoc. reflexivity.
      * rewrite !length_app. simpl length. rewrite length_firstn. lia.
  - rewrite sbuf_next_split.
    destruct (Z.leb_spec (Z.of_nat (length e_done) + 1 + Z.of_nat (cont_run rest')) 0);
      [lia|].
    intros E.
    replace (w_done ++ c :: rest')
      with ((w_done ++ c :: firstn (cont_run rest') rest') ++ skipn (cont_run rest') rest')
      by (rewrite <- app_assoc; simpl; rewrite firstn_skipn; reflexivity).
    apply (IH _ _ (e_done ++ c :: firstn (cont_run rest') rest')).
    + unfold no_nul in *. rewrite <- (firstn_skipn (cont_run rest') rest') in Hnul.
      apply Forall_app in Hnul. apply Hnul.
    + rewrite length_app, length_skipn. simpl length. rewrite length_firstn. lia.
    + apply escaped_of_app; [exact Hdone | apply escaped_of_refl].
    + rewrite <- app_assoc. simpl app. rewrite firstn_skipn.
      rewrite <- E. f_equal.
      rewrite !length_app. simpl length. rewrite length_firstn. lia.
Qed.

Lemma escape_escaped (w nwc : list ascii) (esc : ascii) :
  no_nul w ->
  exists e, escape w nwc esc = Some e /\ escaped_of nwc esc w e.
Proof.
  intros Hnul.
  destruct (escape_loop_total nwc esc (sbuf_len w) (S (length w)) w 0) as [e E].
  { unfold sbuf_len. lia. }
  exists e. split; [exact E|].
  apply (escape_loop_escaped nwc esc (sbuf_len w) (S (length w)) w [] [] e);
    try assumption.
  - unfold sbuf_len. simpl. lia.
  - constructor.
Qed.

Lemma cont_run_pad (l pad : list ascii) :
  all_nul pad -> cont_run (l ++ pad) = cont_run l.
Proof.
  intros Hpad. induction l as [|c t IH]; simpl.
  - destruct Hpad as [|p pad' Hp _]; [reflexivity|]. subst p. reflexivity.
  - rewrite IH. reflexivity.
Qed.

Lemma skipn_app_exact (a b : list ascii) (n : nat) :
  skipn (length a + n) (a ++ b) = skipn n b.
Proof. induction a as [|x a IH]; [reflexivity | exact IH]. Qed.

Lemma firstn_app_exact (a b : list ascii) : firstn (length a) (a ++ b) = a.
Proof. induction a as [|x a IH]; [reflexivity | simpl; rewrite IH; reflexivity]. Qed.

Lemma memmove_left_remove (done : list ascii) (x : ascii) (T : list ascii) (z : ascii) :
  memmove_left (done ++ x :: T ++ [z]) (Z.of_nat (length done)) (Z.of_nat (length T) + 1)
  = done ++ T ++ [z; z].
Proof.
  unfold memmove_left.
  rewrite Nat2Z.id.
  replace (Z.to_nat (Z.of_nat (length done) + 1)) with (length done + 1)%nat by lia.
  replace (Z.to_nat (Z.of_nat (length T) + 1)) with (length (T ++ [z]))
    by (rewrite length_app; simpl; lia).
  replace (Z.to_nat (Z.of_nat (length done) + (Z.of_nat (length T) + 1)))
    with (length done + S (length T + 0))%nat by lia.
  rewrite firstn_app_exact, !skipn_app_exact. cbn [skipn].
  rewrite firstn_all, skipn_app_exact. cbn [skipn].
  rewrite <- app_assoc. reflexivity.
Qed.

Lemma unescaped_cons2 (nwc : list ascii) (esc c d : ascii) (t : list ascii) :
  unescaped nwc esc (c :: d :: t)
  = if Ascii.eqb c esc && mem d nwc then d :: unescaped nwc esc t
    else c :: unescaped nwc esc (d :: t).
Proof. reflexivity. Qed.

Lemma unescaped_cons_other (nwc : list ascii) (esc c : ascii) (t : list ascii) :
  Ascii.eqb c esc = false -> unescaped nwc esc (c :: t) = c :: unescaped nwc esc t.
Proof.
  intros Hc. cbn [unescaped]. destruct t as [|d t']; rewrite Hc; reflexivity.
Qed.

Lemma unescaped_conts (nwc : list ascii) (esc : ascii) (l : list ascii) :
  is_cont esc = false ->
  unescaped nwc esc l
  = firstn (cont_run l) l ++ unescaped nwc esc (skipn (cont_run l) l).
Proof.
  intros Hesc. induction l as [|c t IH]; [reflexivity|].
  cbn [cont_run]. destruct (is_cont c) eqn:Hc; [|reflexivity].
  cbn [firstn skipn app]. rewrite unescaped_cons_other, IH; [reflexivity|].
  apply Ascii.eqb_neq. intros ->. congruence.
Qed.

Lemma char_at_all_nul (l : list ascii) (i : Z) : all_nul l -> char_at l i = NUL.
Proof.
  intros H. unfold char_at. destruct (i <? 0); [reflexivity|].
  destruct (Nat.lt_ge_cases (Z.to_nat i) (length l)) as [Hlt|Hge].
  - unfold all_nul in H. rewrite Forall_forall in H. apply H, nth_In, Hlt.
  - apply nth_overflow, Hge.
Qed.

Lemma unescape_loop_in_padding (nwc : list ascii) (esc : ascii) (wlen : Z)
    (done tail : list ascii) :
  esc <> NUL -> all_nul tail ->
  forall (fuel : nat) (wpos : Z),
    Z.of_nat (length done) <= wpos ->
    (Z.to_nat (wlen - wpos) < fuel)%nat ->
    unescape_loop fuel (done ++ tail) wlen nwc esc wpos = Some (done ++ tail).
Proof.
  intros Hesc Htail fuel wpos Hpos Hfuel.
  apply (unescape_loop_no_escape _ _ _ _ (Z.of_nat (length done))); try assumption.
  intros i Hi.
  replace i with (Z.of_nat (length done) + (i - Z.of_nat (length done))) by lia.
  rewrite char_at_app_r by lia. rewrite char_at_all_nul by assumption.
  intros E. apply Hesc. symmetry. exact E.
Qed.

Lemma c_string_all_nul_tail (done tail : list ascii) :
  no_nul done -> all_nul tail -> c_string (done ++ tail) = done.
Proof.
  intros H Ht. induction H as [|c t Hc Hdone IH]; simpl.
  - destruct Ht as [|p tail' Hp _]; [reflexivity|]. subst p. reflexivity.
  - destruct (Ascii.eqb_spec c NUL); [contradiction|]. rewrite IH. reflexivity.
Qed.

(** The unescape loop, byte by byte. *)
Lemma unescape_loop_unescaped (nwc : list ascii) (esc : ascii) (wlen : Z) :
  esc <> NUL -> is_cont esc = false ->
  (forall c, mem c nwc = true -> is_cont c = false) ->
  forall (fuel : nat) (rest done pad : list ascii),
    no_nul done -> no_nul rest -> all_nul pad ->
    wlen = Z.of_nat (length done) + Z.of_nat (length rest) + Z.of_nat (length pad) ->
    (Z.to_nat (wlen - Z.of_nat (length done)) < fuel)%nat ->
    exists buf,
      unescape_loop fuel (done ++ rest ++ pad ++ [NUL]) wlen nwc esc
        (Z.of_nat (length done)) = Some buf
      /\ c_string buf = done ++ unescaped nwc esc rest.
Proof.
  intros Hesc Hesc_cont Hnwc.
  induction fuel as [|f IH]; intros rest done pad Hdone Hrest Hpad Hlen Hfuel; [lia|].
  assert (Hpadn : all_nul (pad ++ [NUL])).
  { apply Forall_app. split; [exact Hpad | repeat constructor]. }
  destruct rest as [|c rest_tail].
  - (* only padding is left *)
    cbn [app].
    rewrite (unescape_loop_in_padding nwc esc wlen done (pad ++ [NUL]) Hesc Hpadn) by lia.
    eexists. split; [reflexivity|].
    rewrite c_string_all_nul_tail by assumption.
    cbn [unescaped]. rewrite app_nil_r. reflexivity.
  - cbn [length] in Hlen.
    apply no_nul_cons in Hrest. destruct Hrest as [Hc Hrest].
    assert (Hword : done ++ (c :: rest_tail) ++ pad ++ [NUL]
                    = done ++ c :: (rest_tail ++ pad) ++ [NUL]).
    { cbn [app]. rewrite <- app_assoc. reflexivity. }
    rewrite Hword. cbn [unescape_loop].
    destruct (Z.ltb_spec (Z.of_nat (length done)) wlen); [|lia].
    rewrite (str_next_ofs_split done c (rest_tail ++ pad) [NUL] wlen)
      by (rewrite length_app; lia).
    rewrite cont_run_pad by assumption.
    destruct (Z.leb_spec (1 + Z.of_nat (cont_run rest_tail)) 0); [lia|].
    rewrite char_at_split.
    assert (Hnext : char_at (done ++ c :: (rest_tail ++ pad) ++ [NUL])
                      (Z.of_nat (length done) + 1)
                    = char_at ((rest_tail ++ pad) ++ [NUL]) 0).
    { rewrite char_at_app_r by lia. apply (char_at_cons_succ c _ 0). lia. }
    rewrite Hnext.
    pose proof (cont_run_le rest_tail) as Hr.
    (* the step that removes nothing *)
    assert (Hkeep : exists buf,
               unescape_loop f (done ++ c :: (rest_tail ++ pad) ++ [NUL]) wlen nwc esc
                 (Z.of_nat (length done) + (1 + Z.of_nat (cont_run rest_tail))) = Some buf
               /\ c_string buf
                  = done ++ c :: firstn (cont_run rest_tail) rest_tail
                    ++ unescaped nwc esc (skipn (cont_run rest_tail) rest_tail)).
    { destruct (IH (skipn (cont_run rest_tail) rest_tail)
                  (done ++ c :: firstn (cont_run rest_tail) rest_tail) pad)
        as (buf & E & Hs).
      - apply no_nul_app. split; [exact Hdone|]. apply no_nul_cons. split; [exact Hc|].
        unfold no_nul in *. rewrite <- (firstn_skipn (cont_run rest_tail) rest_tail) in Hrest.
        apply Forall_app in Hrest. apply Hrest.
      - unfold no_nul in *. rewrite <- (firstn_skipn (cont_run rest_tail) rest_tail) in Hrest.
        apply Forall_app in Hrest. apply Hrest.
      - exact Hpad.
      - rewrite length_app, length_skipn. cbn [length]. rewrite length_firstn. lia.
      - rewrite length_app. cbn [length]. rewrite length_firstn. lia.
      - exists buf. split.
        + rewrite <- E. f_equal.
          * flatten_app. do 2 f_equal.
            rewrite (app_assoc (firstn _ _) (skipn _ _)), firstn_skipn. reflexivity.
          * rewrite length_app. cbn [length]. rewrite length_firstn. lia.
        + rewrite Hs, <- app_assoc. reflexivity. }
    destruct (Ascii.eqb c esc) eqn:Hce.
    + destruct rest_tail as [|d rest''].
      * (* the escape character is the last byte of the word *)
        cbn [app].
        rewrite (char_at_all_nul (pad ++ [NUL]) 0 Hpadn).
        unfold strchr at 1. rewrite Ascii.eqb_refl. cbn [orb andb].
        replace (wlen - Z.of_nat (length done)) with (Z.of_nat (length pad) + 1)
          by (cbn [length] in Hlen; lia).
        rewrite memmove_left_remove.
        assert (Htail : all_nul (pad ++ [NUL; NUL])).
        { apply Forall_app. split; [exact Hpad | repeat constructor]. }
        rewrite (unescape_loop_in_padding nwc esc wlen done (pad ++ [NUL; NUL]) Hesc Htail)
          by lia.
        eexists. split; [reflexivity|].
        rewrite c_string_all_nul_tail by assumption.
        cbn [unescaped]. rewrite Hce, app_nil_r. reflexivity.
      * apply no_nul_cons in Hrest. destruct Hrest as [Hd Hrest].
        cbn [app]. rewrite char_at_cons_0. rewrite (strchr_no_nul nwc d Hd).
        destruct (mem d nwc) eqn:Hm; cbn [andb].
        -- (* an escaped separator: the escape character is removed *)
           replace (wlen - Z.of_nat (length done))
             with (Z.of_nat (length (d :: rest'' ++ pad)) + 1)
             by (cbn [length] in *; rewrite length_app; lia).
           change (done ++ c :: d :: (rest'' ++ pad) ++ [NUL])
             with (done ++ c :: (d :: rest'' ++ pad) ++ [NUL]).
           rewrite memmove_left_remove.
           cbn [cont_run]. rewrite (Hnwc d Hm).
           destruct (IH rest'' (done ++ [d]) (pad ++ [NUL])) as (buf & E & Hs).
           ++ apply no_nul_app. split; [exact Hdone|]. apply no_nul_cons.
              split; [exact Hd | constructor].
           ++ exact Hrest.
           ++ exact Hpadn.
           ++ rewrite !length_app. cbn [length] in *. lia.
           ++ rewrite length_app. cbn [length]. lia.
           ++ exists buf. split.
              ** rewrite <- E. f_equal.
                 --- flatten_app. reflexivity.
                 --- rewrite length_app. cbn [length]. lia.
              ** rewrite Hs, <- app_assoc, unescaped_cons2, Hce, Hm. reflexivity.
        -- (* an escape character before anything else stays *)
           destruct Hkeep as (buf & E & Hs). exists buf. split; [exact E|].
           rewrite Hs, unescaped_cons2, Hce, Hm. cbn [andb].
           rewrite (unescaped_conts nwc esc (d :: rest'') Hesc_cont). reflexivity.
    + cbn [andb]. destruct Hkeep as (buf & E & Hs). exists buf. split; [exact E|].
      rewrite Hs, (unescaped_cons_other nwc esc c rest_tail Hce).
      rewrite (unescaped_conts nwc esc rest_tail Hesc_cont). reflexivity.
Qed.

Lemma unescape_unescaped (e nwc : list ascii) (esc : ascii) :
  esc <> NUL -> is_cont esc = false ->
  (forall c, mem c nwc = true -> is_cont c = false) ->
  no_nul e ->
  unescape e nwc esc = Some (unescaped nwc esc e).
Proof.
  intros Hesc Hcont Hnwc Hnul. unfold unescape, strdup_from. cbn [Z.to_nat skipn].
  destruct (unescape_loop_unescaped nwc esc (Z.of_nat (length e)) Hesc Hcont Hnwc
              (S (length e)) e [] []) as (buf & E & Hs).
  - constructor.
  - exact Hnul.
  - constructor.
  - cbn [length]. lia.
  - cbn [length]. lia.
  - cbn [app length] in E. change (Z.of_nat 0) with 0 in E.
    rewrite E, Hs. reflexivity.
Qed.

Lemma ambiguous_tail (nwc : list ascii) (esc c : ascii) (t : list ascii) :
  ambiguous nwc esc (c :: t) = false -> ambiguous nwc esc t = false.
Proof.
  destruct t as [|d t']; [reflexivity|].
  cbn [ambiguous]. intros H. apply Bool.orb_false_iff in H. apply H.
Qed.

Lemma last_tail (esc c : ascii) (t : list ascii) :
  esc <> NUL -> last (c :: t) NUL <> esc -> last t NUL <> esc.
Proof.
  intros Hesc. destruct t as [|d t']; [intros _ E; apply Hesc; symmetry; exact E|].
  intros H. exact H.
Qed.

(** Unescaping what was escaped gives the word back, when no escape
    character of the word stands before a separator or at its end. *)
Lemma unescaped_of_escaped (nwc : list ascii) (esc : ascii) (w e : list ascii) :
  esc <> NUL ->
  escaped_of nwc esc w e ->
  ambiguous nwc esc w = false ->
  last w NUL <> esc ->
  unescaped nwc esc e = w.
Proof.
  intros Hesc H. induction H as [|c t t' H IH|c t t' Hm H IH]; intros Hamb Hlast.
  - reflexivity.
  - destruct t' as [|d t''].
    + inversion H; subst. cbn [unescaped].
      destruct (Ascii.eqb_spec c esc) as [E|_]; [|reflexivity].
      exfalso. apply Hlast. exact E.
    + rewrite unescaped_cons2.
      assert (Hno : Ascii.eqb c esc && mem d nwc = false).
      { destruct (Ascii.eqb c esc) eqn:Hc; [|reflexivity]. cbn [andb].
        destruct (mem d nwc) eqn:Hd; [|reflexivity]. exfalso.
        inversion H; subst.
        - cbn [ambiguous] in Hamb. rewrite Hc, Hd in Hamb. discriminate.
        - cbn [ambiguous] in Hamb. rewrite Hc in Hamb.
          match goal with Hq : mem _ nwc = true |- _ => rewrite Hq in Hamb end.
          discriminate. }
      rewrite Hno. f_equal. apply IH.
      * apply (ambiguous_tail nwc esc c t Hamb).
      * apply (last_tail esc c t Hesc Hlast).
  - rewrite unescaped_cons2, Ascii.eqb_refl, Hm. cbn [andb]. f_equal. apply IH.
    + apply (ambiguous_tail nwc esc c t Hamb).
    + apply (last_tail esc c t Hesc Hlast).
Qed.

Lemma escaped_of_no_nul (nwc : list ascii) (esc : ascii) (w e : list ascii) :
  esc <> NUL -> escaped_of nwc esc w e -> no_nul w -> no_nul e.
Proof.
  intros Hesc H. induction H as [|c t t' H IH|c t t' Hm H IH]; intros Hw.
  - constructor.
  - apply no_nul_cons in Hw. apply no_nul_cons. split; [apply Hw | apply IH, Hw].
  - apply no_nul_cons in Hw. apply no_nul_cons. split; [exact Hesc|].
    apply no_nul_cons. split; [apply Hw | apply IH, Hw].
Qed.

(** X1.  The round trip of C2, with what the code needs besides: the word
    does not end with the escape character (and the escape character and the
    separators are single bytes, no continuation bytes and not NUL). *)
Theorem round_trip_without_trailing_escape (w nwc : list ascii) (esc : ascii) :
  no_nul w ->
  esc <> NUL -> is_cont esc = false ->
  (forall c, mem c nwc = true -> is_cont c = false) ->
  ambiguous nwc esc w = false ->
  last w NUL <> esc ->
  exists e,
    escape w nwc esc = Some e
    /\ escaped_of nwc esc w e
    /\ unescape e nwc esc = Some w.
Proof.
  intros Hw Hesc Hcont Hnwc Hamb Hlast.
  destruct (escape_escaped w nwc esc Hw) as (e & E & Hrel).
  exists e. split; [exact E|]. split; [exact Hrel|].
  rewrite (unescape_unescaped e nwc esc Hesc Hcont Hnwc
             (escaped_of_no_nul nwc esc w e Hesc Hrel Hw)).
  f_equal. apply (unescaped_of_escaped nwc esc w e Hesc Hrel Hamb Hlast).
Qed.

(** [round_trip_without_trailing_escape] on a name with two spaces and an
    escape character inside. *)
Lemma round_trip_without_trailing_escape_witness :
  no_nul (chars "my\docs dir x")
  /\ "\"%char <> NUL
  /\ is_cont "\"%char = false
  /\ (forall c, mem c default_non_word_chars = true -> is_cont c = false)
  /\ ambiguous default_non_word_chars "\"%char (chars "my\docs dir x") = false
  /\ last (chars "my\docs dir x") NUL <> "\"%char
  /\ escape (chars "my\docs dir x") default_non_word_chars "\"%char
     = Some (chars "my\docs\ dir\ x")
  /\ exists e,
      escape (chars "my\docs dir x") default_non_word_chars "\"%char = Some e
      /\ escaped_of default_non_word_chars "\"%char (chars "my\docs dir x") e
      /\ unescape e default_non_word_chars "\"%char = Some (chars "my\docs dir x").
Proof.
  assert (H1 : no_nul (chars "my\docs dir x")) by (apply no_nul_check; reflexivity).
  assert (H2 : "\"%char <> NUL) by discriminate.
  assert (H3 : forall c, mem c default_non_word_chars = true -> is_cont c = false).
  { intros c Hc. unfold mem, default_non_word_chars in Hc. cbn [existsb] in Hc.
    repeat (apply Bool.orb_true_iff in Hc; destruct Hc as [Hc|Hc];
            [apply Ascii.eqb_eq in Hc; subst c; reflexivity|]).
    discriminate. }
  assert (H4 : last (chars "my\docs dir x") NUL <> "\"%char) by (cbn; discriminate).
  split; [exact H1|]. split; [exact H2|]. split; [reflexivity|]. split; [exact H3|].
  split; [reflexivity|]. split; [exact H4|]. split; [reflexivity|].
  exact (round_trip_without_trailing_escape (chars "my\docs dir x")
           default_non_word_chars "\"%char H1 H2 eq_refl H3 eq_refl H4).
Defined.

(** ** Stopping inside one directory *)

(** The answers of the sinks, in order. *)
Lemma call_complete_log (h : host) (f : completion_fun) (e : Z) (cl : ptr)
    (d : option (list ascii)) (r : list ascii) (db da : Z) (w : world)
    (b : bool) (w' : world) :
  call_complete h f e cl d r db da w = Some (b, w') ->
  exists id c, log w' = log w ++ [ev_add id c b].
Proof.
  destruct f as [id|]; cbn [call_complete].
  - intros E. inversion E; subst. do 2 eexists. reflexivity.
  - unfold word_add_completion_ex.
    destruct cl as [| |wenv| |]; try discriminate.
    destruct (rewrite_candidate wenv r) as [sb|]; [|discriminate].
    destruct (prev_complete wenv) as [id|]; [|discriminate].
    intros E. inversion E; subst. do 2 eexists. reflexivity.
Qed.

Lemma propose_until_stop_declined (h : host) (cenv : rp_completion_env_t) :
  forall (cands : list (list ascii)) (w w' : world),
    propose_until_stop h cenv cands w = Some (false, w') ->
    exists evs k,
      log w' = log w ++ evs
      /\ (k < length cands)%nat
      /\ map snd (proposed evs) = repeat true k ++ [false]
      /\ length evs = S k.
Proof.
  induction cands as [|c cands IH]; intros w w'; cbn [propose_until_stop];
    [discriminate|].
  destruct (rp_add_completion h cenv None c w) as [[b w1]|] eqn:E1; [|discriminate].
  apply call_complete_log in E1. destruct E1 as (id & cc & L1).
  destruct b.
  - intros E. destruct (IH _ _ E) as (evs & k & L & Hk & Hans & Hlen).
    exists (ev_add id cc true :: evs), (S k).
    split; [rewrite L, L1, <- app_assoc; reflexivity|].
    split; [cbn [length]; lia|].
    split; [cbn [proposed map repeat app snd]; rewrite Hans; reflexivity|].
    cbn [length]. lia.
  - intros E. inversion E; subst.
    exists [ev_add id cc false], O.
    split; [exact L1|]. split; [cbn [length]; lia|]. split; reflexivity.
Qed.

(** X2.  Inside one directory a declined candidate is the last one proposed,
    and the directory is closed right after it. *)
Theorem stop_within_directory (h : host) (cenv : rp_completion_env_t)
    (dir dir_prefix : stringbuf_t) (base_prefix : list ascii) (sep : ascii)
    (w : world) (bufs : stringbuf_t * stringbuf_t) (w' : world) :
  filename_complete_indir h cenv dir dir_prefix base_prefix sep w
  = Some (false, bufs, w') ->
  exists evs k,
    log w' = log w ++ [ev_open dir] ++ evs ++ [ev_close dir]
    /\ map snd (proposed evs) = repeat true k ++ [false]
    /\ length evs = S k.
Proof.
  rewrite filename_complete_indir_spec.
  destruct (fs_entries h dir) as [[|name rest]|]; try discriminate.
  destruct (propose_until_stop _ _ _ _) as [[b w1]|] eqn:E; [|discriminate].
  intros E'. inversion E'; subst.
  destruct (propose_until_stop_declined _ _ _ _ _ E) as (evs & k & L & _ & Hans & Hlen).
  exists evs, k. split; [|split; assumption].
  unfold emit in *. cbn [log] in *. rewrite L, <- !app_assoc. reflexivity.
Qed.

(** [stop_within_directory] on a directory with two matching entries and a
    sink that declines. *)
Lemma stop_within_directory_witness :
  let h := Scenario.table_host Scenario.two_roots_fs Scenario.reject_all in
  exists w',
    filename_complete_indir h Scenario.top_cenv (chars "./") [] (chars "li") "/"%char
      Scenario.start = Some (false, (chars "./", []), w')
    /\ exists evs k,
        log w' = log Scenario.start ++ [ev_open (chars "./")] ++ evs ++ [ev_close (chars "./")]
        /\ map snd (proposed evs) = repeat true k ++ [false]
        /\ length evs = S k.
Proof.
  cbv zeta.
  destruct (filename_complete_indir
              (Scenario.table_host Scenario.two_roots_fs Scenario.reject_all)
              Scenario.top_cenv (chars "./") [] (chars "li") "/"%char Scenario.start)
    as [[[b bufs] w']|] eqn:E; [|vm_compute in E; discriminate].
  assert (Hb : b = false /\ bufs = (chars "./", []))
    by (vm_compute in E; inversion E; split; reflexivity).
  destruct Hb as [-> ->].
  exists w'. split; [reflexivity|].
  exact (stop_within_directory _ _ _ _ _ _ _ _ _ E).
Defined.

(** [rp_complete_quoted_word_sink_after] on a call that reaches the
    completer, from an environment whose closure argument is null. *)
Lemma rp_complete_quoted_word_sink_after_witness :
  let h := Scenario.table_host [] Scenario.accept_all in
  closure Scenario.top_cenv = NULL
  /\ exists c w,
      rp_complete_quoted_word h Scenario.top_cenv (chars "pr") propose_nothing
        None "\"%char None Scenario.start = Some (c, w)
      /\ complete c = complete Scenario.top_cenv
      /\ closure c = env_ptr (env Scenario.top_cenv).
Proof.
  cbv zeta. split; [reflexivity|].
  destruct (rp_complete_quoted_word (Scenario.table_host [] Scenario.accept_all)
              Scenario.top_cenv (chars "pr") propose_nothing None "\"%char None
              Scenario.start) as [[c w]|] eqn:E; [|vm_compute in E; discriminate].
  exists c, w. split; [reflexivity|].
  destruct (rp_complete_quoted_word_sink_after _ _ _ _ _ _ _ _ _ _ E)
    as (pos & q & Hwb & Hafter).
  assert (Hpos : pos = 0) by (vm_compute in Hwb; congruence).
  subst pos.
  destruct Hafter as (word & cenv2 & _ & _ & Hc & Hcl).
  split; assumption.
Defined.

(** ** The escape loop, separator by separator *)

Lemma escape_within_past (nwc : list ascii) (esc : ascii) (len : Z) (r : list ascii) :
  forall p, len <= p -> escape_within nwc esc len p r = r.
Proof.
  induction r as [|c t IH]; intros p Hp; [reflexivity|].
  cbn [escape_within]. destruct (Z.ltb_spec p len); [lia|].
  rewrite Bool.andb_false_r, IH by lia. reflexivity.
Qed.

Lemma escape_within_conts (nwc : list ascii) (esc : ascii) (len : Z) (l : list ascii) :
  (forall c, mem c nwc = true -> is_cont c = false) ->
  forall p,
    escape_within nwc esc len p l
    = firstn (cont_run l) l
      ++ escape_within nwc esc len (p + Z.of_nat (cont_run l)) (skipn (cont_run l) l).
Proof.
  intros Hnwc. induction l as [|c t IH]; intros p; [reflexivity|].
  cbn [cont_run]. destruct (is_cont c) eqn:Hc.
  - cbn [firstn skipn app escape_within].
    destruct (mem c nwc) eqn:Hm; [rewrite (Hnwc c Hm) in Hc; discriminate|].
    cbn [andb]. rewrite IH.
    replace (p + Z.of_nat (S (cont_run t))) with (p + 1 + Z.of_nat (cont_run t)) by lia.
    reflexivity.
  - cbn [firstn skipn app]. replace (p + Z.of_nat 0) with p by lia. reflexivity.
Qed.

Lemma escape_loop_within (nwc : list ascii) (esc : ascii) (len0 : Z) :
  (forall c, mem c nwc = true -> is_cont c = false) ->
  forall (fuel : nat) (rest e_done : list ascii),
    no_nul rest ->
    len0 <= Z.of_nat (length e_done) + Z.of_nat (length rest) ->
    (Z.to_nat (len0 - Z.of_nat (length e_done)) < fuel)%nat ->
    escape_loop fuel (e_done ++ rest) len0 nwc esc (Z.of_nat (length e_done))
    = Some (e_done ++ escape_within nwc esc len0 (Z.of_nat (length e_done)) rest).
Proof.
  intros Hnwc.
  induction fuel as [|f IH]; intros rest e_done Hnul Hlen Hfuel; [lia|].
  cbn [escape_loop].
  destruct (Z.ltb_spec (Z.of_nat (length e_done)) len0) as [Hlt|Hge].
  2:{ rewrite escape_within_past by lia. reflexivity. }
  destruct rest as [|c rest']; [simpl in Hlen; lia|].
  cbn [length] in Hlen.
  apply no_nul_cons in Hnul. destruct Hnul as [Hc Hnul].
  assert (Hchar : sbuf_char_at (e_done ++ c :: rest') (Z.of_nat (length e_done)) = c).
  { unfold sbuf_char_at, sbuf_len. rewrite length_app. simpl length.
    destruct (Z.ltb_spec (Z.of_nat (length e_done)) 0); [lia|].
    destruct (Z.leb_spec (Z.of_nat (length e_done + S (length rest')))
                (Z.of_nat (length e_done))); [lia|].
    apply char_at_split. }
  rewrite Hchar, (strchr_no_nul nwc c Hc).
  pose proof (cont_run_le rest') as Hr.
  assert (Hsplit : no_nul (skipn (cont_run rest') rest')).
  { unfold no_nul in *. rewrite <- (firstn_skipn (cont_run rest') rest') in Hnul.
    apply Forall_app in Hnul. apply Hnul. }
  cbn [escape_within].
  destruct (Z.ltb_spec (Z.of_nat (length e_done)) len0) as [_|]; [|lia].
  destruct (mem c nwc) eqn:Hm; cbn [andb].
  - assert (Hins : sbuf_insert_char_at (e_done ++ c :: rest') esc (Z.of_nat (length e_done))
                   = (e_done ++ [esc]) ++ c :: rest').
    { unfold sbuf_insert_char_at, sbuf_len. rewrite length_app. simpl length.
      destruct (Z.ltb_spec (Z.of_nat (length e_done)) 0); [lia|].
      destruct (Z.ltb_spec (Z.of_nat (length e_done + S (length rest')))
                  (Z.of_nat (length e_done))); [lia|].
      cbn [orb]. rewrite Nat2Z.id.
      rewrite firstn_app_exact.
      replace (length e_done) with (length e_done + 0)%nat at 1 by lia.
      rewrite skipn_app_exact. cbn [skipn].
      rewrite <- app_assoc. reflexivity. }
    rewrite Hins.
    replace (Z.of_nat (length e_done) + 1) with (Z.of_nat (length (e_done ++ [esc])))
      by (rewrite length_app; simpl; lia).
    rewrite sbuf_next_split.
    destruct (Z.leb_spec (Z.of_nat (length (e_done ++ [esc])) + 1
                          + Z.of_nat (cont_run rest')) 0); [lia|].
    rewrite (escape_within_conts nwc esc len0 rest' Hnwc).
    specialize (IH (skipn (cont_run rest') rest')
                  (e_done ++ esc :: c :: firstn (cont_run rest') rest') Hsplit).
    rewrite !length_app in IH. cbn [length] in IH. rewrite length_firstn, length_skipn in IH.
    rewrite length_app. cbn [length].
    replace (Z.of_nat (length e_done + 1) + 1 + Z.of_nat (cont_run rest'))
      with (Z.of_nat (length e_done + S (S (Nat.min (cont_run rest') (length rest')))))
      by lia.
    replace ((e_done ++ [esc]) ++ c :: rest')
      with ((e_done ++ esc :: c :: firstn (cont_run rest') rest')
            ++ skipn (cont_run rest') rest')
      by (flatten_app; rewrite firstn_skipn; reflexivity).
    replace (Z.of_nat (length e_done) + 2 + Z.of_nat (cont_run rest'))
      with (Z.of_nat (length e_done + S (S (Nat.min (cont_run rest') (length rest')))))
      by lia.
    rewrite IH by lia. flatten_app. reflexivity.
  - rewrite sbuf_next_split.
    destruct (Z.leb_spec (Z.of_nat (length e_done) + 1 + Z.of_nat (cont_run rest')) 0);
      [lia|].
    rewrite (escape_within_conts nwc esc len0 rest' Hnwc).
    specialize (IH (skipn (cont_run rest') rest')
                  (e_done ++ c :: firstn (cont_run rest') rest') Hsplit).
    rewrite !length_app in IH. cbn [length] in IH. rewrite length_firstn, length_skipn in IH.
    replace (Z.of_nat (length e_done) + 1 + Z.of_nat (cont_run rest'))
      with (Z.of_nat (length e_done + S (Nat.min (cont_run rest') (length rest'))))
      by lia.
    replace (e_done ++ c :: rest')
      with ((e_done ++ c :: firstn (cont_run rest') rest') ++ skipn (cont_run rest') rest')
      by (flatten_app; rewrite firstn_skipn; reflexivity).
    rewrite IH by lia. flatten_app. reflexivity.
Qed.

Lemma escape_is_escape_within (r nwc : list ascii) (esc : ascii) :
  no_nul r ->
  (forall c, mem c nwc = true -> is_cont c = false) ->
  escape r nwc esc = Some (escape_within nwc esc (Z.of_nat (length r)) 0 r).
Proof.
  intros Hnul Hnwc. unfold escape, sbuf_len.
  apply (escape_loop_within nwc esc (Z.of_nat (length r)) Hnwc (S (length r)) r []);
    try assumption; cbn [length]; lia.
Qed.


Lemma rewrite_candidate_rewritten (wenv : word_closure_t) (r : list ascii) :
  no_nul r ->
  (forall c, mem c (non_word_chars wenv) = true -> is_cont c = false) ->
  rewrite_candidate wenv r
  = Some (rewritten (non_word_chars wenv) (escape_char wenv) (quote wenv) r).
Proof.
  intros Hnul Hnwc. unfold rewrite_candidate, rewritten.
  destruct (Ascii.eqb (quote wenv) NUL); cbn [negb].
  - apply escape_is_escape_within; assumption.
  - reflexivity.
Qed.

(** X4. Lines 35-52 of [word_add_completion_ex], for every candidate: inside
    quotes the candidate is followed by the quote character and nothing is
    escaped; outside quotes a separator receives the escape character exactly
    when the offset it has reached in the buffer, its offset in the candidate
    plus the number of escape characters inserted before it, is below the
    length of the candidate. *)
Theorem rewrite_candidate_exact (wenv : word_closure_t) (r : list ascii) :
  no_nul r ->
  (forall c, mem c (non_word_chars wenv) = true -> is_cont c = false) ->
  rewrite_candidate wenv r
  = Some (if Ascii.eqb (quote wenv) NUL
          then escape_within (non_word_chars wenv) (escape_char wenv)
                 (Z.of_nat (length r)) 0 r
          else r ++ [quote wenv]).
Proof.
  intros Hnul Hnwc. unfold rewrite_candidate.
  destruct (Ascii.eqb (quote wenv) NUL); cbn [negb].
  - apply escape_is_escape_within; assumption.
  - reflexivity.
Qed.

Lemma from_last_separator_le (nwc r : list ascii) :
  (from_last_separator nwc r <= length r)%nat.
Proof.
  induction r as [|c t IH]; [apply Nat.le_refl|].
  cbn [from_last_separator length].
  destruct (from_last_separator nwc t); [destruct (mem c nwc)|]; lia.
Qed.

Lemma from_last_separator_none (nwc r : list ascii) :
  from_last_separator nwc r = O <-> separators nwc r = O.
Proof.
  unfold separators. induction r as [|c t IH]; [split; reflexivity|].
  cbn [from_last_separator filter].
  destruct (mem c nwc); cbn [length];
    destruct (from_last_separator nwc t); split; intros H;
    try discriminate; try reflexivity; try (apply IH; assumption).
Qed.

Lemma escape_every_length (nwc : list ascii) (esc : ascii) (r : list ascii) :
  (length r <= length (escape_every nwc esc r))%nat.
Proof.
  induction r as [|c t IH]; [apply Nat.le_refl|].
  cbn [escape_every]. destruct (mem c nwc); cbn [length]; lia.
Qed.

Lemma escape_within_every (nwc : list ascii) (esc : ascii) (len : Z) (r : list ascii) :
  forall p,
    escape_within nwc esc len p r = escape_every nwc esc r
    <-> (separators nwc r = O
         \/ p + Z.of_nat (length r) + Z.of_nat (separators nwc r)
            <= len + Z.of_nat (from_last_separator nwc r)).
Proof.
  induction r as [|c t IH]; intros p.
  - split; [left|]; reflexivity.
  - pose proof (from_last_separator_le nwc t) as Hle.
    pose proof (from_last_separator_none nwc t) as Hnone.
    cbn [escape_within escape_every from_last_separator].
    unfold separators in *. cbn [filter].
    destruct (mem c nwc) eqn:Hm; cbn [andb length].
    + destruct (Z.ltb_spec p len) as [Hlt|Hge].
      * split.
        -- intros H. injection H as H. apply IH in H. right.
           destruct (from_last_separator nwc t) as [|n] eqn:Hf.
           ++ assert (length (filter (fun c => mem c nwc) t) = O) by (apply Hnone; reflexivity).
              lia.
           ++ destruct H as [H|H]; [apply Hnone in H; discriminate|lia].
        -- intros [H|H]; [discriminate|]. do 2 f_equal. apply IH.
           destruct (from_last_separator nwc t) as [|n] eqn:Hf.
           ++ left. apply Hnone. reflexivity.
           ++ right. lia.
      * split.
        -- intros H. exfalso.
           rewrite escape_within_past in H by lia.
           apply (f_equal (@length ascii)) in H. cbn [length] in H.
           pose proof (escape_every_length nwc esc t). lia.
        -- intros [H|H]; [discriminate|]. exfalso.
           destruct (from_last_separator nwc t) as [|n]; lia.
    + assert (Hsame : match from_last_separator nwc t with O => O | S n => S n end
                      = from_last_separator nwc t)
        by (destruct (from_last_separator nwc t); reflexivity).
      rewrite Hsame. split.
      * intros H. injection H as H. apply IH in H. destruct H as [H|H]; [left; exact H|right; lia].
      * intros H. f_equal. apply IH. destruct H as [H|H]; [left; exact H|right; lia].
Qed.

(** X5. Outside quotes the escape loop of [word_add_completion_ex] escapes
    every separator of a candidate exactly when the candidate has no more
    separators than it has bytes from its last separator to its end: the loop
    bound is the length read before any escape character was inserted. *)
Theorem escape_complete_iff (wenv : word_closure_t) (r : list ascii) :
  no_nul r ->
  (forall c, mem c (non_word_chars wenv) = true -> is_cont c = false) ->
  quote wenv = NUL ->
  (rewrite_candidate wenv r
   = Some (escape_every (non_word_chars wenv) (escape_char wenv) r)
   <-> (separators (non_word_chars wenv) r
        <= from_last_separator (non_word_chars wenv) r)%nat).
Proof.
  intros Hnul Hnwc Hq.
  rewrite (rewrite_candidate_rewritten wenv r Hnul Hnwc). unfold rewritten.
  rewrite Hq, Ascii.eqb_refl.
  pose proof (escape_within_every (non_word_chars wenv) (escape_char wenv)
                (Z.of_nat (length r)) r 0) as Hiff.
  pose proof (from_last_separator_none (non_word_chars wenv) r) as Hnone.
  split.
  - intros H. injection H as H. apply Hiff in H. destruct H as [H|H]; lia.
  - intros H. f_equal. apply Hiff.
    destruct (separators (non_word_chars wenv) r) eqn:Hs; [left; reflexivity|right; lia].
Qed.

(** ** The word cut out of the prefix *)

Lemma no_nul_skipn (n : nat) (s : list ascii) : no_nul s -> no_nul (skipn n s).
Proof.
  intros H. rewrite <- (firstn_skipn n s) in H. apply no_nul_app in H. apply H.
Qed.

Lemma word_boundary_range (prefix nwc : list ascii) (esc : ascii) (qs : list ascii) :
  no_nul prefix ->
  exists pos q,
    word_boundary prefix nwc esc qs = Some (pos, q)
    /\ 0 <= pos <= Z.of_nat (length prefix)
    /\ (q <> NUL ->
        1 <= pos /\ char_at prefix (pos - 1) = q /\ mem q qs = true).
Proof.
  intros Hnul.
  destruct (quote_stage_spec prefix esc qs Hnul) as [Hodd Heven].
  unfold word_boundary.
  destruct (Z.odd (Z.of_nat (length (unescaped_quotes esc qs prefix)))) eqn:Ho.
  - rewrite (Hodd eq_refl).
    set (Q := unescaped_quotes esc qs prefix) in *.
    assert (Hne : Q <> []) by (intros E; rewrite E in Ho; discriminate).
    pose proof (last_In Q 0 Hne) as Hin.
    apply unescaped_quotes_in in Hin; [|lia].
    destruct Hin as [Hr Hm]. rewrite Z.sub_0_r in Hm.
    assert (Hq : char_at prefix (last Q 0) <> NUL) by (apply char_at_no_nul; [exact Hnul|lia]).
    destruct (Ascii.eqb_spec (char_at prefix (last Q 0)) NUL) as [E|_]; [contradiction|].
    do 2 eexists. split; [reflexivity|]. split; [lia|].
    intros _. replace (last Q 0 + 1 - 1) with (last Q 0) by lia.
    split; [lia|]. split; [reflexivity|exact Hm].
  - destruct (Heven eq_refl) as [pos E]. rewrite E. cbn [Ascii.eqb].
    rewrite Ascii.eqb_refl.
    destruct (back_scan_from_end prefix nwc esc Hnul) as (p & Ep & Hb & _).
    rewrite Ep. do 2 eexists. split; [reflexivity|].
    split; [apply Hb|]. intros H. contradiction H. reflexivity.
Qed.

Lemma word_boundary_unquoted (prefix nwc : list ascii) (esc : ascii) (qs : list ascii)
    (pos : Z) :
  no_nul prefix ->
  word_boundary prefix nwc esc qs = Some (pos, NUL) ->
  Z.odd (Z.of_nat (length (unescaped_quotes esc qs prefix))) = false
  /\ back_scan (S (length prefix)) prefix nwc esc (Z.of_nat (length prefix)) = Some pos.
Proof.
  intros Hnul E.
  destruct (quote_stage_spec prefix esc qs Hnul) as [Hodd Heven].
  unfold word_boundary in E.
  destruct (Z.odd (Z.of_nat (length (unescaped_quotes esc qs prefix)))) eqn:Ho.
  - exfalso. rewrite (Hodd eq_refl) in E.
    set (Q := unescaped_quotes esc qs prefix) in *.
    assert (Hne : Q <> []) by (intros EQ; rewrite EQ in Ho; discriminate).
    pose proof (last_In Q 0 Hne) as Hin.
    apply unescaped_quotes_in in Hin; [|lia]. destruct Hin as [Hr _].
    assert (Hq : char_at prefix (last Q 0) <> NUL)
      by (apply char_at_no_nul; [exact Hnul|lia]).
    destruct (Ascii.eqb_spec (char_at prefix (last Q 0)) NUL) as [|_]; [contradiction|].
    injection E as _ Eq. contradiction.
  - split; [reflexivity|].
    destruct (Heven eq_refl) as [pos0 E0]. rewrite E0, Ascii.eqb_refl in E.
    destruct (back_scan _ _ _ _ _) as [p|]; [|discriminate].
    injection E as <-. reflexivity.
Qed.

Lemma word_boundary_even (prefix nwc : list ascii) (esc : ascii) (qs : list ascii) :
  no_nul prefix ->
  Z.odd (Z.of_nat (length (unescaped_quotes esc qs prefix))) = false ->
  word_boundary prefix nwc esc qs
  = match back_scan (S (length prefix)) prefix nwc esc (Z.of_nat (length prefix)) with
    | Some p => Some (p, NUL)
    | None => None
    end.
Proof.
  intros Hnul Ho.
  destruct (quote_stage_spec prefix esc qs Hnul) as [_ Heven].
  destruct (Heven Ho) as [pos0 E0].
  unfold word_boundary. rewrite E0, Ascii.eqb_refl. reflexivity.
Qed.

Lemma unescaped_word_spec (prefix nwc : list ascii) (esc : ascii) (pos : Z) (q : ascii) :
  no_nul prefix -> esc <> NUL -> is_cont esc = false ->
  (forall c, mem c nwc = true -> is_cont c = false) ->
  0 <= pos <= Z.of_nat (length prefix) ->
  unescaped_word prefix pos q nwc esc
  = Some (if Ascii.eqb q NUL then unescaped nwc esc (skipn (Z.to_nat pos) prefix)
          else skipn (Z.to_nat pos) prefix).
Proof.
  intros Hnul Hesc Hcont Hnwc Hpos. unfold unescaped_word, strdup_from.
  pose proof (no_nul_skipn (Z.to_nat pos) prefix Hnul) as Hs.
  destruct (Ascii.eqb q NUL).
  - destruct (unescape_loop_unescaped nwc esc (Z.of_nat (length prefix) - pos)
                Hesc Hcont Hnwc (S (Z.to_nat (Z.of_nat (length prefix) - pos)))
                (skipn (Z.to_nat pos) prefix) [] []) as (buf & E & Hbuf).
    + constructor.
    + exact Hs.
    + constructor.
    + cbn [length]. rewrite length_skipn. lia.
    + cbn [length]. lia.
    + cbn [app length] in E. change (Z.of_nat 0) with 0 in E.
      rewrite E, Hbuf. reflexivity.
  - rewrite c_string_terminated by exact Hs. reflexivity.
Qed.

(** X6. Lines 67-153 of [rp_complete_quoted_word], for every prefix: the
    word starts inside the prefix (and, when it is quoted, directly after a
    quote character of the quote set); when it is not empty and both
    allocations succeed, the completer is called once, with the rewrite layer
    installed over the sink and the environment active before, with the
    length of the raw word as the number of bytes to delete, and with this
    word: inside quotes the bytes after the open quote as they are, outside
    quotes those bytes with the escape character removed where a separator
    follows it or nothing follows it. *)
Theorem word_handed_to_completer (h : host) (cenv : rp_completion_env_t)
    (prefix : list ascii) (fn : rp_completer_fun_t) (nwc : list ascii) (esc : ascii)
    (qs : list ascii) (w : world) :
  no_nul prefix -> esc <> NUL -> is_cont esc = false ->
  (forall c, mem c nwc = true -> is_cont c = false) ->
  exists pos q,
    word_boundary prefix nwc esc qs = Some (pos, q)
    /\ 0 <= pos <= Z.of_nat (length prefix)
    /\ (q <> NUL -> 1 <= pos /\ char_at prefix (pos - 1) = q /\ mem q qs = true)
    /\ (pos < Z.of_nat (length prefix) ->
        mem_ok h (allocs w) = true -> mem_ok h (S (allocs w)) = true ->
        let word :=
          if Ascii.eqb q NUL then unescaped nwc esc (skipn (Z.to_nat pos) prefix)
          else skipn (Z.to_nat pos) prefix in
        let wenv :=
          mk_word_closure nwc esc q (Z.of_nat (length prefix) - pos)
            (complete cenv) (env cenv) in
        rp_complete_quoted_word h cenv prefix fn (Some nwc) esc (Some qs) w
        = match fn (set_sink cenv word_add_completion_ex_fn (word_closure_ptr wenv))
                  word
                  (emit (ev_callback word) (mk_world (log w) (S (S (allocs w))))) with
          | None => None
          | Some (cenv2, w3) =>
              Some (set_sink cenv2 (complete cenv) (env_ptr (env cenv)), w3)
          end).
Proof.
  intros Hnul Hesc Hcont Hnwc.
  destruct (word_boundary_range prefix nwc esc qs Hnul) as (pos & q & E & Hr & Hq).
  exists pos, q. split; [exact E|]. split; [exact Hr|]. split; [exact Hq|].
  intros Hlt Hm1 Hm2 word wenv.
  unfold rp_complete_quoted_word. rewrite E.
  destruct (Z.eqb_spec (Z.of_nat (length prefix)) pos); [lia|].
  unfold alloc. cbn [allocs log]. rewrite Hm1. cbn [negb].
  rewrite (unescaped_word_spec prefix nwc esc pos q Hnul Hesc Hcont Hnwc Hr).
  rewrite Hm2. cbn [negb]. reflexivity.
Qed.

(** ** The loop over the roots *)

Lemma split_on_first (c : ascii) (s : list ascii) :
  split_on c s
  = match index_of c s with
    | None => [s]
    | Some k => firstn (Z.to_nat k) s :: split_on c (skipn (Z.to_nat (k + 1)) s)
    end.
Proof.
  induction s as [|d t IH]; [reflexivity|].
  cbn [split_on index_of]. destruct (Ascii.eqb d c).
  - reflexivity.
  - rewrite IH. destruct (index_of c t) as [k|] eqn:E; [|reflexivity].
    apply index_of_range in E.
    replace (Z.to_nat (k + 1)) with (S (Z.to_nat k)) by lia.
    replace (Z.to_nat (k + 1 + 1)) with (S (S (Z.to_nat k))) by lia.
    reflexivity.
Qed.

Lemma roots_loop_each (h : host) (cenv : rp_completion_env_t)
    (word : list ascii) (sep : ascii) (dir_prefix : list ascii) :
  forall (fuel : nat) (r : list ascii) (w : world),
    (length r + 2 <= fuel)%nat ->
    roots_loop fuel h cenv word
      (match rindex_of "/"%char word with Some i => Some (i + 1) | None => None end)
      (base_name word) sep (Some r) dir_prefix w
    = complete_in_each h cenv (map (directory_below word) (split_on ";"%char r))
        dir_prefix (base_name word) sep w.
Proof.
  induction fuel as [|f IH]; intros r w Hfuel; [lia|].
  cbn [roots_loop]. rewrite (split_on_first ";"%char r).
  destruct (index_of ";"%char r) as [k|] eqn:Ek.
  - pose proof (index_of_range _ _ _ Ek) as Hk.
    cbn [map complete_in_each].
    assert (Hdir : match rindex_of "/"%char word with
                   | Some i =>
                       match Some (i + 1) with
                       | Some b =>
                           sbuf_append_n (sbuf_append_char (sbuf_append_n [] r k) "/"%char)
                             word (b - 1)
                       | None => sbuf_append_char (sbuf_append_n [] r k) "/"%char
                       end
                   | None => sbuf_append_char (sbuf_append_n [] r k) "/"%char
                   end = directory_below word (firstn (Z.to_nat k) r)).
    { unfold directory_below, sbuf_append_n, sbuf_append_char. cbn [app].
      destruct (rindex_of "/"%char word) as [i|]; [|reflexivity].
      replace (i + 1 - 1) with i by lia. reflexivity. }
    destruct (rindex_of "/"%char word) as [i|] eqn:Ei.
    + rewrite Hdir.
      rewrite (filename_complete_indir_spec h cenv
                 (directory_below word (firstn (Z.to_nat k) r))).
      destruct (fs_entries h (directory_below word (firstn (Z.to_nat k) r)))
        as [[|name rest]|].
      * apply IH. rewrite length_skipn. lia.
      * destruct (propose_until_stop h cenv _ _) as [[cont w1]|]; [|reflexivity].
        apply IH. rewrite length_skipn. lia.
      * apply IH. rewrite length_skipn. lia.
    + rewrite Hdir.
      rewrite (filename_complete_indir_spec h cenv
                 (directory_below word (firstn (Z.to_nat k) r))).
      destruct (fs_entries h (directory_below word (firstn (Z.to_nat k) r)))
        as [[|name rest]|].
      * apply IH. rewrite length_skipn. lia.
      * destruct (propose_until_stop h cenv _ _) as [[cont w1]|]; [|reflexivity].
        apply IH. rewrite length_skipn. lia.
      * apply IH. rewrite length_skipn. lia.
  - cbn [map complete_in_each].
    assert (Hdir : match rindex_of "/"%char word with
                   | Some i =>
                       match Some (i + 1) with
                       | Some b =>
                           sbuf_append_n (sbuf_append_char (sbuf_append [] r) "/"%char)
                             word (b - 1)
                       | None => sbuf_append_char (sbuf_append [] r) "/"%char
                       end
                   | None => sbuf_append_char (sbuf_append [] r) "/"%char
                   end = directory_below word r).
    { unfold directory_below, sbuf_append_n, sbuf_append_char, sbuf_append. cbn [app].
      destruct (rindex_of "/"%char word) as [i|]; [|reflexivity].
      replace (i + 1 - 1) with i by lia. reflexivity. }
    assert (Hf : exists f', f = S f') by (destruct f; [lia|eexists; reflexivity]).
    destruct Hf as [f' ->].
    destruct (rindex_of "/"%char word) as [i|] eqn:Ei.
    + rewrite Hdir.
      destruct (filename_complete_indir h cenv (directory_below word r) dir_prefix
                  (base_name word) sep w) as [[[cont bufs] w1]|]; [|reflexivity].
      destruct bufs. reflexivity.
    + rewrite Hdir.
      destruct (filename_complete_indir h cenv (directory_below word r) dir_prefix
                  (base_name word) sep w) as [[[cont bufs] w1]|]; [|reflexivity].
      destruct bufs. reflexivity.
Qed.

(** ** File name completion, directory by directory *)

Lemma filename_non_word_chars_not_cont (c : ascii) :
  mem c filename_non_word_chars = true -> is_cont c = false.
Proof.
  intros Hc. unfold mem, filename_non_word_chars, default_non_word_chars, chars in Hc.
  cbn [list_ascii_of_string app existsb] in Hc.
  repeat (apply Bool.orb_true_iff in Hc; destruct Hc as [Hc|Hc];
          [apply Ascii.eqb_eq in Hc; subst c; reflexivity|]).
  discriminate.
Qed.

Lemma filename_completer_each (h : host) (cenv : rp_completion_env_t)
    (fclosure : filename_closure_t) (word : list ascii) (w : world) :
  arg cenv = filename_closure_ptr fclosure ->
  mem_ok h (allocs w) = true -> mem_ok h (S (allocs w)) = true ->
  filename_completer h cenv (Some word) w
  = match complete_in_each h cenv (directories_for word (roots fclosure))
            (dir_portion word) (base_name word) (dir_sep fclosure)
            (mk_world (log w) (S (S (allocs w)))) with
    | Some w3 => Some (cenv, w3)
    | None => None
    end.
Proof.
  intros Harg Hm1 Hm2. unfold filename_completer, alloc. cbn [allocs log].
  rewrite Hm1, Hm2, Harg. cbn [andb]. unfold directories_for.
  destruct (os_path_is_absolute (Some word)) eqn:Habs.
  - cbn [complete_in_each]. unfold dir_portion, base_name, sbuf_append_n.
    destruct (rindex_of "/"%char word) as [i|]; cbn [app].
    + destruct (filename_complete_indir h cenv _ _ _ _ _) as [[[cont bufs] w3]|];
        reflexivity.
    + destruct (filename_complete_indir h cenv _ _ _ _ _) as [[[cont bufs] w3]|];
        reflexivity.
  - pose proof (roots_loop_each h cenv word (dir_sep fclosure) (dir_portion word)
                  (S (S (length (roots fclosure)))) (roots fclosure)
                  (mk_world (log w) (S (S (allocs w))))) as Hloop.
    unfold dir_portion, base_name, sbuf_append_n in *.
    destruct (rindex_of "/"%char word) as [i|]; cbn [app] in *;
      (rewrite Hloop by lia); reflexivity.
Qed.

Lemma rp_complete_filename_each (h : host) (cenv : rp_completion_env_t)
    (prefix : list ascii) (sep : ascii) (roots_arg : option (list ascii)) (w : world)
    (pos : Z) (q : ascii) :
  no_nul prefix ->
  word_boundary prefix filename_non_word_chars "\"%char default_quote_chars
  = Some (pos, q) ->
  pos < Z.of_nat (length prefix) ->
  (forall n, mem_ok h n = true) ->
  let word := word_of prefix filename_non_word_chars "\"%char pos q in
  let wenv :=
    mk_word_closure filename_non_word_chars "\"%char q (Z.of_nat (length prefix) - pos)
      (complete cenv) (env cenv) in
  let cenv1 :=
    set_sink (set_arg cenv (filename_closure_of roots_arg sep))
      word_add_completion_ex_fn (word_closure_ptr wenv) in
  rp_complete_filename h cenv prefix sep roots_arg w
  = match complete_in_each h cenv1
            (directories_for word (match roots_arg with Some r => r | None => chars "." end))
            (dir_portion word) (base_name word) sep
            (mk_world (log w ++ [ev_callback word]) (S (S (S (S (allocs w)))))) with
    | Some w3 =>
        Some (set_sink (set_arg cenv (filename_closure_of roots_arg sep))
                (complete cenv) (env_ptr (env cenv)), w3)
    | None => None
    end.
Proof.
  intros Hnul E Hlt Hmem word wenv cenv1.
  destruct (word_boundary_range prefix filename_non_word_chars "\"%char
              default_quote_chars Hnul) as (pos' & q' & E' & Hr & _).
  rewrite E in E'. injection E' as <- <-.
  unfold rp_complete_filename, rp_complete_quoted_word. rewrite E.
  destruct (Z.eqb_spec (Z.of_nat (length prefix)) pos); [lia|].
  unfold alloc. cbn [allocs log set_arg env complete]. rewrite !Hmem. cbn [negb].
  rewrite (unescaped_word_spec prefix filename_non_word_chars "\"%char pos q Hnul)
    by (try discriminate; try reflexivity; try exact Hr;
        apply filename_non_word_chars_not_cont).
  fold (word_of prefix filename_non_word_chars "\"%char pos q). fold word.
  rewrite (filename_completer_each h _
             (mk_filename_closure (match roots_arg with Some r => r | None => chars "." end) sep)
             word) by (try reflexivity; apply Hmem).
  cbn [roots dir_sep emit log allocs].
  fold wenv.
  destruct (complete_in_each h _ _ _ _ _ _) as [w3|]; reflexivity.
Qed.

Lemma closed_app (l1 l2 : list event) : closed (l1 ++ l2) = closed l1 ++ closed l2.
Proof.
  induction l1 as [|e l1 IH]; [reflexivity|].
  destruct e; simpl; rewrite IH; reflexivity.
Qed.

Lemma propose_until_stop_closed (h : host) (cenv : rp_completion_env_t) :
  forall (cands : list (list ascii)) (w : world) (b : bool) (w' : world),
    propose_until_stop h cenv cands w = Some (b, w') ->
    closed (log w') = closed (log w).
Proof.
  induction cands as [|c rest IH]; intros w b w' E; cbn [propose_until_stop] in E.
  - inversion E; subst. reflexivity.
  - destruct (rp_add_completion h cenv None c w) as [[ok w1]|] eqn:Ea; [|discriminate].
    unfold rp_add_completion, rp_add_completion_ex in Ea.
    apply call_complete_log in Ea. destruct Ea as (id & c0 & Hlog).
    assert (Hc : closed (log w1) = closed (log w)).
    { rewrite Hlog, closed_app. cbn [closed]. apply app_nil_r. }
    destruct ok.
    + rewrite (IH _ _ _ E). exact Hc.
    + inversion E; subst. exact Hc.
Qed.

Lemma filename_complete_indir_handles (h : host) (cenv : rp_completion_env_t)
    (dir dir_prefix : stringbuf_t) (base_prefix : list ascii) (sep : ascii)
    (w : world) (b : bool) (bufs : stringbuf_t * stringbuf_t) (w' : world) :
  filename_complete_indir h cenv dir dir_prefix base_prefix sep w = Some (b, bufs, w') ->
  opened (log w') = opened (log w) ++ openable h [dir]
  /\ closed (log w') = closed (log w) ++ listable h [dir].
Proof.
  rewrite filename_complete_indir_spec. unfold openable, listable. cbn [filter].
  destruct (fs_entries h dir) as [[|name rest]|].
  - intros E. inversion E; subst. cbn [emit log].
    rewrite opened_app, closed_app. cbn [opened closed]. rewrite app_nil_r.
    split; reflexivity.
  - destruct (propose_until_stop h cenv _ _) as [[cont w1]|] eqn:Ep; [|discriminate].
    intros E. inversion E; subst. cbn [emit log].
    rewrite opened_app, closed_app. cbn [opened closed].
    rewrite (propose_until_stop_opened _ _ _ _ _ _ Ep),
            (propose_until_stop_closed _ _ _ _ _ _ Ep).
    cbn [emit log]. rewrite opened_app, closed_app. cbn [opened closed].
    rewrite !app_nil_r. split; reflexivity.
  - intros E. inversion E; subst. rewrite !app_nil_r. split; reflexivity.
Qed.

Lemma complete_in_each_handles (h : host) (cenv : rp_completion_env_t)
    (dir_prefix base_prefix : list ascii) (sep : ascii) :
  forall (dirs : list (list ascii)) (w w' : world),
    complete_in_each h cenv dirs dir_prefix base_prefix sep w = Some w' ->
    opened (log w') = opened (log w) ++ openable h dirs
    /\ closed (log w') = closed (log w) ++ listable h dirs.
Proof.
  induction dirs as [|d ds IH]; intros w w' E; cbn [complete_in_each] in E.
  - inversion E; subst. unfold openable, listable. cbn [filter].
    rewrite !app_nil_r. split; reflexivity.
  - destruct (filename_complete_indir h cenv d dir_prefix base_prefix sep w)
      as [[[cont bufs] w1]|] eqn:Ed; [|discriminate].
    apply filename_complete_indir_handles in Ed. destruct Ed as [Ho Hc].
    apply IH in E. destruct E as [Ho' Hc'].
    rewrite Ho', Hc', Ho, Hc. unfold openable, listable. cbn [filter].
    destruct (fs_entries h d) as [[|name rest]|]; cbn [app];
      rewrite ?app_nil_r, <- ?app_assoc; split; reflexivity.
Qed.

Lemma complete_in_each_returns (h : host) (cenv : rp_completion_env_t)
    (dir_prefix base_prefix : list ascii) (sep : ascii) :
  sink_ok cenv ->
  forall (dirs : list (list ascii)) (w : world),
    exists w', complete_in_each h cenv dirs dir_prefix base_prefix sep w = Some w'.
Proof.
  intros Hok. induction dirs as [|d ds IH]; intros w; cbn [complete_in_each].
  - eexists. reflexivity.
  - destruct (filename_complete_indir_returns h cenv d dir_prefix base_prefix sep w Hok)
      as (cont & w1 & E).
    rewrite E. apply IH.
Qed.

Lemma rp_complete_filename_handles (h : host) (cenv : rp_completion_env_t) (id : Z)
    (prefix : list ascii) (sep : ascii) (roots_arg : option (list ascii)) (w : world)
    (pos : Z) (q : ascii) :
  no_nul prefix ->
  word_boundary prefix filename_non_word_chars "\"%char default_quote_chars
  = Some (pos, q) ->
  pos < Z.of_nat (length prefix) ->
  (forall n, mem_ok h n = true) ->
  complete cenv = prim_complete id ->
  exists c' w',
    rp_complete_filename h cenv prefix sep roots_arg w = Some (c', w')
    /\ opened (log w')
       = opened (log w)
         ++ openable h
              (directories_for (word_of prefix filename_non_word_chars "\"%char pos q)
                 (match roots_arg with Some r => r | None => chars "." end))
    /\ closed (log w')
       = closed (log w)
         ++ listable h
              (directories_for (word_of prefix filename_non_word_chars "\"%char pos q)
                 (match roots_arg with Some r => r | None => chars "." end)).
Proof.
  intros Hnul E Hlt Hmem Hsink.
  rewrite (rp_complete_filename_each h cenv prefix sep roots_arg w pos q Hnul E Hlt Hmem).
  match goal with
  | |- context [complete_in_each h ?c ?ds ?dp ?bp ?s ?w0] =>
      destruct (complete_in_each_returns h c dp bp s) with (dirs := ds) (w := w0)
        as [w3 E3];
      [unfold sink_ok; cbn [set_sink set_arg complete closure prev_complete];
       rewrite Hsink; exact I|]
  end.
  rewrite E3. do 2 eexists. split; [reflexivity|].
  apply complete_in_each_handles in E3. cbn [log] in E3.
  rewrite opened_app, closed_app in E3. cbn [opened closed] in E3.
  rewrite !app_nil_r in E3. exact E3.
Qed.

(** X7. Lines 297-362, the directories [rp_complete_filename] searches for a
    word it hands to [filename_completer]: for an absolute word the
    directory portion of the word and nothing else; for a relative word,
    for each item of the root list in the order of the list (the items are
    what stands between the [';'], an empty item included), the item, a
    ['/'] and the directory portion of the word.  Each is tried once, and
    those that can be opened are opened in that order. *)
Theorem directories_searched (h : host) (cenv : rp_completion_env_t) (id : Z)
    (prefix : list ascii) (sep : ascii) (roots_arg : option (list ascii)) (w : world)
    (pos : Z) (q : ascii) :
  no_nul prefix ->
  word_boundary prefix filename_non_word_chars "\"%char default_quote_chars
  = Some (pos, q) ->
  pos < Z.of_nat (length prefix) ->
  (forall n, mem_ok h n = true) ->
  complete cenv = prim_complete id ->
  exists c' w',
    rp_complete_filename h cenv prefix sep roots_arg w = Some (c', w')
    /\ opened (log w')
       = opened (log w)
         ++ openable h
              (directories_for (word_of prefix filename_non_word_chars "\"%char pos q)
                 (match roots_arg with Some r => r | None => chars "." end)).
Proof.
  intros Hnul E Hlt Hmem Hsink.
  destruct (rp_complete_filename_handles h cenv id prefix sep roots_arg w pos q
              Hnul E Hlt Hmem Hsink) as (c' & w' & Er & Ho & _).
  exists c', w'. split; assumption.
Qed.

Lemma listable_openable (h : host) (dirs : list (list ascii)) :
  listable h (openable h dirs) = listable h dirs.
Proof.
  unfold listable, openable. induction dirs as [|d ds IH]; [reflexivity|].
  cbn [filter]. destruct (fs_entries h d) as [[|name rest]|] eqn:E;
    cbn [filter]; rewrite ?E, IH; reflexivity.
Qed.

(** X8. Lines 229-243 and 264-290 over a whole run of
    [rp_complete_filename]: of the directories the run opened, those that
    gave an entry to read are closed, in the order they were opened and
    whatever the sink answered; one that gave no entry is not closed, since
    [os_findfirst] then reports failure with the handle open. *)
Theorem directories_closed (h : host) (cenv : rp_completion_env_t) (id : Z)
    (prefix : list ascii) (sep : ascii) (roots_arg : option (list ascii)) (w : world)
    (pos : Z) (q : ascii) :
  no_nul prefix ->
  word_boundary prefix filename_non_word_chars "\"%char default_quote_chars
  = Some (pos, q) ->
  pos < Z.of_nat (length prefix) ->
  (forall n, mem_ok h n = true) ->
  complete cenv = prim_complete id ->
  exists c' w' dirs,
    rp_complete_filename h cenv prefix sep roots_arg w = Some (c', w')
    /\ opened (log w') = opened (log w) ++ dirs
    /\ closed (log w') = closed (log w) ++ listable h dirs.
Proof.
  intros Hnul E Hlt Hmem Hsink.
  destruct (rp_complete_filename_handles h cenv id prefix sep roots_arg w pos q
              Hnul E Hlt Hmem Hsink) as (c' & w' & Er & Ho & Hc).
  exists c', w'. eexists. split; [exact Er|]. split; [exact Ho|].
  rewrite listable_openable. exact Hc.
Qed.

(** ** What reaches the caller's sink *)

Lemma forwarded_app (l1 l2 : list event) :
  forwarded (l1 ++ l2) = forwarded l1 ++ forwarded l2.
Proof.
  induction l1 as [|e l1 IH]; [reflexivity|].
  destruct e; simpl; rewrite IH; reflexivity.
Qed.

Lemma propose_until_stop_rewritten (h : host) (cenv : rp_completion_env_t)
    (wenv : word_closure_t) (id : Z) :
  complete cenv = word_add_completion_ex_fn ->
  closure cenv = word_closure_ptr wenv ->
  prev_complete wenv = prim_complete id ->
  (forall l c, sink_accepts h id l c = true) ->
  (forall c, mem c (non_word_chars wenv) = true -> is_cont c = false) ->
  forall (cands : list (list ascii)) (w : world),
    Forall no_nul cands ->
    exists w',
      propose_until_stop h cenv cands w = Some (true, w')
      /\ forwarded (log w')
         = forwarded (log w)
           ++ map (fun c => (Some c,
                             rewritten (non_word_chars wenv) (escape_char wenv) (quote wenv) c,
                             delete_before_adjust wenv, 0)) cands.
Proof.
  intros Hc Hcl Hprev Hacc Hnwc.
  induction cands as [|c rest IH]; intros w Hnul; cbn [propose_until_stop].
  - eexists. split; [reflexivity|]. cbn [map]. rewrite app_nil_r. reflexivity.
  - inversion Hnul as [|c0 rest0 Hc0 Hrest]; subst.
    unfold rp_add_completion, rp_add_completion_ex. rewrite Hc, Hcl.
    cbn [call_complete word_add_completion_ex].
    rewrite (rewrite_candidate_rewritten wenv c Hc0 Hnwc), Hprev.
    unfold call_prim. rewrite Hacc.
    match goal with
    | |- context [propose_until_stop h cenv rest ?w0] =>
        destruct (IH w0 Hrest) as (w' & E & Hf)
    end.
    exists w'. split; [exact E|].
    rewrite Hf. cbn [emit log]. rewrite forwarded_app.
    cbn [forwarded c_display c_replacement c_delete_before c_delete_after map].
    rewrite <- app_assoc, long_add_0_r. reflexivity.
Qed.

Lemma candidates_no_nul (h : host) (dir dir_prefix base_prefix : list ascii)
    (sep : ascii) (entries : list (list ascii)) :
  no_nul dir_prefix -> Forall no_nul entries ->
  Forall no_nul (candidates h dir dir_prefix base_prefix sep entries).
Proof.
  intros Hdp Hes. unfold candidates. apply Forall_map.
  apply Forall_forall. intros name Hin. apply filter_In in Hin. destruct Hin as [Hin _].
  rewrite Forall_forall in Hes. specialize (Hes name Hin).
  unfold candidate_for. apply no_nul_app. split; [exact Hdp|].
  apply no_nul_app. split; [exact Hes|].
  destruct (Ascii.eqb_spec sep NUL) as [|Hsep]; cbn [negb andb]; [constructor|].
  destruct (os_is_dir h _); [|constructor].
  constructor; [exact Hsep|constructor].
Qed.

Lemma filename_complete_indir_rewritten (h : host) (cenv : rp_completion_env_t)
    (wenv : word_closure_t) (id : Z)
    (dir dir_prefix : stringbuf_t) (base_prefix : list ascii) (sep : ascii) (w : world) :
  complete cenv = word_add_completion_ex_fn ->
  closure cenv = word_closure_ptr wenv ->
  prev_complete wenv = prim_complete id ->
  (forall l c, sink_accepts h id l c = true) ->
  (forall c, mem c (non_word_chars wenv) = true -> is_cont c = false) ->
  (forall d entries, fs_entries h d = Some entries -> Forall no_nul entries) ->
  no_nul dir_prefix ->
  exists w',
    filename_complete_indir h cenv dir dir_prefix base_prefix sep w
    = Some (true, (dir, dir_prefix), w')
    /\ forwarded (log w')
       = forwarded (log w)
         ++ map (fun c => (Some c,
                           rewritten (non_word_chars wenv) (escape_char wenv) (quote wenv) c,
                           delete_before_adjust wenv, 0))
              (match fs_entries h dir with
               | Some entries => candidates h dir dir_prefix base_prefix sep entries
               | None => []
               end).
Proof.
  intros Hc Hcl Hprev Hacc Hnwc Hfs Hdp.
  rewrite filename_complete_indir_spec.
  destruct (fs_entries h dir) as [[|name rest]|] eqn:Ed.
  - eexists. split; [reflexivity|]. cbn [emit log candidates filter map].
    rewrite forwarded_app. cbn [forwarded]. rewrite !app_nil_r. reflexivity.
  - destruct (propose_until_stop_rewritten h cenv wenv id Hc Hcl Hprev Hacc Hnwc
                (candidates h dir dir_prefix base_prefix sep (name :: rest))
                (emit (ev_open dir) w)) as (w1 & E & Hf).
    { apply candidates_no_nul; [exact Hdp | exact (Hfs dir _ Ed)]. }
    rewrite E. eexists. split; [reflexivity|].
    cbn [emit log]. rewrite forwarded_app. cbn [forwarded]. rewrite app_nil_r.
    rewrite Hf. cbn [emit log]. rewrite forwarded_app. cbn [forwarded].
    rewrite app_nil_r. reflexivity.
  - eexists. split; [reflexivity|]. cbn [map]. rewrite app_nil_r. reflexivity.
Qed.

Lemma complete_in_each_rewritten (h : host) (cenv : rp_completion_env_t)
    (wenv : word_closure_t) (id : Z) (dir_prefix base_prefix : list ascii) (sep : ascii) :
  complete cenv = word_add_completion_ex_fn ->
  closure cenv = word_closure_ptr wenv ->
  prev_complete wenv = prim_complete id ->
  (forall l c, sink_accepts h id l c = true) ->
  (forall c, mem c (non_word_chars wenv) = true -> is_cont c = false) ->
  (forall d entries, fs_entries h d = Some entries -> Forall no_nul entries) ->
  no_nul dir_prefix ->
  forall (dirs : list (list ascii)) (w : world),
  exists w',
    complete_in_each h cenv dirs dir_prefix base_prefix sep w = Some w'
    /\ forwarded (log w')
       = forwarded (log w)
         ++ map (fun c => (Some c,
                           rewritten (non_word_chars wenv) (escape_char wenv) (quote wenv) c,
                           delete_before_adjust wenv, 0))
              (flat_map
                 (fun d =>
                    match fs_entries h d with
                    | Some entries => candidates h d dir_prefix base_prefix sep entries
                    | None => []
                    end) dirs).
Proof.
  intros Hc Hcl Hprev Hacc Hnwc Hfs Hdp.
  induction dirs as [|d ds IH]; intros w; cbn [complete_in_each flat_map].
  - eexists. split; [reflexivity|]. cbn [map]. rewrite app_nil_r. reflexivity.
  - destruct (filename_complete_indir_rewritten h cenv wenv id d dir_prefix base_prefix
                sep w Hc Hcl Hprev Hacc Hnwc Hfs Hdp) as (w1 & E & Hf).
    rewrite E. destruct (IH w1) as (w' & E' & Hf').
    exists w'. split; [exact E'|].
    rewrite Hf', Hf, map_app, <- app_assoc. reflexivity.
Qed.

Lemma unescaped_no_nul (nwc : list ascii) (esc : ascii) :
  forall (n : nat) (e : list ascii),
    (length e <= n)%nat -> no_nul e -> no_nul (unescaped nwc esc e).
Proof.
  induction n as [|n IH]; intros e Hlen Hnul.
  - destruct e; [constructor | simpl in Hlen; lia].
  - destruct e as [|c t]; [constructor|].
    apply no_nul_cons in Hnul. destruct Hnul as [Hc Ht].
    destruct t as [|d t'].
    + cbn [unescaped]. destruct (Ascii.eqb c esc); constructor; [exact Hc|constructor].
    + rewrite unescaped_cons2.
      pose proof Ht as Ht2. apply no_nul_cons in Ht2. destruct Ht2 as [Hd Ht'].
      cbn [length] in Hlen.
      destruct (Ascii.eqb c esc && mem d nwc).
      * apply no_nul_cons. split; [exact Hd|]. apply IH; [lia|exact Ht'].
      * apply no_nul_cons. split; [exact Hc|]. apply IH; [cbn [length]; lia|exact Ht].
Qed.

Lemma word_of_no_nul (prefix nwc : list ascii) (esc : ascii) (pos : Z) (q : ascii) :
  no_nul prefix -> no_nul (word_of prefix nwc esc pos q).
Proof.
  intros Hnul. unfold word_of.
  pose proof (no_nul_skipn (Z.to_nat pos) prefix Hnul) as Hs.
  destruct (Ascii.eqb q NUL); [|exact Hs].
  apply (unescaped_no_nul nwc esc (length (skipn (Z.to_nat pos) prefix)));
    [apply Nat.le_refl | exact Hs].
Qed.

Lemma dir_portion_no_nul (word : list ascii) : no_nul word -> no_nul (dir_portion word).
Proof.
  intros H. unfold dir_portion. destruct (rindex_of "/"%char word) as [i|]; [|constructor].
  rewrite <- (firstn_skipn (Z.to_nat (i + 1)) word) in H. apply no_nul_app in H. apply H.
Qed.

(** X9. Lines 33-55 and 264-362 over a whole run of [rp_complete_filename]
    with a sink that accepts every candidate: what reaches the sink, in
    order, is one completion for each entry that matches, directory by
    directory in the order the directories are searched and entry by entry in
    the order of the listing.  Each carries the candidate (directory portion
    of the word, entry name, and [dir_sep] after a directory) as display, the
    candidate as the rewrite layer writes it as replacement, the length of
    the raw word as the number of bytes to delete before the cursor, and
    nothing to delete after it. *)
Theorem filename_completions (h : host) (cenv : rp_completion_env_t) (id : Z)
    (prefix : list ascii) (sep : ascii) (roots_arg : option (list ascii)) (w : world)
    (pos : Z) (q : ascii) :
  no_nul prefix ->
  word_boundary prefix filename_non_word_chars "\"%char default_quote_chars
  = Some (pos, q) ->
  pos < Z.of_nat (length prefix) ->
  (forall n, mem_ok h n = true) ->
  complete cenv = prim_complete id ->
  (forall l c, sink_accepts h id l c = true) ->
  (forall d entries, fs_entries h d = Some entries -> Forall no_nul entries) ->
  exists c' w',
    rp_complete_filename h cenv prefix sep roots_arg w = Some (c', w')
    /\ forwarded (log w')
       = forwarded (log w)
         ++ map (fun c => (Some c,
                           rewritten filename_non_word_chars "\"%char q c,
                           Z.of_nat (length prefix) - pos, 0))
              (all_candidates h
                 (word_of prefix filename_non_word_chars "\"%char pos q)
                 (match roots_arg with Some r => r | None => chars "." end) sep).
Proof.
  intros Hnul E Hlt Hmem Hsink Hacc Hfs.
  rewrite (rp_complete_filename_each h cenv prefix sep roots_arg w pos q Hnul E Hlt Hmem).
  set (word := word_of prefix filename_non_word_chars "\"%char pos q).
  set (wenv := mk_word_closure filename_non_word_chars "\"%char q
                 (Z.of_nat (length prefix) - pos) (complete cenv) (env cenv)).
  destruct (complete_in_each_rewritten h
              (set_sink (set_arg cenv (filename_closure_of roots_arg sep))
                 word_add_completion_ex_fn (word_closure_ptr wenv))
              wenv id (dir_portion word) (base_name word) sep
              eq_refl eq_refl Hsink Hacc filename_non_word_chars_not_cont Hfs
              (dir_portion_no_nul word (word_of_no_nul _ _ _ _ _ Hnul))
              (directories_for word (match roots_arg with Some r => r | None => chars "." end))
              (mk_world (log w ++ [ev_callback word]) (S (S (S (S (allocs w)))))))
    as (w3 & E3 & Hf).
  rewrite E3. do 2 eexists. split; [reflexivity|].
  rewrite Hf. cbn [log]. rewrite forwarded_app. cbn [forwarded].
  rewrite app_nil_r. reflexivity.
Qed.

(** ** The split of the word at its last ['/'] *)

Lemma word_split (word : list ascii) : dir_portion word ++ base_name word = word.
Proof.
  unfold dir_portion, base_name.
  destruct (rindex_of "/"%char word); [apply firstn_skipn|reflexivity].
Qed.

Lemma candidates_extend (h : host) (d word : list ascii) (sep : ascii)
    (entries : list (list ascii)) (c : list ascii) :
  In c (candidates h d (dir_portion word) (base_name word) sep entries) ->
  exists suffix, c = word ++ suffix.
Proof.
  intros Hin. unfold candidates in Hin. apply in_map_iff in Hin.
  destruct Hin as (name & <- & Hin). apply filter_In in Hin. destruct Hin as [_ Hm].
  apply entry_matches_iff in Hm. destruct Hm as (_ & _ & suffix & ->).
  unfold candidate_for.
  exists (suffix
          ++ (if negb (Ascii.eqb sep NUL)
                 && os_is_dir h (d ++ [sep] ++ base_name word ++ suffix)
              then [sep] else [])).
  rewrite <- !app_assoc, (app_assoc (dir_portion word) (base_name word)), word_split.
  reflexivity.
Qed.

(** What the rewrite layer hands on as display for a candidate proposed
    without one is the candidate. *)
Lemma propose_until_stop_displays (h : host) (cenv : rp_completion_env_t)
    (wenv : word_closure_t) (id : Z) :
  complete cenv = word_add_completion_ex_fn ->
  closure cenv = word_closure_ptr wenv ->
  prev_complete wenv = prim_complete id ->
  forall (cands : list (list ascii)) (w : world) (b : bool) (w' : world),
    propose_until_stop h cenv cands w = Some (b, w') ->
    exists evs,
      log w' = log w ++ evs
      /\ forall i c ok, In (ev_add i c ok) evs ->
                        exists cand, In cand cands /\ c_display c = Some cand.
Proof.
  intros Hc Hcl Hprev.
  induction cands as [|cand rest IH]; intros w b w' E; cbn [propose_until_stop] in E.
  - inversion E; subst. exists []. split; [symmetry; apply app_nil_r|].
    intros i c ok [].
  - unfold rp_add_completion, rp_add_completion_ex in E. rewrite Hc, Hcl in E.
    cbn [call_complete word_add_completion_ex] in E.
    destruct (rewrite_candidate wenv cand) as [sb|]; [|discriminate].
    rewrite Hprev in E. unfold call_prim in E.
    set (c0 := mk_completion (env cenv) (word_closure_ptr wenv) (Some cand) sb
                 (long_add (delete_before_adjust wenv) 0) 0) in *.
    destruct (sink_accepts h id (log w) c0) eqn:Hok.
    + destruct (IH _ _ _ E) as (evs & Hlog & Hevs).
      exists (ev_add id c0 true :: evs). split.
      * rewrite Hlog. cbn [emit log]. rewrite <- app_assoc. reflexivity.
      * intros i c ok [Hin|Hin].
        -- injection Hin as _ <- _. exists cand. split; [left; reflexivity|reflexivity].
        -- destruct (Hevs i c ok Hin) as (cand' & Hin' & Hd).
           exists cand'. split; [right; exact Hin'|exact Hd].
    + inversion E; subst. exists [ev_add id c0 false]. split; [reflexivity|].
      intros i c ok [Hin|[]]. injection Hin as _ <- _.
      exists cand. split; [left; reflexivity|reflexivity].
Qed.

Lemma complete_in_each_displays (h : host) (cenv : rp_completion_env_t)
    (wenv : word_closure_t) (id : Z) (word : list ascii) (sep : ascii) :
  complete cenv = word_add_completion_ex_fn ->
  closure cenv = word_closure_ptr wenv ->
  prev_complete wenv = prim_complete id ->
  forall (dirs : list (list ascii)) (w w' : world),
    complete_in_each h cenv dirs (dir_portion word) (base_name word) sep w = Some w' ->
    exists evs,
      log w' = log w ++ evs
      /\ forall i c ok, In (ev_add i c ok) evs ->
                        exists suffix, c_display c = Some (word ++ suffix).
Proof.
  intros Hc Hcl Hprev.
  induction dirs as [|d ds IH]; intros w w' E; cbn [complete_in_each] in E.
  - inversion E; subst. exists []. split; [symmetry; apply app_nil_r|].
    intros i c ok [].
  - rewrite filename_complete_indir_spec in E.
    destruct (fs_entries h d) as [[|name rest]|].
    + destruct (IH _ _ E) as (evs & Hlog & Hevs).
      exists (ev_open d :: evs). split.
      * rewrite Hlog. cbn [emit log]. rewrite <- app_assoc. reflexivity.
      * intros i c ok [Hin|Hin]; [discriminate|exact (Hevs i c ok Hin)].
    + destruct (propose_until_stop h cenv _ _) as [[cont w1]|] eqn:Ep; [|discriminate].
      destruct (propose_until_stop_displays h cenv wenv id Hc Hcl Hprev _ _ _ _ Ep)
        as (evs1 & Hlog1 & Hevs1).
      destruct (IH _ _ E) as (evs & Hlog & Hevs).
      exists (ev_open d :: evs1 ++ ev_close d :: evs). split.
      * rewrite Hlog. cbn [emit log]. rewrite Hlog1. cbn [emit log].
        rewrite <- !app_assoc. reflexivity.
      * intros i c ok [Hin|Hin]; [discriminate|].
        apply in_app_or in Hin. destruct Hin as [Hin|[Hin|Hin]].
        -- destruct (Hevs1 i c ok Hin) as (cand & Hcand & Hd).
           destruct (candidates_extend h d word sep _ cand Hcand) as [suffix ->].
           exists suffix. exact Hd.
        -- discriminate.
        -- exact (Hevs i c ok Hin).
    + exact (IH _ _ E).
Qed.

(** X10. Lines 305-312 with 271-283 over a whole run of
    [rp_complete_filename]: [filename_completer] splits the word at its last
    ['/'] and puts the directory portion back before every entry name, so
    that every completion that reaches the sink, in whatever directory it
    was found and whatever the sink answered before, carries as display the
    word followed by the rest of an entry name (and [dir_sep] when one was
    appended): a candidate never alters the bytes of the word. *)
Theorem candidates_extend_word (h : host) (cenv : rp_completion_env_t) (id : Z)
    (prefix : list ascii) (sep : ascii) (roots_arg : option (list ascii)) (w : world)
    (pos : Z) (q : ascii) :
  no_nul prefix ->
  word_boundary prefix filename_non_word_chars "\"%char default_quote_chars
  = Some (pos, q) ->
  pos < Z.of_nat (length prefix) ->
  (forall n, mem_ok h n = true) ->
  complete cenv = prim_complete id ->
  exists c' w' evs,
    rp_complete_filename h cenv prefix sep roots_arg w = Some (c', w')
    /\ log w' = log w ++ evs
    /\ forall i c ok,
         In (ev_add i c ok) evs ->
         exists suffix,
           c_display c
           = Some (word_of prefix filename_non_word_chars "\"%char pos q ++ suffix).
Proof.
  intros Hnul E Hlt Hmem Hsink.
  rewrite (rp_complete_filename_each h cenv prefix sep roots_arg w pos q Hnul E Hlt Hmem).
  set (word := word_of prefix filename_non_word_chars "\"%char pos q).
  set (wenv := mk_word_closure filename_non_word_chars "\"%char q
                 (Z.of_nat (length prefix) - pos) (complete cenv) (env cenv)).
  set (cenv1 := set_sink (set_arg cenv (filename_closure_of roots_arg sep))
                  word_add_completion_ex_fn (word_closure_ptr wenv)).
  destruct (complete_in_each_returns h cenv1 (dir_portion word) (base_name word) sep)
    with (dirs := directories_for word
                    (match roots_arg with Some r => r | None => chars "." end))
         (w := mk_world (log w ++ [ev_callback word]) (S (S (S (S (allocs w))))))
    as [w3 E3].
  { unfold sink_ok, cenv1. cbn [set_sink set_arg complete closure prev_complete wenv].
    rewrite Hsink. exact I. }
  rewrite E3.
  destruct (complete_in_each_displays h cenv1 wenv id word sep eq_refl eq_refl Hsink
              _ _ _ E3) as (evs & Hlog & Hevs).
  exists (set_sink (set_arg cenv (filename_closure_of roots_arg sep))
            (complete cenv) (env_ptr (env cenv))), w3, (ev_callback word :: evs).
  split; [reflexivity|]. split.
  - rewrite Hlog. cbn [log]. rewrite <- app_assoc. reflexivity.
  - intros i c ok [Hin|Hin]; [discriminate|exact (Hevs i c ok Hin)].
Qed.

(** ** The environment after file name completion *)

Lemma filename_completer_env (h : host) (cenv : rp_completion_env_t)
    (prefix : option (list ascii)) (w : world) (c' : rp_completion_env_t) (w' : world) :
  filename_completer h cenv prefix w = Some (c', w') -> c' = cenv.
Proof.
  unfold filename_completer. destruct prefix as [p|]; [|intros E; inversion E; reflexivity].
  destruct (alloc h w) as [root_ok w1]. destruct (alloc h w1) as [prefix_ok w2].
  destruct (root_ok && prefix_ok); [|intros E; inversion E; reflexivity].
  destruct (arg cenv); try discriminate.
  destruct (os_path_is_absolute (Some p)).
  - destruct (filename_complete_indir h cenv _ _ _ _ _) as [[[cont bufs] w3]|];
      [|discriminate].
    intros E. inversion E. reflexivity.
  - destruct (roots_loop _ h cenv _ _ _ _ _ _ _) as [w3|]; [|discriminate].
    intros E. inversion E. reflexivity.
Qed.

(** X11. Lines 357-361: [rp_complete_filename] stores the address of its
    local closure in [cenv->arg] and does not put back what was there: on
    every return, the completer called or not, [cenv->arg] is that closure
    (in C, a pointer into a frame that is gone), while [cenv->env] and
    [cenv->complete] are as before the call. *)
Theorem arg_not_restored (h : host) (cenv : rp_completion_env_t) (id : Z)
    (prefix : list ascii) (sep : ascii) (roots_arg : option (list ascii)) (w : world) :
  complete cenv = prim_complete id ->
  exists c' w',
    rp_complete_filename h cenv prefix sep roots_arg w = Some (c', w')
    /\ arg c' = filename_closure_of roots_arg sep
    /\ env c' = env cenv
    /\ complete c' = complete cenv.
Proof.
  intros Hsink.
  destruct (rp_complete_filename_returns h cenv id prefix sep roots_arg w Hsink)
    as (c' & w' & E).
  exists c', w'. split; [exact E|].
  unfold rp_complete_filename, rp_complete_quoted_word in E.
  destruct (word_boundary prefix _ _ _) as [[pos q]|]; [|discriminate].
  destruct (Z.eqb_spec (Z.of_nat (length prefix)) pos).
  { inversion E; subst. repeat split. }
  destruct (alloc h w) as [word_ok w1].
  destruct (negb word_ok).
  { inversion E; subst. repeat split. }
  destruct (unescaped_word prefix pos q _ _) as [word|]; [|discriminate].
  destruct (alloc h w1) as [sbuf_ok w2].
  destruct (negb sbuf_ok).
  { inversion E; subst. repeat split. }
  destruct (filename_completer h _ (Some word) _) as [[cenv2 w3]|] eqn:Ef; [|discriminate].
  apply filename_completer_env in Ef. subst cenv2.
  inversion E; subst. repeat split.
Qed.

(** ** The empty word *)

Lemma back_scan_at_end (prefix nwc : list ascii) (esc : ascii) (p : Z) :
  no_nul prefix ->
  back_scan (S (length prefix)) prefix nwc esc (Z.of_nat (length prefix)) = Some p ->
  (p = Z.of_nat (length prefix) <-> prefix = [] \/ ends_with_separator prefix nwc esc).
Proof.
  intros Hnul E.
  destruct (back_scan_from_end prefix nwc esc Hnul) as (p' & E' & Hb & Hnone & Hstop).
  rewrite E in E'. injection E' as <-.
  split.
  - intros ->. destruct Hstop as [H0|(j & Hj & Hbj & Hs & Hk)].
    + left. destruct prefix; [reflexivity | simpl in H0; lia].
    + right. exists j. repeat split; try lia; try apply Hbj; assumption.
  - intros [->|(j & Hj & Hbj & Hs & Hk)].
    + destruct Hb as [Hr _]. simpl in *. lia.
    + destruct Hb as [Hr Hc].
      destruct (Z.eq_dec p (Z.of_nat (length prefix))) as [|Hne]; [assumption|].
      exfalso.
      destruct (Z.le_gt_cases p j) as [Hle|Hgt].
      * rewrite (Hnone j) in Hs by (try lia; exact Hbj). discriminate.
      * rewrite Hk in Hc by lia. assert (false = true -> False) by discriminate.
        specialize (Hc ltac:(lia)). discriminate.
Qed.

(** X12. Lines 102-119 of [rp_complete_quoted_word]: the word is empty, and
    the call returns at once with the environment and the world as they
    were, exactly when the prefix is empty, or it is inside quotes and its
    last byte is the open quote, or it is outside quotes and its last code
    point is an un-escaped separator.  After a space, for instance, no
    completer is called and no directory is read. *)
Theorem empty_word_iff (prefix nwc : list ascii) (esc : ascii) (qs : list ascii)
    (pos : Z) (q : ascii) :
  no_nul prefix ->
  word_boundary prefix nwc esc qs = Some (pos, q) ->
  (pos = Z.of_nat (length prefix)
   <-> prefix = []
       \/ (if Z.odd (Z.of_nat (length (unescaped_quotes esc qs prefix)))
           then last (unescaped_quotes esc qs prefix) 0 = Z.of_nat (length prefix) - 1
           else ends_with_separator prefix nwc esc))
  /\ (pos = Z.of_nat (length prefix) ->
      forall (h : host) (cenv : rp_completion_env_t) (fn : rp_completer_fun_t) (w : world),
        rp_complete_quoted_word h cenv prefix fn (Some nwc) esc (Some qs) w
        = Some (cenv, w)).
Proof.
  intros Hnul E. split.
  - destruct (quote_stage_spec prefix esc qs Hnul) as [Hodd Heven].
    unfold word_boundary in E.
    destruct (Z.odd (Z.of_nat (length (unescaped_quotes esc qs prefix)))) eqn:Ho.
    + rewrite (Hodd eq_refl) in E.
      set (Q := unescaped_quotes esc qs prefix) in *.
      assert (Hne : Q <> []) by (intros EQ; rewrite EQ in Ho; discriminate).
      pose proof (last_In Q 0 Hne) as Hin.
      apply unescaped_quotes_in in Hin; [|lia]. destruct Hin as [Hr _].
      assert (Hq : char_at prefix (last Q 0) <> NUL)
        by (apply char_at_no_nul; [exact Hnul|lia]).
      destruct (Ascii.eqb_spec (char_at prefix (last Q 0)) NUL) as [|_]; [contradiction|].
      injection E as <- <-. split.
      * intros H. right. lia.
      * intros [->|H]; [simpl in Hr; lia|lia].
    + destruct (Heven eq_refl) as [pos0 E0]. rewrite E0, Ascii.eqb_refl in E.
      destruct (back_scan (S (length prefix)) prefix nwc esc (Z.of_nat (length prefix)))
        as [p|] eqn:Eb; [|discriminate].
      injection E as <- <-.
      exact (back_scan_at_end prefix nwc esc p Hnul Eb).
  - intros Hp h cenv fn w. unfold rp_complete_quoted_word. rewrite E.
    rewrite Hp, Z.eqb_refl. reflexivity.
Qed.

(** X15. Lines 72 and 104-117 with empty sets: with an empty quote set no
    word is quoted, whatever quote characters the prefix holds; with an empty
    separator set a word outside quotes is the whole prefix. *)
Theorem empty_sets (prefix : list ascii) (esc : ascii) :
  no_nul prefix ->
  (forall nwc, exists pos, word_boundary prefix nwc esc [] = Some (pos, NUL))
  /\ (forall qs,
        Z.odd (Z.of_nat (length (unescaped_quotes esc qs prefix))) = false ->
        word_boundary prefix [] esc qs = Some (0, NUL)).
Proof.
  intros Hnul. split.
  - intros nwc. unfold word_boundary, quote_stage. rewrite Ascii.eqb_refl.
    destruct (back_scan_from_end prefix nwc esc Hnul) as (p & E & _).
    rewrite E. eexists. reflexivity.
  - intros qs Ho. rewrite (word_boundary_even prefix [] esc qs Hnul Ho).
    destruct (back_scan_from_end prefix [] esc Hnul) as (p & E & _ & _ & Hstop).
    rewrite E. destruct Hstop as [->|(j & _ & _ & Hs & _)]; [reflexivity|].
    unfold separator_at in Hs. cbn [mem existsb andb] in Hs. discriminate.
Qed.

(** ** Completing again after a completion *)

Lemma unescaped_quotes_from_none (esc : ascii) (qs b : list ascii) :
  (forall c, In c b -> mem c qs = false) ->
  forall (m : scan_mode) (i : Z), unescaped_quotes_from esc qs m i b = [].
Proof.
  induction b as [|c t IH]; intros Hb m i; [reflexivity|].
  assert (Ht : forall c0, In c0 t -> mem c0 qs = false)
    by (intros c0 H; apply Hb; right; exact H).
  assert (Hc : mem c qs = false) by (apply Hb; left; reflexivity).
  cbn [unescaped_quotes_from]. unfold classify. rewrite Hc.
  destruct (Ascii.eqb c esc); destruct m; destruct (is_cont c); apply IH; exact Ht.
Qed.

Lemma unescaped_quotes_from_app (esc : ascii) (qs b : list ascii) :
  (forall c, In c b -> mem c qs = false) ->
  forall (a : list ascii) (m : scan_mode) (i : Z),
    unescaped_quotes_from esc qs m i (a ++ b) = unescaped_quotes_from esc qs m i a.
Proof.
  intros Hb. induction a as [|c t IH]; intros m i.
  - cbn [app]. rewrite unescaped_quotes_from_none by exact Hb. reflexivity.
  - cbn [app unescaped_quotes_from].
    destruct (classify esc qs c) as [m' is_quote].
    rewrite !IH. reflexivity.
Qed.

Lemma escape_every_escaped (nwc : list ascii) (esc : ascii) (cand : list ascii) :
  escaped_of nwc esc cand (escape_every nwc esc cand).
Proof.
  induction cand as [|c t IH]; [constructor|].
  cbn [escape_every]. destruct (mem c nwc) eqn:Hm.
  - apply escaped_insert; assumption.
  - apply escaped_keep; assumption.
Qed.

Lemma escape_every_separator (nwc : list ascii) (esc : ascii) :
  mem esc nwc = false ->
  forall (cand : list ascii) (i : Z),
    0 <= i < Z.of_nat (length (escape_every nwc esc cand)) ->
    mem (char_at (escape_every nwc esc cand) i) nwc = true ->
    1 <= i /\ char_at (escape_every nwc esc cand) (i - 1) = esc.
Proof.
  intros Hesc. induction cand as [|c t IH]; intros i Hi Hm; [simpl in Hi; lia|].
  cbn [escape_every] in *. destruct (mem c nwc) eqn:Hc.
  - cbn [length] in Hi.
    destruct (Z.eq_dec i 0) as [->|H0].
    { rewrite char_at_cons_0, Hesc in Hm. discriminate. }
    destruct (Z.eq_dec i 1) as [->|H1].
    { split; [lia|]. apply char_at_cons_0. }
    replace i with (i - 2 + 1 + 1) in Hm by lia.
    rewrite !char_at_cons_succ in Hm by lia.
    destruct (IH (i - 2)) as [Hge He]; [lia|exact Hm|].
    split; [lia|].
    replace (i - 1) with (i - 2 - 1 + 1 + 1) by lia.
    rewrite !char_at_cons_succ by lia. exact He.
  - cbn [length] in Hi.
    destruct (Z.eq_dec i 0) as [->|H0].
    { rewrite char_at_cons_0, Hc in Hm. discriminate. }
    replace i with (i - 1 + 1) in Hm by lia.
    rewrite char_at_cons_succ in Hm by lia.
    destruct (IH (i - 1)) as [Hge He]; [lia|exact Hm|].
    split; [lia|].
    replace (i - 1) with (i - 1 - 1 + 1) by lia.
    rewrite char_at_cons_succ by lia. exact He.
Qed.

Lemma escape_every_first (nwc : list ascii) (esc : ascii) (cand : list ascii) :
  is_cont esc = false ->
  is_cont (char_at cand 0) = false ->
  is_cont (char_at (escape_every nwc esc cand) 0) = false.
Proof.
  intros Hesc Hc. destruct cand as [|c t]; [reflexivity|].
  cbn [escape_every]. destruct (mem c nwc); rewrite char_at_cons_0;
    [exact Hesc | rewrite char_at_cons_0 in Hc; exact Hc].
Qed.

Lemma escape_every_no_quotes (nwc qs : list ascii) (esc : ascii) (cand : list ascii) :
  mem esc qs = false ->
  (forall c, In c cand -> mem c qs = false) ->
  forall c, In c (escape_every nwc esc cand) -> mem c qs = false.
Proof.
  intros Hesc. induction cand as [|d t IH]; intros Hc c Hin; [contradiction|].
  assert (Ht : forall c0, In c0 t -> mem c0 qs = false)
    by (intros c0 H; apply Hc; right; exact H).
  assert (Hd : mem d qs = false) by (apply Hc; left; reflexivity).
  cbn [escape_every] in Hin. destruct (mem d nwc).
  - destruct Hin as [<-|[<-|Hin]]; [exact Hesc|exact Hd|exact (IH Ht c Hin)].
  - destruct Hin as [<-|Hin]; [exact Hd|exact (IH Ht c Hin)].
Qed.

Lemma back_scan_after_completion (prefix nwc : list ascii) (esc : ascii)
    (pos : Z) (e : list ascii) :
  no_nul prefix -> no_nul e ->
  back_scan (S (length prefix)) prefix nwc esc (Z.of_nat (length prefix)) = Some pos ->
  is_cont (char_at e 0) = false ->
  (forall i, 0 <= i < Z.of_nat (length e) -> mem (char_at e i) nwc = true ->
             1 <= i /\ char_at e (i - 1) = esc) ->
  back_scan (S (length (firstn (Z.to_nat pos) prefix ++ e)))
    (firstn (Z.to_nat pos) prefix ++ e) nwc esc
    (Z.of_nat (length (firstn (Z.to_nat pos) prefix ++ e))) = Some pos.
Proof.
  intros Hnul He E Hfirst Hsep.
  destruct (back_scan_from_end prefix nwc esc Hnul) as (p0 & E0 & Hb0 & Hnone0 & Hstop0).
  rewrite E in E0. injection E0 as <-.
  set (pre := firstn (Z.to_nat pos) prefix).
  assert (Hpre : Z.of_nat (length pre) = pos).
  { unfold pre. rewrite length_firstn. destruct Hb0 as [Hr _]. lia. }
  assert (Hprechar : forall k, 0 <= k < pos -> char_at (pre ++ e) k = char_at prefix k).
  { intros k Hk. rewrite char_at_app_l by lia.
    transitivity (char_at (pre ++ skipn (Z.to_nat pos) prefix) k).
    - rewrite char_at_app_l by lia. reflexivity.
    - unfold pre. rewrite firstn_skipn. reflexivity. }
  assert (Hechar : forall k, 0 <= k -> char_at (pre ++ e) (pos + k) = char_at e k).
  { intros k Hk. rewrite <- Hpre. apply char_at_app_r. exact Hk. }
  assert (Hnul' : no_nul (pre ++ e)).
  { apply no_nul_app. split; [|exact He].
    unfold pre. rewrite <- (firstn_skipn (Z.to_nat pos) prefix) in Hnul.
    apply no_nul_app in Hnul. apply Hnul. }
  destruct (back_scan_from_end (pre ++ e) nwc esc Hnul') as (p & Ep & Hb & Hnone & Hstop).
  rewrite Ep. f_equal.
  assert (Hlen : Z.of_nat (length (pre ++ e)) = pos + Z.of_nat (length e))
    by (rewrite length_app; lia).
  rewrite Hlen in *.
  (* no separator that counts stands in the replacement *)
  assert (Hin_e : forall j, pos <= j < pos + Z.of_nat (length e) ->
                            separator_at (pre ++ e) nwc esc j = false).
  { intros j Hj. unfold separator_at.
    replace j with (pos + (j - pos)) at 1 by lia. rewrite Hechar by lia.
    destruct (mem (char_at e (j - pos)) nwc) eqn:Hm; [|reflexivity].
    destruct (Hsep (j - pos)) as [Hge Hprev]; [lia|exact Hm|].
    cbn [andb]. destruct (Z.leb_spec j 0); [lia|]. cbn [orb].
    replace (j - 1) with (pos + (j - pos - 1)) by lia. rewrite Hechar by lia.
    rewrite Hprev, Ascii.eqb_refl. reflexivity. }
  destruct Hb as [Hr Hc]. destruct Hb0 as [Hr0 Hc0].
  destruct (Z.lt_trichotomy p pos) as [Hlt|[Heq|Hgt]]; [|exact Heq|]; exfalso.
  - (* the scan cannot pass the separator before the word *)
    destruct Hstop0 as [H0|(j & Hj & Hbj & Hs & Hk)]; [lia|].
    assert (Hs' : separator_at (pre ++ e) nwc esc j = true).
    { unfold separator_at in *. rewrite Hprechar by lia.
      destruct (Z.leb_spec j 0) as [|Hj0]; [exact Hs|].
      rewrite Hprechar by lia. exact Hs. }
    assert (Hbj' : boundary (pre ++ e) j).
    { destruct Hbj as [Hrj Hcj]. split; [rewrite Hlen; lia|].
      intros H. rewrite Hprechar by lia. apply Hcj. lia. }
    destruct (Z.le_gt_cases p j) as [Hle|Hgt].
    + rewrite (Hnone j) in Hs' by (try lia; exact Hbj'). discriminate.
    + specialize (Hk p ltac:(lia)). rewrite <- Hprechar in Hk by lia.
      rewrite Hc in Hk by lia. discriminate.
  - (* the scan cannot stop inside the replacement *)
    destruct Hstop as [H0|(j & Hj & Hbj & Hs & Hk)]; [lia|].
    destruct (Z.le_gt_cases pos j) as [Hle|Hgt'].
    + rewrite Hin_e in Hs by lia. discriminate.
    + specialize (Hk pos ltac:(lia)).
      replace pos with (pos + 0) in Hk at 1 by lia. rewrite Hechar in Hk by lia.
      rewrite Hfirst in Hk. discriminate.
Qed.

(** X13. Lines 40-52 with 67-138, one completion after another outside
    quotes: when the escape loop escaped every separator of a candidate and
    the editor has put the rewritten candidate in place of the word, the scan
    of the new prefix finds the same word start, reports no quote, and hands
    the completer the candidate itself.  The sets are as the callers of this
    file pass them (single non-continuation bytes, the escape character in
    neither set); the word and the candidate hold no quote character, and the
    candidate is one the unescape loop gives back. *)
Theorem completion_keeps_word (prefix nwc : list ascii) (esc : ascii) (qs : list ascii)
    (pos : Z) (cand : list ascii) (f : completion_fun) (e : Z) :
  no_nul prefix -> no_nul cand ->
  esc <> NUL -> is_cont esc = false -> mem esc nwc = false -> mem esc qs = false ->
  (forall c, mem c nwc = true -> is_cont c = false) ->
  word_boundary prefix nwc esc qs = Some (pos, NUL) ->
  (forall c, In c (skipn (Z.to_nat pos) prefix) -> mem c qs = false) ->
  (forall c, In c cand -> mem c qs = false) ->
  is_cont (char_at cand 0) = false ->
  ambiguous nwc esc cand = false ->
  last cand NUL <> esc ->
  (separators nwc cand <= from_last_separator nwc cand)%nat ->
  exists r,
    rewrite_candidate
      (mk_word_closure nwc esc NUL (Z.of_nat (length prefix) - pos) f e) cand = Some r
    /\ word_boundary (firstn (Z.to_nat pos) prefix ++ r) nwc esc qs = Some (pos, NUL)
    /\ unescaped_word (firstn (Z.to_nat pos) prefix ++ r) pos NUL nwc esc = Some cand.
Proof.
  intros Hnul Hcand Hesc Hcont Hesc_nwc Hesc_qs Hnwc E Hword Hcq Hfirst Hamb Hlast Hall.
  exists (escape_every nwc esc cand).
  pose proof (escape_every_escaped nwc esc cand) as Hrel.
  pose proof (escaped_of_no_nul nwc esc cand _ Hesc Hrel Hcand) as He.
  destruct (word_boundary_unquoted prefix nwc esc qs pos Hnul E) as [Ho Eb].
  destruct (back_scan_from_end prefix nwc esc Hnul) as (p0 & E0 & [Hr _] & _).
  rewrite Eb in E0. injection E0 as <-.
  set (pre := firstn (Z.to_nat pos) prefix).
  assert (Hpre : Z.of_nat (length pre) = pos) by (unfold pre; rewrite length_firstn; lia).
  assert (Hpre_nul : no_nul pre).
  { unfold pre. rewrite <- (firstn_skipn (Z.to_nat pos) prefix) in Hnul.
    apply no_nul_app in Hnul. apply Hnul. }
  assert (Hnul' : no_nul (pre ++ escape_every nwc esc cand))
    by (apply no_nul_app; split; assumption).
  split; [|split].
  - rewrite (rewrite_candidate_rewritten _ cand Hcand) by exact Hnwc.
    unfold rewritten. cbn [quote non_word_chars escape_char].
    rewrite Ascii.eqb_refl. f_equal.
    apply escape_within_every.
    pose proof (from_last_separator_none nwc cand).
    destruct (separators nwc cand) eqn:Hs; [left; reflexivity|right; lia].
  - rewrite word_boundary_even; [| exact Hnul' |].
    + unfold pre.
      rewrite (back_scan_after_completion prefix nwc esc pos (escape_every nwc esc cand)
                 Hnul He Eb (escape_every_first nwc esc cand Hcont Hfirst)
                 (escape_every_separator nwc esc Hesc_nwc cand)).
      reflexivity.
    + unfold unescaped_quotes in *.
      rewrite unescaped_quotes_from_app
        by (apply escape_every_no_quotes; assumption).
      rewrite <- (firstn_skipn (Z.to_nat pos) prefix) in Ho. fold pre in Ho.
      rewrite unescaped_quotes_from_app in Ho by exact Hword. exact Ho.
  - rewrite (unescaped_word_spec _ nwc esc pos NUL Hnul' Hesc Hcont Hnwc)
      by (rewrite length_app; lia).
    rewrite Ascii.eqb_refl. f_equal.
    replace (Z.to_nat pos) with (length pre + 0)%nat by lia.
    rewrite skipn_app_exact. cbn [skipn].
    apply (unescaped_of_escaped nwc esc cand _ Hesc Hrel Hamb Hlast).
Qed.

(** ** File name completion without memory *)

Lemma proposed_app (l1 l2 : list event) : proposed (l1 ++ l2) = proposed l1 ++ proposed l2.
Proof.
  induction l1 as [|e l1 IH]; [reflexivity|].
  destruct e; simpl; rewrite IH; reflexivity.
Qed.

Lemma filename_completer_alloc_fails (h : host) (cenv : rp_completion_env_t)
    (word : list ascii) (w : world) :
  mem_ok h (allocs w) = false \/ mem_ok h (S (allocs w)) = false ->
  filename_completer h cenv (Some word) w
  = Some (cenv, mk_world (log w) (S (S (allocs w)))).
Proof.
  intros Hfail. unfold filename_completer, alloc. cbn [allocs log].
  destruct Hfail as [H|H]; rewrite H; [|rewrite Bool.andb_false_r]; reflexivity.
Qed.

(** X14. Lines 123-124, 148-149 and 300-302: of [mem_strdup] and [sbuf_new]
    a call of [rp_complete_filename] makes at most four calls (the copy of
    the word, the scratch buffer of the rewrite layer, and the two path
    buffers of [filename_completer]; what a string buffer asks for when it
    grows is not counted).  When one of them fails the call still returns,
    after no more than these four calls, no directory has been opened and
    nothing has been proposed to the sink. *)
Theorem no_memory_no_completion (h : host) (cenv : rp_completion_env_t)
    (prefix : list ascii) (sep : ascii) (roots_arg : option (list ascii)) (w : world)
    (k : nat) :
  (k < 4)%nat ->
  mem_ok h (allocs w + k) = false ->
  exists c' w',
    rp_complete_filename h cenv prefix sep roots_arg w = Some (c', w')
    /\ opened (log w') = opened (log w)
    /\ proposed (log w') = proposed (log w)
    /\ (allocs w' <= allocs w + 4)%nat.
Proof.
  intros Hk Hfail. unfold rp_complete_filename, rp_complete_quoted_word.
  destruct (word_boundary_total prefix filename_non_word_chars "\"%char default_quote_chars)
    as (pos & q & E).
  rewrite E.
  destruct (Z.eqb_spec (Z.of_nat (length prefix)) pos).
  { do 2 eexists. repeat split. lia. }
  unfold alloc. cbn [allocs log set_arg env complete].
  destruct (mem_ok h (allocs w)) eqn:H0; cbn [negb].
  2:{ do 2 eexists. repeat split. cbn [allocs]. lia. }
  destruct (unescaped_word_total prefix pos q filename_non_word_chars "\"%char)
    as (word & Ew).
  rewrite Ew.
  destruct (mem_ok h (S (allocs w))) eqn:H1; cbn [negb].
  2:{ do 2 eexists. repeat split. cbn [allocs]. lia. }
  assert (Hlate : mem_ok h (S (S (allocs w))) = false
                  \/ mem_ok h (S (S (S (allocs w)))) = false).
  { destruct k as [|[|[|[|k]]]]; try lia.
    - rewrite Nat.add_0_r, H0 in Hfail. discriminate.
    - replace (allocs w + 1)%nat with (S (allocs w)) in Hfail by lia.
      rewrite H1 in Hfail. discriminate.
    - left. replace (allocs w + 2)%nat with (S (S (allocs w))) in Hfail by lia. exact Hfail.
    - right. replace (allocs w + 3)%nat with (S (S (S (allocs w)))) in Hfail by lia.
      exact Hfail. }
  rewrite filename_completer_alloc_fails by (cbn [emit allocs]; exact Hlate).
  do 2 eexists. split; [reflexivity|]. cbn [emit log allocs].
  rewrite opened_app, proposed_app. cbn [opened proposed].
  rewrite !app_nil_r. repeat split. lia.
Qed.

(** ** The theorems about the rewrite layer and the directories at concrete
    inputs *)

Lemma default_non_word_chars_not_cont (c : ascii) :
  mem c default_non_word_chars = true -> is_cont c = false.
Proof.
  intros Hc. unfold mem, default_non_word_chars in Hc. cbn [existsb] in Hc.
  repeat (apply Bool.orb_true_iff in Hc; destruct Hc as [Hc|Hc];
          [apply Ascii.eqb_eq in Hc; subst c; reflexivity|]).
  discriminate.
Qed.

Lemma lookup_In (t : Scenario.fs_table) (p : list ascii) (n : option (list string)) :
  Scenario.lookup t p = Some n -> exists q, In (q, n) t.
Proof.
  induction t as [|[q m] t IH]; [discriminate|].
  cbn [Scenario.lookup]. destruct (list_eqb (chars q) p).
  - intros E. injection E as <-. exists q. left. reflexivity.
  - intros E. destruct (IH E) as [q' H]. exists q'. right. exact H.
Qed.

Lemma table_entries_no_nul (t : Scenario.fs_table)
    (accepts : list event -> completion -> bool) :
  names_checked t = true ->
  forall d entries,
    fs_entries (Scenario.table_host t accepts) d = Some entries ->
    Forall no_nul entries.
Proof.
  intros Hok d entries E. cbn [Scenario.table_host fs_entries] in E.
  unfold Scenario.table_entries in E.
  destruct (Scenario.lookup t (Scenario.resolve d)) as [[es|]|] eqn:El; try discriminate.
  injection E as <-. apply lookup_In in El. destruct El as [q Hin].
  unfold names_checked in Hok. rewrite forallb_forall in Hok.
  specialize (Hok _ Hin). cbn [snd] in Hok. rewrite forallb_forall in Hok.
  apply Forall_map. apply Forall_forall. intros e He.
  apply no_nul_check. exact (Hok e He).
Qed.

(** [rewrite_candidate_exact] on a candidate with three spaces: the third is
    reached at offset 7 of the buffer, the length of the candidate, and is
    left as it is. *)
Lemma rewrite_candidate_exact_witness :
  no_nul (chars "a b c d")
  /\ (forall c, mem c (non_word_chars unquoted_closure) = true -> is_cont c = false)
  /\ rewrite_candidate unquoted_closure (chars "a b c d") = Some (chars "a\ b\ c d").
Proof.
  assert (H1 : no_nul (chars "a b c d")) by (apply no_nul_check; reflexivity).
  split; [exact H1|]. split; [exact default_non_word_chars_not_cont|].
  exact (rewrite_candidate_exact unquoted_closure (chars "a b c d") H1
           default_non_word_chars_not_cont).
Defined.

(** [escape_complete_iff] on a candidate with two spaces and two bytes from
    the last one on. *)
Lemma escape_complete_iff_witness :
  no_nul (chars "a b c")
  /\ (separators default_non_word_chars (chars "a b c")
      <= from_last_separator default_non_word_chars (chars "a b c"))%nat
  /\ rewrite_candidate unquoted_closure (chars "a b c") = Some (chars "a\ b\ c").
Proof.
  assert (H1 : no_nul (chars "a b c")) by (apply no_nul_check; reflexivity).
  assert (H2 : (separators default_non_word_chars (chars "a b c")
                <= from_last_separator default_non_word_chars (chars "a b c"))%nat)
    by (vm_compute; lia).
  split; [exact H1|]. split; [exact H2|].
  exact (proj2 (escape_complete_iff unquoted_closure (chars "a b c") H1
                  default_non_word_chars_not_cont eq_refl) H2).
Defined.

(** [word_handed_to_completer] on a prefix with an open quote. *)
Lemma word_handed_to_completer_witness :
  let h := Scenario.table_host [] Scenario.accept_all in
  word_boundary (chars "open 'my fi") default_non_word_chars "\"%char default_quote_chars
  = Some (6, "'"%char)
  /\ exists pos q,
      word_boundary (chars "open 'my fi") default_non_word_chars "\"%char
        default_quote_chars = Some (pos, q)
      /\ 0 <= pos <= Z.of_nat (length (chars "open 'my fi"))
      /\ (q <> NUL ->
          1 <= pos /\ char_at (chars "open 'my fi") (pos - 1) = q
          /\ mem q default_quote_chars = true)
      /\ (pos < Z.of_nat (length (chars "open 'my fi")) ->
          mem_ok h (allocs Scenario.start) = true ->
          mem_ok h (S (allocs Scenario.start)) = true ->
          let word :=
            if Ascii.eqb q NUL
            then unescaped default_non_word_chars "\"%char
                   (skipn (Z.to_nat pos) (chars "open 'my fi"))
            else skipn (Z.to_nat pos) (chars "open 'my fi") in
          let wenv :=
            mk_word_closure default_non_word_chars "\"%char q
              (Z.of_nat (length (chars "open 'my fi")) - pos)
              (complete Scenario.top_cenv) (env Scenario.top_cenv) in
          rp_complete_quoted_word h Scenario.top_cenv (chars "open 'my fi")
            propose_nothing (Some default_non_word_chars) "\"%char
            (Some default_quote_chars) Scenario.start
          = match propose_nothing
                    (set_sink Scenario.top_cenv word_add_completion_ex_fn
                       (word_closure_ptr wenv))
                    word
                    (emit (ev_callback word)
                       (mk_world (log Scenario.start) (S (S (allocs Scenario.start))))) with
            | None => None
            | Some (cenv2, w3) =>
                Some (set_sink cenv2 (complete Scenario.top_cenv)
                        (env_ptr (env Scenario.top_cenv)), w3)
            end).
Proof.
  cbv zeta. split; [reflexivity|].
  assert (H1 : no_nul (chars "open 'my fi")) by (apply no_nul_check; reflexivity).
  assert (H2 : "\"%char <> NUL) by discriminate.
  exact (word_handed_to_completer (Scenario.table_host [] Scenario.accept_all)
           Scenario.top_cenv (chars "open 'my fi") propose_nothing
           default_non_word_chars "\"%char default_quote_chars Scenario.start
           H1 H2 eq_refl default_non_word_chars_not_cont).
Defined.

(** [directories_searched] on a relative word and two roots, the second of
    them followed by a [';']: the last item of the list is empty, and the
    directory tried for it is [/]. *)
Lemma directories_searched_witness :
  let h := Scenario.table_host Scenario.two_roots_fs Scenario.accept_all in
  directories_for (chars "li") (chars ".;/usr/local;")
  = [chars "./"; chars "/usr/local/"; chars "/"]
  /\ exists c' w',
      rp_complete_filename h Scenario.top_cenv (chars "li") "/"%char
        (Some (chars ".;/usr/local;")) Scenario.start = Some (c', w')
      /\ opened (log w') = [chars "./"; chars "/usr/local/"].
Proof.
  cbv zeta. split; [reflexivity|].
  assert (H1 : no_nul (chars "li")) by (apply no_nul_check; reflexivity).
  assert (H2 : 0 < Z.of_nat (length (chars "li"))) by (simpl; lia).
  exact (directories_searched (Scenario.table_host Scenario.two_roots_fs Scenario.accept_all)
           Scenario.top_cenv 0 (chars "li") "/"%char (Some (chars ".;/usr/local;"))
           Scenario.start 0 NUL H1 eq_refl H2 (fun _ => eq_refl) eq_refl).
Defined.

(** [directories_closed] where the first root opens and gives no entry. *)
Lemma directories_closed_witness :
  let h :=
    Scenario.table_host
      [ ("."%string, Some []);
        ("/usr/local"%string, Some ["."; ".."; "lib"]%string) ]
      Scenario.accept_all in
  exists c' w' dirs,
    rp_complete_filename h Scenario.top_cenv (chars "li") "/"%char
      (Some (chars ".;/usr/local")) Scenario.start = Some (c', w')
    /\ opened (log w') = opened (log Scenario.start) ++ dirs
    /\ closed (log w') = closed (log Scenario.start) ++ listable h dirs.
Proof.
  cbv zeta.
  assert (H1 : no_nul (chars "li")) by (apply no_nul_check; reflexivity).
  assert (H2 : 0 < Z.of_nat (length (chars "li"))) by (simpl; lia).
  exact (directories_closed
           (Scenario.table_host
              [ ("."%string, Some []);
                ("/usr/local"%string, Some ["."; ".."; "lib"]%string) ]
              Scenario.accept_all)
           Scenario.top_cenv 0 (chars "li") "/"%char (Some (chars ".;/usr/local"))
           Scenario.start 0 NUL H1 eq_refl H2 (fun _ => eq_refl) eq_refl).
Defined.

(** [filename_completions] on an absolute word with an escaped space: the
    display is the candidate, the replacement has the space escaped again,
    and the twelve bytes of the raw word are to be deleted. *)
Lemma filename_completions_witness :
  let h := Scenario.table_host Scenario.docs_fs Scenario.accept_all in
  word_of (chars "/my\ docs/re") filename_non_word_chars "\"%char 0 NUL
  = chars "/my docs/re"
  /\ exists c' w',
      rp_complete_filename h Scenario.top_cenv (chars "/my\ docs/re") "/"%char None
        Scenario.start = Some (c', w')
      /\ forwarded (log w')
         = [(Some (chars "/my docs/report"), chars "/my\ docs/report", 12, 0)].
Proof.
  cbv zeta. split; [reflexivity|].
  assert (H1 : no_nul (chars "/my\ docs/re")) by (apply no_nul_check; reflexivity).
  assert (H2 : 0 < Z.of_nat (length (chars "/my\ docs/re"))) by (simpl; lia).
  exact (filename_completions (Scenario.table_host Scenario.docs_fs Scenario.accept_all)
           Scenario.top_cenv 0 (chars "/my\ docs/re") "/"%char None
           Scenario.start 0 NUL H1 eq_refl H2 (fun _ => eq_refl) eq_refl
           (fun _ _ => eq_refl)
           (table_entries_no_nul Scenario.docs_fs Scenario.accept_all eq_refl)).
Defined.

(** [candidates_extend_word] on a word with a directory portion. *)
Lemma candidates_extend_word_witness :
  let h := Scenario.table_host Scenario.project_fs Scenario.accept_all in
  word_of (chars "src/co") filename_non_word_chars "\"%char 0 NUL = chars "src/co"
  /\ option_map forwarded
       (log_of (rp_complete_filename h Scenario.top_cenv (chars "src/co") "/"%char None
                  Scenario.start))
     = Some [(Some (chars "src/completers.c"), chars "src/completers.c", 6, 0)]
  /\ exists c' w' evs,
      rp_complete_filename h Scenario.top_cenv (chars "src/co") "/"%char None
        Scenario.start = Some (c', w')
      /\ log w' = log Scenario.start ++ evs
      /\ forall i c ok,
           In (ev_add i c ok) evs ->
           exists suffix, c_display c = Some (chars "src/co" ++ suffix).
Proof.
  cbv zeta. split; [reflexivity|]. split; [vm_compute; reflexivity|].
  assert (H1 : no_nul (chars "src/co")) by (apply no_nul_check; reflexivity).
  assert (H2 : 0 < Z.of_nat (length (chars "src/co"))) by (simpl; lia).
  exact (candidates_extend_word
           (Scenario.table_host Scenario.project_fs Scenario.accept_all)
           Scenario.top_cenv 0 (chars "src/co") "/"%char None Scenario.start 0 NUL
           H1 eq_refl H2 (fun _ => eq_refl) eq_refl).
Defined.

(** [arg_not_restored] on a call whose environment held no argument. *)
Lemma arg_not_restored_witness :
  let h := Scenario.table_host Scenario.project_fs Scenario.accept_all in
  arg Scenario.top_cenv = NULL
  /\ exists c' w',
      rp_complete_filename h Scenario.top_cenv (chars "sr") "/"%char None Scenario.start
      = Some (c', w')
      /\ arg c' = filename_closure_of None "/"%char
      /\ env c' = env Scenario.top_cenv
      /\ complete c' = complete Scenario.top_cenv.
Proof.
  cbv zeta. split; [reflexivity|].
  exact (arg_not_restored (Scenario.table_host Scenario.project_fs Scenario.accept_all)
           Scenario.top_cenv 0 (chars "sr") "/"%char None Scenario.start eq_refl).
Defined.

(** [empty_word_iff] on a prefix that ends with a space. *)
Lemma empty_word_iff_witness :
  no_nul (chars "ls ")
  /\ word_boundary (chars "ls ") default_non_word_chars "\"%char default_quote_chars
     = Some (3, NUL)
  /\ ends_with_separator (chars "ls ") default_non_word_chars "\"%char
  /\ forall (h : host) (cenv : rp_completion_env_t) (fn : rp_completer_fun_t) (w : world),
       rp_complete_quoted_word h cenv (chars "ls ") fn (Some default_non_word_chars)
         "\"%char (Some default_quote_chars) w = Some (cenv, w).
Proof.
  assert (H1 : no_nul (chars "ls ")) by (apply no_nul_check; reflexivity).
  assert (H2 : word_boundary (chars "ls ") default_non_word_chars "\"%char
                 default_quote_chars = Some (3, NUL)) by reflexivity.
  split; [exact H1|]. split; [exact H2|].
  destruct (empty_word_iff (chars "ls ") default_non_word_chars "\"%char
              default_quote_chars 3 NUL H1 H2) as [Hiff Hret].
  split.
  - destruct (proj1 Hiff eq_refl) as [H|H]; [discriminate|exact H].
  - exact (Hret eq_refl).
Defined.

(** [completion_keeps_word] on the word [my] completed to [my file]. *)
Lemma completion_keeps_word_witness :
  word_boundary (chars "cat my") default_non_word_chars "\"%char default_quote_chars
  = Some (4, NUL)
  /\ exists r,
      rewrite_candidate
        (mk_word_closure default_non_word_chars "\"%char NUL
           (Z.of_nat (length (chars "cat my")) - 4) (prim_complete 0) 1)
        (chars "my file") = Some r
      /\ word_boundary (firstn (Z.to_nat 4) (chars "cat my") ++ r)
           default_non_word_chars "\"%char default_quote_chars = Some (4, NUL)
      /\ unescaped_word (firstn (Z.to_nat 4) (chars "cat my") ++ r) 4 NUL
           default_non_word_chars "\"%char = Some (chars "my file").
Proof.
  assert (H1 : no_nul (chars "cat my")) by (apply no_nul_check; reflexivity).
  assert (H2 : no_nul (chars "my file")) by (apply no_nul_check; reflexivity).
  assert (H3 : "\"%char <> NUL) by discriminate.
  assert (H4 : forall c, In c (skipn (Z.to_nat 4) (chars "cat my")) ->
                         mem c default_quote_chars = false).
  { intros c H. cbn in H.
    repeat (destruct H as [<-|H]; [reflexivity|]). contradiction. }
  assert (H5 : forall c, In c (chars "my file") -> mem c default_quote_chars = false).
  { intros c H. cbn in H.
    repeat (destruct H as [<-|H]; [reflexivity|]). contradiction. }
  assert (H6 : last (chars "my file") NUL <> "\"%char) by (cbn; discriminate).
  assert (H7 : (separators default_non_word_chars (chars "my file")
                <= from_last_separator default_non_word_chars (chars "my file"))%nat)
    by (vm_compute; lia).
  split; [reflexivity|].
  exact (completion_keeps_word (chars "cat my") default_non_word_chars "\"%char
           default_quote_chars 4 (chars "my file") (prim_complete 0) 1
           H1 H2 H3 eq_refl eq_refl eq_refl default_non_word_chars_not_cont
           eq_refl H4 H5 eq_refl eq_refl H6 H7).
Defined.

(** [no_memory_no_completion] when the third request, the first path buffer
    of [filename_completer], fails. *)
Lemma no_memory_no_completion_witness :
  let h :=
    mk_host (Scenario.table_entries Scenario.project_fs)
      (Scenario.table_mode Scenario.project_fs)
      (fun n => Nat.ltb n 2) (fun _ => Scenario.accept_all) in
  exists c' w',
    rp_complete_filename h Scenario.top_cenv (chars "sr") "/"%char None Scenario.start
    = Some (c', w')
    /\ opened (log w') = opened (log Scenario.start)
    /\ proposed (log w') = proposed (log Scenario.start)
    /\ (allocs w' <= allocs Scenario.start + 4)%nat.
Proof.
  cbv zeta.
  assert (H1 : (2 < 4)%nat) by lia.
  exact (no_memory_no_completion
           (mk_host (Scenario.table_entries Scenario.project_fs)
              (Scenario.table_mode Scenario.project_fs)
              (fun n => Nat.ltb n 2) (fun _ => Scenario.accept_all))
           Scenario.top_cenv (chars "sr") "/"%char None Scenario.start 2 H1 eq_refl).
Defined.

(** [empty_sets] on a prefix with a space and a quote. *)
Lemma empty_sets_witness :
  no_nul (chars "say 'hel lo")
  /\ (exists pos, word_boundary (chars "say 'hel lo") default_non_word_chars "\"%char []
                  = Some (pos, NUL))
  /\ word_boundary (chars "say hel lo") [] "\"%char default_quote_chars = Some (0, NUL).
Proof.
  assert (H1 : no_nul (chars "say 'hel lo")) by (apply no_nul_check; reflexivity).
  assert (H2 : no_nul (chars "say hel lo")) by (apply no_nul_check; reflexivity).
  split; [exact H1|]. split.
  - exact (proj1 (empty_sets (chars "say 'hel lo") "\"%char H1) default_non_word_chars).
  - exact (proj2 (empty_sets (chars "say hel lo") "\"%char H2) default_quote_chars eq_refl).
Defined.

(** ** A sink that declines *)

Lemma propose_until_stop_rejected (h : host) (cenv : rp_completion_env_t)
    (wenv : word_closure_t) (id : Z) :
  complete cenv = word_add_completion_ex_fn ->
  closure cenv = word_closure_ptr wenv ->
  prev_complete wenv = prim_complete id ->
  (forall l c, sink_accepts h id l c = false) ->
  (forall c, mem c (non_word_chars wenv) = true -> is_cont c = false) ->
  forall (cands : list (list ascii)) (w : world),
    Forall no_nul cands ->
    exists b w',
      propose_until_stop h cenv cands w = Some (b, w')
      /\ proposed (log w')
         = proposed (log w)
           ++ map (fun c => (rewritten (non_word_chars wenv) (escape_char wenv)
                               (quote wenv) c, false))
                (firstn 1 cands).
Proof.
  intros Hc Hcl Hprev Hrej Hnwc cands w Hnul.
  destruct cands as [|c rest]; cbn [propose_until_stop firstn map].
  - do 2 eexists. split; [reflexivity|]. rewrite app_nil_r. reflexivity.
  - inversion Hnul as [|c0 rest0 Hc0 Hrest]; subst.
    unfold rp_add_completion, rp_add_completion_ex. rewrite Hc, Hcl.
    cbn [call_complete word_add_completion_ex].
    rewrite (rewrite_candidate_rewritten wenv c Hc0 Hnwc), Hprev.
    unfold call_prim. rewrite Hrej.
    do 2 eexists. split; [reflexivity|].
    cbn [emit log]. rewrite proposed_app. reflexivity.
Qed.

Lemma complete_in_each_rejected (h : host) (cenv : rp_completion_env_t)
    (wenv : word_closure_t) (id : Z) (dir_prefix base_prefix : list ascii) (sep : ascii) :
  complete cenv = word_add_completion_ex_fn ->
  closure cenv = word_closure_ptr wenv ->
  prev_complete wenv = prim_complete id ->
  (forall l c, sink_accepts h id l c = false) ->
  (forall c, mem c (non_word_chars wenv) = true -> is_cont c = false) ->
  (forall d entries, fs_entries h d = Some entries -> Forall no_nul entries) ->
  no_nul dir_prefix ->
  forall (dirs : list (list ascii)) (w : world),
  exists w',
    complete_in_each h cenv dirs dir_prefix base_prefix sep w = Some w'
    /\ proposed (log w')
       = proposed (log w)
         ++ map (fun c => (rewritten (non_word_chars wenv) (escape_char wenv)
                             (quote wenv) c, false))
              (flat_map
                 (fun d =>
                    match fs_entries h d with
                    | Some entries =>
                        firstn 1 (candidates h d dir_prefix base_prefix sep entries)
                    | None => []
                    end) dirs).
Proof.
  intros Hc Hcl Hprev Hrej Hnwc Hfs Hdp.
  induction dirs as [|d ds IH]; intros w; cbn [complete_in_each flat_map].
  - eexists. split; [reflexivity|]. cbn [map]. rewrite app_nil_r. reflexivity.
  - rewrite filename_complete_indir_spec.
    destruct (fs_entries h d) as [[|name rest]|] eqn:Ed.
    + destruct (IH (emit (ev_open d) w)) as (w' & E' & Hp).
      exists w'. split; [exact E'|]. rewrite Hp. cbn [emit log candidates filter map firstn app].
      rewrite proposed_app. cbn [proposed]. rewrite app_nil_r. reflexivity.
    + destruct (propose_until_stop_rejected h cenv wenv id Hc Hcl Hprev Hrej Hnwc
                  (candidates h d dir_prefix base_prefix sep (name :: rest))
                  (emit (ev_open d) w)) as (b & w1 & E & Hp1).
      { apply candidates_no_nul; [exact Hdp | exact (Hfs d _ Ed)]. }
      rewrite E.
      destruct (IH (emit (ev_close d) w1)) as (w' & E' & Hp).
      exists w'. split; [exact E'|]. rewrite Hp. cbn [emit log].
      rewrite proposed_app. cbn [proposed]. rewrite app_nil_r, Hp1. cbn [emit log].
      rewrite proposed_app. cbn [proposed]. rewrite app_nil_r, map_app, <- app_assoc.
      reflexivity.
    + destruct (IH w) as (w' & E' & Hp).
      exists w'. split; [exact E'|]. rewrite Hp. reflexivity.
Qed.

(** X16. Lines 286 and 321-348 over a whole run of [rp_complete_filename]
    with a sink that declines every candidate: a declined candidate ends the
    enumeration of its directory and nothing more, so what reaches the sink
    is the first candidate of each directory searched that has one, in the
    order the directories are searched. *)
Theorem declined_in_every_directory (h : host) (cenv : rp_completion_env_t) (id : Z)
    (prefix : list ascii) (sep : ascii) (roots_arg : option (list ascii)) (w : world)
    (pos : Z) (q : ascii) :
  no_nul prefix ->
  word_boundary prefix filename_non_word_chars "\"%char default_quote_chars
  = Some (pos, q) ->
  pos < Z.of_nat (length prefix) ->
  (forall n, mem_ok h n = true) ->
  complete cenv = prim_complete id ->
  (forall l c, sink_accepts h id l c = false) ->
  (forall d entries, fs_entries h d = Some entries -> Forall no_nul entries) ->
  exists c' w',
    rp_complete_filename h cenv prefix sep roots_arg w = Some (c', w')
    /\ proposed (log w')
       = proposed (log w)
         ++ map (fun c => (rewritten filename_non_word_chars "\"%char q c, false))
              (first_candidates h
                 (word_of prefix filename_non_word_chars "\"%char pos q)
                 (match roots_arg with Some r => r | None => chars "." end) sep).
Proof.
  intros Hnul E Hlt Hmem Hsink Hrej Hfs.
  rewrite (rp_complete_filename_each h cenv prefix sep roots_arg w pos q Hnul E Hlt Hmem).
  set (word := word_of prefix filename_non_word_chars "\"%char pos q).
  set (wenv := mk_word_closure filename_non_word_chars "\"%char q
                 (Z.of_nat (length prefix) - pos) (complete cenv) (env cenv)).
  destruct (complete_in_each_rejected h
              (set_sink (set_arg cenv (filename_closure_of roots_arg sep))
                 word_add_completion_ex_fn (word_closure_ptr wenv))
              wenv id (dir_portion word) (base_name word) sep
              eq_refl eq_refl Hsink Hrej filename_non_word_chars_not_cont Hfs
              (dir_portion_no_nul word (word_of_no_nul _ _ _ _ _ Hnul))
              (directories_for word (match roots_arg with Some r => r | None => chars "." end))
              (mk_world (log w ++ [ev_callback word]) (S (S (S (S (allocs w)))))))
    as (w3 & E3 & Hp).
  rewrite E3. do 2 eexists. split; [reflexivity|].
  rewrite Hp. cbn [log]. rewrite proposed_app. cbn [proposed].
  rewrite app_nil_r. reflexivity.
Qed.

(** [declined_in_every_directory] on two roots that both hold an entry
    starting with [li]. *)
Lemma declined_in_every_directory_witness :
  let h := Scenario.table_host Scenario.two_roots_fs Scenario.reject_all in
  exists c' w',
    rp_complete_filename h Scenario.top_cenv (chars "li") "/"%char
      (Some (chars ".;/usr/local")) Scenario.start = Some (c', w')
    /\ proposed (log w') = [(chars "lib/", false); (chars "lib/", false)].
Proof.
  cbv zeta.
  assert (H1 : no_nul (chars "li")) by (apply no_nul_check; reflexivity).
  assert (H2 : 0 < Z.of_nat (length (chars "li"))) by (simpl; lia).
  exact (declined_in_every_directory
           (Scenario.table_host Scenario.two_roots_fs Scenario.reject_all)
           Scenario.top_cenv 0 (chars "li") "/"%char (Some (chars ".;/usr/local"))
           Scenario.start 0 NUL H1 eq_refl H2 (fun _ => eq_refl) eq_refl
           (fun _ _ => eq_refl)
           (table_entries_no_nul Scenario.two_roots_fs Scenario.reject_all eq_refl)).
Defined.
